(** * DraftKings betting-splits scraper: a shallow embedding of [app.py]

    The development follows the layout of the program: Python string
    primitives, the BeautifulSoup document tree, the parser
    ([parse_game], [parse_market], [parse_bet]), the paginating scraper
    ([scrape_betting_splits]), the cache manager, the sport filters and
    the analytics functions.

    Conventions.
    - A Python [str] is a [string]; a character is a byte of its UTF-8
      encoding.  The embedding is exact on ASCII text.  Bytes above 127
      are opaque symbols: they are neither white space nor digits and
      [upper] leaves them alone.
    - Python [int] is [Z].  The only floats the program computes are
      percentages read from digit strings, their sums with 30 and their
      differences; they are integer-valued and are modelled by [Z]
      (doubles are exact on integers below 2^53).
    - An exception raised and not caught is the result [None] of the
      error monad; [try/except] blocks are written out as matches.
    - The network and the clock are a state [World] threaded through the
      scraper and the cache manager; [while True] takes fuel and gives
      [None] when it runs out, and the loop is proved to end within the
      fuel it is given.
    - Bet dictionaries are objects in a store when the analytics run,
      since these copy them and assign to the copies. *)

From Stdlib Require Import ZArith Lia List Bool Ascii String Sorted Permutation.
From stdpp Require Import gmap strings list.

Local Open Scope string_scope.
Local Open Scope Z_scope.

(** ** Python string primitives *)

Module PyStr.

Definition ord (c : ascii) : nat := nat_of_ascii c.

(** [str.isspace] on one ASCII character: TAB, LF, VT, FF, CR, the four
    separators FS, GS, RS, US and the blank. *)
Definition isspace (c : ascii) : bool :=
  let n := ord c in
  ((9 <=? n)%nat && (n <=? 13)%nat) || ((28 <=? n)%nat && (n <=? 32)%nat).

Definition isdigit_char (c : ascii) : bool :=
  let n := ord c in (48 <=? n)%nat && (n <=? 57)%nat.

Definition digit_value (c : ascii) : Z := Z.of_nat (ord c) - 48.

Definition upper_char (c : ascii) : ascii :=
  let n := ord c in
  if (97 <=? n)%nat && (n <=? 122)%nat then ascii_of_nat (n - 32) else c.

(** [s.upper()] *)
Fixpoint upper (s : string) : string :=
  match s with
  | EmptyString => EmptyString
  | String c s' => String (upper_char c) (upper s')
  end.

Fixpoint lstrip (s : string) : string :=
  match s with
  | EmptyString => EmptyString
  | String c s' => if isspace c then lstrip s' else s
  end.

Fixpoint rstrip (s : string) : string :=
  match s with
  | EmptyString => EmptyString
  | String c s' =>
      match rstrip s' with
      | EmptyString => if isspace c then EmptyString else String c EmptyString
      | r => String c r
      end
  end.

(** [s.strip()] *)
Definition strip (s : string) : string := rstrip (lstrip s).

(** [s.startswith(p)] *)
Fixpoint startswith (p s : string) : bool :=
  match p, s with
  | EmptyString, _ => true
  | String a p', String b s' => if Ascii.eqb a b then startswith p' s' else false
  | String _ _, EmptyString => false
  end.

(** [sub in s] *)
Fixpoint contains (sub s : string) : bool :=
  startswith sub s ||
  match s with
  | EmptyString => false
  | String _ s' => contains sub s'
  end.

(** [s.split(sep)] for a non-empty [sep] (every separator in the program
    is a literal): the scan goes left to right and matches do not
    overlap.  [skip] counts the characters of a matched separator that
    are still to be consumed.  The result is the piece being read and
    the pieces after it. *)
Fixpoint split_from (sep : string) (skip : nat) (s : string) : string * list string :=
  match s with
  | EmptyString => (EmptyString, [])
  | String c s' =>
      match skip with
      | S k => split_from sep k s'
      | O =>
          if startswith sep s
          then (EmptyString,
                let '(p, ps) := split_from sep (String.length sep - 1) s' in p :: ps)
          else let '(p, ps) := split_from sep 0 s' in (String c p, ps)
      end
  end.

Definition split (sep s : string) : list string :=
  let '(p, ps) := split_from sep 0 s in p :: ps.

(** [s.replace(old, new)] for a non-empty [old]. *)
Fixpoint replace_from (old new : string) (skip : nat) (s : string) : string :=
  match s with
  | EmptyString => EmptyString
  | String c s' =>
      match skip with
      | S k => replace_from old new k s'
      | O =>
          if startswith old s
          then new ++ replace_from old new (String.length old - 1) s'
          else String c (replace_from old new 0 s')
      end
  end.

Definition replace (old new s : string) : string := replace_from old new 0 s.

Fixpoint all_digits (s : string) : bool :=
  match s with
  | EmptyString => true
  | String c s' => isdigit_char c && all_digits s'
  end.

(** [s.isdigit()]: at least one character and only digits. *)
Definition isdigit (s : string) : bool :=
  match s with
  | EmptyString => false
  | _ => all_digits s
  end.

(** The digit part of a numeric literal: decimal digits with single
    underscores allowed between two digits.  [prev] tells whether the
    previous character was a digit. *)
Fixpoint digitpart (acc : Z) (prev : bool) (s : string) : option Z :=
  match s with
  | EmptyString => if prev then Some acc else None
  | String c s' =>
      if isdigit_char c then digitpart (10 * acc + digit_value c) true s'
      else if Ascii.eqb c "_" then (if prev then digitpart acc false s' else None)
      else None
  end.

(** [int(s)] in base ten: surrounding white space is dropped, one sign
    is allowed; [None] stands for [ValueError]. *)
Definition int (s : string) : option Z :=
  match strip s with
  | EmptyString => None
  | String c r =>
      if Ascii.eqb c "+" then digitpart 0 false r
      else if Ascii.eqb c "-" then option_map Z.opp (digitpart 0 false r)
      else digitpart 0 false (String c r)
  end.

(** [float(s)] on the integer literals, which is all that a stored
    percentage can hold once its percent signs are removed; the value is
    the integer itself.  Literals with a point or an exponent and the
    words inf and nan are outside this embedding. *)
Definition float (s : string) : option Z := int s.

End PyStr.

(** ** Python values and dictionaries *)

(** The values held by the dictionaries of the program: text, and the
    numbers written by the analytics. *)
Inductive pyval :=
  | PStr (s : string)
  | PFloat (x : Z).

#[global] Instance pyval_eq_dec : EqDecision pyval.
Proof. solve_decision. Defined.

(** A dictionary with string keys whose order is never observed. *)
Abbreviation pydict := (gmap string pyval).

(** An insertion-ordered dictionary, for [game['markets']], whose
    [items()] are iterated: [d[k] = v] replaces the value of an existing
    key where it stands and appends a new key at the end. *)
Fixpoint dict_set {V} (k : string) (v : V) (d : list (string * V)) : list (string * V) :=
  match d with
  | [] => [(k, v)]
  | (k', v') :: d' => if String.eqb k' k then (k, v) :: d' else (k', v') :: dict_set k v d'
  end.

(** ** The document tree of BeautifulSoup *)

Module Soup.

Inductive node :=
  | Text (s : string)
  | Tag (name : string) (class : list string) (contents : list node).

(** [tag.text]: the strings below the node, in document order. *)
Fixpoint text (n : node) : string :=
  match n with
  | Text s => s
  | Tag _ _ cs => fold_right (fun c acc => text c ++ acc) "" cs
  end.

Definition children (n : node) : list node :=
  match n with
  | Text _ => []
  | Tag _ _ cs => cs
  end.

(** A node followed by everything below it, in document order. *)
Fixpoint subtree (n : node) : list node :=
  n :: match n with
       | Text _ => []
       | Tag _ _ cs => flat_map subtree cs
       end.

Definition descendants (n : node) : list node := flat_map subtree (children n).

(** The test of [find(name, class_=c)]: a tag of that name which, when a
    class is asked for, lists it among its classes. *)
Definition matches (name : string) (cls : option string) (n : node) : bool :=
  match n with
  | Text _ => false
  | Tag nm cl _ =>
      String.eqb nm name &&
      match cls with
      | None => true
      | Some c => existsb (String.eqb c) cl
      end
  end.

Definition find_all (name : string) (cls : option string) (n : node) : list node :=
  List.filter (matches name cls) (descendants n).

(** [find_all(name, recursive=False)] *)
Definition find_all_children (name : string) (n : node) : list node :=
  List.filter (matches name None) (children n).

Definition find (name : string) (cls : option string) (n : node) : option node :=
  head (find_all name cls n).

End Soup.

(** ** Parser *)

Record Game (B : Type) := mkGame {
  title : string;
  time : string;
  away_team : string;
  home_team : string;
  markets : list (string * list B);
  scraped_date_range : option string
}.
Arguments mkGame {B}.
Arguments title {B}.
Arguments time {B}.
Arguments away_team {B}.
Arguments home_team {B}.
Arguments markets {B}.
Arguments scraped_date_range {B}.

(** The test applied to the text of each [div] of a bet row. *)
Definition is_percentage (text : string) : bool :=
  PyStr.contains "%" text &&
  PyStr.isdigit (PyStr.replace " " "" (PyStr.replace "%" "" text)).

(** The list [percentages] that [parse_bet] collects from all the [div]s
    of the row. *)
Definition percentages (bet_soup : Soup.node) : list string :=
  let all_divs := Soup.find_all "div" None bet_soup in
  List.filter is_percentage
    (List.map (fun div => PyStr.strip (Soup.text div)) all_divs).

Definition parse_bet (bet_soup : Soup.node) : option pydict :=
  match Soup.find "div" (Some "tb-slipline") bet_soup with
  | None => None
  | Some team_elem =>
      let team := PyStr.strip (Soup.text team_elem) in
      match Soup.find "a" (Some "tb-odd-s") bet_soup with
      | None => None
      | Some odds_elem =>
          let odds := PyStr.strip (Soup.text odds_elem) in
          let '(handle_pct, bets_pct) :=
            match percentages bet_soup with
            | p0 :: p1 :: _ => (p0, p1)
            | _ => ("0%", "0%")
            end in
          Some (<["team" := PStr team]>
                (<["odds" := PStr odds]>
                 (<["handle_pct" := PStr handle_pct]>
                  (<["bets_pct" := PStr bets_pct]> ∅))))
      end
  end.

(** A missing inner [div] of the header makes [.text] raise, which the
    [except] turns into [None]. *)
Definition parse_market (market_soup : Soup.node) : option (string * list pydict) :=
  match Soup.find "div" (Some "tb-se-head") market_soup with
  | None => None
  | Some header =>
      match Soup.find "div" None header with
      | None => None
      | Some label =>
          let market_type := PyStr.strip (Soup.text label) in
          let bets := Soup.find_all "div" (Some "tb-sodd") market_soup in
          Some (market_type, omap parse_bet bets)
      end
  end.

(** The two title formats of [parse_game]. *)
Definition split_title (title : string) : option (string * string) :=
  if PyStr.contains " @ " title then
    match PyStr.split " @ " title with
    | [a; h] => Some (PyStr.strip a, PyStr.strip h)
    | _ => None
    end
  else if PyStr.contains " vs " title then
    match PyStr.split " vs " title with
    | [a; h] => Some (PyStr.strip a, PyStr.strip h)
    | _ => None
    end
  else None.

Definition parse_game (game_soup : Soup.node) : option (Game pydict) :=
  match Soup.find "div" (Some "tb-se-title") game_soup with
  | None => None
  | Some title_elem =>
      match Soup.find "h5" None title_elem, Soup.find "span" None title_elem with
      | Some h5, Some span =>
          let title := PyStr.strip (Soup.text h5) in
          let time := PyStr.strip (Soup.text span) in
          match split_title title with
          | None => None
          | Some (away_team, home_team) =>
              match Soup.find "div" (Some "tb-market-wrap") game_soup with
              | None => None
              | Some market_wrapper =>
                  let market_containers := Soup.find_all_children "div" market_wrapper in
                  let markets :=
                    fold_left
                      (fun ms container =>
                         match parse_market container with
                         | Some (ty, bets) => dict_set ty bets ms
                         | None => ms
                         end)
                      market_containers [] in
                  Some (mkGame title time away_team home_team markets None)
              end
          end
      | _, _ => None
      end
  end.

(** ** Fetcher and paginator *)

(** The query parameters of a request; a parameter left out of the URL
    is [None]. *)
Record Url := mkUrl {
  tb_eg : Z;
  tb_edate : string;
  tb_emt : option Z;
  tb_page : option Z
}.

Record sport_config := mkSport {
  sport_name : string;
  sport_id : Z;
  date_ranges : list string
}.

Definition sport_configs : list sport_config :=
  [ mkSport "all_sports" 0 ["today"; "tomorrow"];
    mkSport "mlb" 84240 ["today"; "tomorrow"];
    mkSport "wnba" 94682 ["today"; "tomorrow"];
    mkSport "nba" 42648 ["today"; "tomorrow"];
    mkSport "nhl" 42133 ["today"; "tomorrow"];
    mkSport "mls" 89345 ["today"];
    mkSport "ufc" 9034 ["today"; "tomorrow"];
    mkSport "nfl" 88808 ["today"; "tomorrow"];
    mkSport "ncaaf" 87637 ["today"; "tomorrow"];
    mkSport "ncaa_basketball" 92483 ["today"; "tomorrow"];
    mkSport "ncaa_womens_basketball" 36647 ["today"; "tomorrow"];
    mkSport "ncaa_baseball" 41151 ["today"; "tomorrow"];
    mkSport "ncaa_ice_hockey" 84813 ["today"; "tomorrow"];
    mkSport "premier_league" 40253 ["today"];
    mkSport "champions_league" 40685 ["today"];
    mkSport "europa_league" 41410 ["today"] ].

(** The lines printed by the pagination loop that tell what it did with
    a page.  Each carries the sport, the date range and the page. *)
Inductive event :=
  | Scraping        (* "Scraping <sport> page <n> (<range>)..." *)
  | NoGamesFound    (* "No games found on <sport> page <n>, stopping" *)
  | NoNewGames      (* "No new games found on <sport> page <n>, stopping" *)
  | FoundNew (n : nat) (* "Found <n> new games on <sport> page <n>" *)
  | PageLimit       (* "Reached maximum page limit (20) for <sport>, stopping" *)
  | ScrapeError.    (* "Error scraping <sport> page <n>: ..." *)

Record log_line := mkLog {
  log_sport : string;
  log_range : string;
  log_page : Z;
  log_event : event
}.

(** The identity key compared by the duplicate check. *)
Definition game_key {B} (g : Game B) : string * string * option string :=
  (title g, time g, scraped_date_range g).

Definition same_game {B} (g existing : Game B) : bool :=
  bool_decide (title existing = title g) &&
  bool_decide (time existing = time g) &&
  bool_decide (scraped_date_range existing = scraped_date_range g).

Definition set_date_range {B} (date_range : string) (g : Game B) : Game B :=
  mkGame (title g) (time g) (away_team g) (home_team g) (markets g) (Some date_range).

(** One turn of [for game in games]: the state is [page_games] and
    [all_games_data]. *)
Definition add_game (date_range : string)
    (st : list (Game pydict) * list (Game pydict)) (game : Soup.node)
    : list (Game pydict) * list (Game pydict) :=
  let '(page_games, all_games_data) := st in
  match parse_game game with
  | Some parsed =>
      let game_data := set_date_range date_range parsed in
      let duplicate := existsb (same_game game_data) all_games_data in
      if negb duplicate
      then ((page_games ++ [game_data])%list, (all_games_data ++ [game_data])%list)
      else st
  | None => st
  end.

Section Scraper.

Context {World : Type}.

(** [requests.get(url)], [raise_for_status()] and the construction of the
    soup; [None] stands for any exception they raise. *)
Variable http_get : Url → World → option Soup.node * World.

(** The body of [while True]: the next page if the loop goes on, [None]
    after a [break]. *)
Definition scrape_page (cfg : sport_config) (date_range : string) (page : Z)
    (all_games_data : list (Game pydict)) (w : World)
    : option Z * list (Game pydict) * list log_line * World :=
  let line := mkLog (sport_name cfg) date_range page in
  let url :=
    if page =? 1
    then mkUrl (sport_id cfg) date_range (Some 0) None
    else mkUrl (sport_id cfg) date_range None (Some page) in
  match http_get url w with
  | (None, w') => (None, all_games_data, [line Scraping; line ScrapeError], w')
  | (Some soup, w') =>
      match Soup.find_all "div" (Some "tb-se") soup with
      | [] => (None, all_games_data, [line Scraping; line NoGamesFound], w')
      | games =>
          let '(page_games, all_games_data') :=
            fold_left (add_game date_range) games ([], all_games_data) in
          match page_games with
          | [] => (None, all_games_data', [line Scraping; line NoNewGames], w')
          | _ =>
              let found := line (FoundNew (length page_games)) in
              let page' := page + 1 in
              if page' >? 20
              then (None, all_games_data', [line Scraping; found; line PageLimit], w')
              else (Some page', all_games_data', [line Scraping; found], w')
          end
      end
  end.

(** [while True]: [fuel] bounds the number of turns and [None] means
    that the bound was reached before a [break]. *)
Fixpoint scrape_pages (fuel : nat) (cfg : sport_config) (date_range : string)
    (page : Z) (all_games_data : list (Game pydict)) (w : World)
    : option (list (Game pydict) * list log_line * World) :=
  match fuel with
  | O => None
  | S fuel' =>
      match scrape_page cfg date_range page all_games_data w with
      | (None, all', log, w') => Some (all', log, w')
      | (Some page', all', log, w') =>
          match scrape_pages fuel' cfg date_range page' all' w' with
          | Some (all'', log', w'') => Some (all'', (log ++ log')%list, w'')
          | None => None
          end
      end
  end.

(** [for date_range in date_ranges], each range starting at page 1. *)
Fixpoint scrape_ranges (fuel : nat) (cfg : sport_config) (ranges : list string)
    (all_games_data : list (Game pydict)) (w : World)
    : option (list (Game pydict) * list log_line * World) :=
  match ranges with
  | [] => Some (all_games_data, [], w)
  | date_range :: ranges' =>
      match scrape_pages fuel cfg date_range 1 all_games_data w with
      | Some (all', log, w') =>
          match scrape_ranges fuel cfg ranges' all' w' with
          | Some (all'', log', w'') => Some (all'', (log ++ log')%list, w'')
          | None => None
          end
      | None => None
      end
  end.

(** [for sport_name, config in sport_configs.items()] *)
Fixpoint scrape_sports (fuel : nat) (cfgs : list sport_config)
    (all_games_data : list (Game pydict)) (w : World)
    : option (list (Game pydict) * list log_line * World) :=
  match cfgs with
  | [] => Some (all_games_data, [], w)
  | cfg :: cfgs' =>
      if String.eqb (sport_name cfg) "all_sports"
      then scrape_sports fuel cfgs' all_games_data w
      else
        match scrape_ranges fuel cfg (date_ranges cfg) all_games_data w with
        | Some (all', log, w') =>
            match scrape_sports fuel cfgs' all' w' with
            | Some (all'', log', w'') => Some (all'', (log ++ log')%list, w'')
            | None => None
            end
        | None => None
        end
  end.

Definition scrape_betting_splits (fuel : nat) (w : World)
    : option (list (Game pydict) * list log_line * World) :=
  scrape_sports fuel sport_configs [] w.

(** ** Cache manager *)

(** The two module-level variables. *)
Record cache := mkCache {
  cached_games_data : list (Game pydict);
  cache_timestamp : option Z
}.

Definition CACHE_DURATION_MINUTES : Z := 30.

(** [timedelta(minutes=m)] in microseconds, the resolution of
    [datetime]. *)
Definition timedelta_minutes (m : Z) : Z := m * 60 * 1000000.

(** [datetime.now()], in microseconds. *)
Variable now : World → Z * World.

Definition is_cache_expired (c : cache) (w : World) : bool * World :=
  match cache_timestamp c with
  | None => (true, w)
  | Some stamp =>
      let '(n, w') := now w in
      let cache_age := n - stamp in
      (cache_age >? timedelta_minutes CACHE_DURATION_MINUTES, w')
  end.

(** The result says whether the data came from the cache.  On that path
    the clock is read once more, for the age that is printed. *)
Definition get_cached_or_fresh_data (fuel : nat) (c : cache) (w : World)
    : option (list (Game pydict) * bool * cache * World) :=
  let '(fresh_enough, w1) :=
    match cached_games_data c with
    | [] => (false, w)
    | _ => let '(expired, w') := is_cache_expired c w in (negb expired, w')
    end in
  if fresh_enough then
    let '(_, w2) := now w1 in
    Some (cached_games_data c, true, c, w2)
  else
    match scrape_betting_splits fuel w1 with
    | Some (fresh_data, _, w2) =>
        let '(stamp, w3) := now w2 in
        Some (fresh_data, false, mkCache fresh_data (Some stamp), w3)
    | None => None
    end.

(** [refresh_cache]: both variables are cleared first. *)
Definition refresh_cache (fuel : nat) (c : cache) (w : World)
    : option (list (Game pydict) * bool * cache * World) :=
  get_cached_or_fresh_data fuel (mkCache [] None) w.

End Scraper.

(** ** Sport filter and team rosters *)

(** The list of [filter_mlb_games]. *)
Definition mlb_teams : list string :=
  [ "Angels"; "Astros"; "Athletics"; "Blue Jays"; "Braves"; "Brewers";
    "Cardinals"; "Cubs"; "Diamondbacks"; "Dodgers"; "Giants"; "Guardians";
    "Indians"; "Mariners"; "Marlins"; "Mets"; "Nationals"; "Orioles";
    "Padres"; "Phillies"; "Pirates"; "Rangers"; "Rays"; "Red Sox";
    "Reds"; "Rockies"; "Royals"; "Tigers"; "Twins"; "White Sox"; "Yankees";
    "LAA"; "HOU"; "OAK"; "TOR"; "ATL"; "MIL"; "STL"; "CHC"; "ARI"; "LAD";
    "SF"; "CLE"; "SEA"; "MIA"; "NYM"; "WSN"; "WAS"; "BAL"; "SD"; "PHI";
    "PIT"; "TEX"; "TB"; "BOS"; "CIN"; "COL"; "KC"; "DET"; "MIN"; "CWS";
    "CHW"; "NYY"; "NY" ].

(** The dictionary [team_lists] of [filter_games_by_sport]. *)
Definition team_lists : list (string * list string) :=
  [ ("mlb",
     [ "Angels"; "Astros"; "Athletics"; "Blue Jays"; "Braves"; "Brewers";
       "Cardinals"; "Cubs"; "Diamondbacks"; "Dodgers"; "Giants"; "Guardians";
       "Mariners"; "Marlins"; "Mets"; "Nationals"; "Orioles"; "Padres";
       "Phillies"; "Pirates"; "Rangers"; "Rays"; "Red Sox"; "Reds"; "Rockies";
       "Royals"; "Tigers"; "Twins"; "White Sox"; "Yankees";
       "LAA"; "HOU"; "OAK"; "TOR"; "ATL"; "MIL"; "STL"; "CHC"; "ARI"; "LAD";
       "SF"; "CLE"; "MIA"; "NYM"; "WSN"; "WAS"; "BAL"; "SD"; "PHI";
       "PIT"; "TEX"; "TB"; "BOS"; "CIN"; "COL"; "KC"; "DET"; "MIN"; "CWS";
       "CHW"; "NYY" ]);
    ("nba",
     [ "Hawks"; "Celtics"; "Nets"; "Hornets"; "Bulls"; "Cavaliers"; "Mavericks";
       "Nuggets"; "Pistons"; "Warriors"; "Rockets"; "Pacers"; "Clippers"; "Lakers";
       "Grizzlies"; "Heat"; "Bucks"; "Timberwolves"; "Pelicans"; "Knicks";
       "Thunder"; "Magic"; "76ers"; "Suns"; "Trail Blazers"; "Kings"; "Spurs";
       "Raptors"; "Jazz"; "Wizards";
       "ATL"; "BOS"; "BKN"; "CHA"; "CHI"; "CLE"; "DAL"; "DEN"; "DET"; "GSW";
       "HOU"; "IND"; "LAC"; "LAL"; "MEM"; "MIA"; "MIL"; "MIN"; "NOP"; "NYK";
       "OKC"; "ORL"; "PHI"; "PHX"; "POR"; "SAC"; "SAS"; "TOR"; "UTA"; "WAS" ]);
    ("nfl",
     [ "Cardinals"; "Falcons"; "Ravens"; "Bills"; "Panthers"; "Bears"; "Bengals";
       "Browns"; "Cowboys"; "Broncos"; "Lions"; "Packers"; "Texans"; "Colts";
       "Jaguars"; "Chiefs"; "Raiders"; "Chargers"; "Rams"; "Dolphins"; "Vikings";
       "Patriots"; "Saints"; "Giants"; "Jets"; "Eagles"; "Steelers"; "49ers";
       "Seahawks"; "Buccaneers"; "Titans"; "Commanders";
       "ARI"; "ATL"; "BAL"; "BUF"; "CAR"; "CHI"; "CIN"; "CLE"; "DAL"; "DEN";
       "DET"; "GB"; "HOU"; "IND"; "JAX"; "KC"; "LV"; "LAC"; "LAR"; "MIA";
       "MIN"; "NE"; "NO"; "NYG"; "NYJ"; "PHI"; "PIT"; "SF"; "TEN"; "WAS" ]);
    ("nhl",
     [ "Ducks"; "Coyotes"; "Bruins"; "Sabres"; "Flames"; "Hurricanes";
       "Blackhawks"; "Avalanche"; "Blue Jackets"; "Stars"; "Red Wings";
       "Oilers"; "Panthers"; "Kings"; "Wild"; "Canadiens"; "Predators";
       "Devils"; "Islanders"; "Rangers"; "Senators"; "Flyers"; "Penguins";
       "Sharks"; "Kraken"; "Blues"; "Lightning"; "Maple Leafs"; "Canucks";
       "Golden Knights"; "Capitals"; "Jets";
       "ANA"; "ARI"; "BOS"; "BUF"; "CGY"; "CAR"; "CHI"; "COL"; "CBJ"; "DAL";
       "DET"; "EDM"; "FLA"; "LAK"; "MIN"; "MTL"; "NSH"; "NJD"; "NYI"; "NYR";
       "OTT"; "PHI"; "PIT"; "SJS"; "STL"; "TBL"; "TOR"; "VAN"; "VGK";
       "WSH"; "WPG" ]) ].

(** [team_lists[sport]], with [None] when the key is absent. *)
Fixpoint dict_get {V} (k : string) (d : list (string * V)) : option V :=
  match d with
  | [] => None
  | (k', v) :: d' => if String.eqb k' k then Some v else dict_get k d'
  end.

(** [any(team.upper() in title_upper for team in teams)] *)
Definition title_has_team {B} (teams : list string) (game : Game B) : bool :=
  let title_upper := PyStr.upper (title game) in
  existsb (fun team => PyStr.contains (PyStr.upper team) title_upper) teams.

Definition filter_mlb_games {B} (games : list (Game B)) : list (Game B) :=
  List.filter (title_has_team mlb_teams) games.

Definition filter_games_by_sport {B} (games : list (Game B)) (sport : string)
    : list (Game B) :=
  match dict_get sport team_lists with
  | None => []
  | Some sport_teams => List.filter (title_has_team sport_teams) games
  end.

(** ** The object store

    The analytics copy bet dictionaries and assign to the copies, so
    here the dictionaries are objects: the store lists them in order of
    creation and a reference is a position in it.  A snapshot under
    analysis is a list of games whose markets hold references. *)

Abbreviation loc := nat (only parsing).
Abbreviation store := (list pydict) (only parsing).

(** Computations that read and write the store and may raise. *)
Definition M (A : Type) : Type := store → option (A * store).

Definition ret {A} (x : A) : M A := fun σ => Some (x, σ).

Definition bind {A B} (m : M A) (k : A → M B) : M B :=
  fun σ => match m σ with
           | Some (x, σ') => k x σ'
           | None => None
           end.

Notation "'do' x <- m ; k" := (bind m (fun x => k))
  (at level 10, x name, m at level 100, k at level 200).

(** A dictionary display or literal creates an object. *)
Definition new_dict (d : pydict) : M loc :=
  fun σ => Some (length σ, (σ ++ [d])%list).

(** The whole dictionary behind a reference, for [**bet]. *)
Definition deref (l : loc) : M pydict :=
  fun σ => match σ !! l with
           | Some d => Some (d, σ)
           | None => None
           end.

(** [obj[k]]; a missing key raises [KeyError]. *)
Definition getitem (l : loc) (k : string) : M pyval :=
  fun σ => match σ !! l with
           | Some d => match d !! k with
                       | Some v => Some (v, σ)
                       | None => None
                       end
           | None => None
           end.

(** [obj[k] = v] *)
Definition setitem (l : loc) (k : string) (v : pyval) : M unit :=
  fun σ => match σ !! l with
           | Some d => Some (tt, <[l := <[k := v]> d]> σ)
           | None => None
           end.

Fixpoint mapM {A B} (f : A → M B) (l : list A) : M (list B) :=
  match l with
  | [] => ret []
  | x :: l' => do y <- f x; do ys <- mapM f l'; ret (y :: ys)
  end.

(** A loop that appends the elements passing a test which may itself
    write to the store. *)
Fixpoint filterM {A} (f : A → M bool) (l : list A) : M (list A) :=
  match l with
  | [] => ret []
  | x :: l' => do b <- f x; do xs <- filterM f l'; ret (if b then x :: xs else xs)
  end.

(** ** Analytics *)

Definition extract_all_bets (games : list (Game loc)) : M (list loc) :=
  do per_game <-
    mapM (fun game =>
      do per_market <-
        mapM (fun '(market_type, bets) =>
          mapM (fun bet =>
            do d <- deref bet;
            new_dict (<["market_type" := PStr market_type]>
                      (<["home_team" := PStr (home_team game)]>
                       (<["away_team" := PStr (away_team game)]>
                        (<["game_time" := PStr (time game)]>
                         (<["game_title" := PStr (title game)]> d))))))
            bets)
          (markets game);
      ret (concat per_market))
      games;
  ret (concat per_game).

(** [float(pct_str.replace('%', ''))]; any exception, a value that is
    not a string included, gives [0.0]. *)
Definition parse_percentage (pct_str : pyval) : Z :=
  match pct_str with
  | PStr s =>
      match PyStr.float (PyStr.replace "%" "" s) with
      | Some x => x
      | None => 0
      end
  | PFloat _ => 0
  end.

(** The text that [parse_odds] replaces by a minus sign, byte by byte. *)
Definition odd_minus : string :=
  String (ascii_of_nat 195) (String (ascii_of_nat 162)
  (String (ascii_of_nat 203) (String (ascii_of_nat 134)
  (String (ascii_of_nat 226) (String (ascii_of_nat 128)
  (String (ascii_of_nat 153) EmptyString)))))).

Definition parse_odds (odds_str : pyval) : Z :=
  match odds_str with
  | PStr s =>
      match PyStr.int (PyStr.replace odd_minus "-" s) with
      | Some n => n
      | None => 0
      end
  | PFloat _ => 0
  end.

(** [sorted(l, key=..., reverse=True)] on elements paired with their
    keys.  The sort is stable: among equal keys the earlier element
    stays first. *)
Fixpoint insert_desc {A} (x : Z * A) (l : list (Z * A)) : list (Z * A) :=
  match l with
  | [] => [x]
  | y :: l' => if fst x <? fst y then y :: insert_desc x l' else x :: l
  end.

Definition sorted_desc {A} (l : list (Z * A)) : list (Z * A) :=
  fold_right insert_desc [] l.

(** [l[:limit]] *)
Definition slice_to {A} (limit : Z) (l : list A) : list A :=
  if 0 <=? limit then take (Z.to_nat limit) l
  else take (length l - Z.to_nat (- limit)) l.

(** A sort key that was stored as a float. *)
Definition float_key (l : loc) (k : string) : M Z :=
  do v <- getitem l k;
  match v with
  | PFloat x => ret x
  | PStr _ => fun _ => None
  end.

Definition sort_by_key (key : loc → M Z) (l : list loc) : M (list loc) :=
  do keys <- mapM key l;
  ret (List.map snd (sorted_desc (combine keys l))).

Definition not_total (bet : loc) : M bool :=
  do ty <- getitem bet "market_type";
  ret (negb (bool_decide (ty = PStr "Total"))).

Definition handle_key (bet : loc) : M Z :=
  do h <- getitem bet "handle_pct"; ret (parse_percentage h).

Definition big_bettor_alerts (games : list (Game loc)) (limit : Z) : M (list loc) :=
  do all_bets <- extract_all_bets games;
  do non_total_bets <- filterM not_total all_bets;
  do sorted_bets <- sort_by_key handle_key non_total_bets;
  ret (slice_to limit sorted_bets).

Definition sharpest_longshot_bets (games : list (Game loc)) (limit : Z) : M (list loc) :=
  do all_bets <- extract_all_bets games;
  do sharp_longshots <-
    filterM (fun bet =>
      do o <- getitem bet "odds";
      do h <- getitem bet "handle_pct";
      do b <- getitem bet "bets_pct";
      let odds := parse_odds o in
      let handle_pct := parse_percentage h in
      let bets_pct := parse_percentage b in
      if 200 <=? odds then
        if bets_pct + 30 <=? handle_pct then
          do _ <- setitem bet "handle_vs_bets_diff" (PFloat (handle_pct - bets_pct));
          ret true
        else ret false
      else ret false)
      all_bets;
  do sorted_longshots <-
    sort_by_key (fun x => float_key x "handle_vs_bets_diff") sharp_longshots;
  ret (slice_to limit sorted_longshots).

Definition get_rich_quick_scheme (games : list (Game loc)) : M (list loc) :=
  do all_bets <- extract_all_bets games;
  do rich_quick_bets <-
    filterM (fun bet =>
      do o <- getitem bet "odds";
      do h <- getitem bet "handle_pct";
      let odds := parse_odds o in
      let handle_pct := parse_percentage h in
      ret ((400 <=? odds) && (30 <=? handle_pct)))
      all_bets;
  sort_by_key handle_key rich_quick_bets.

(** The loop shared by [biggest_square_bets] and its sport variant. *)
Definition square_loop (all_bets : list loc) : M (list loc) :=
  filterM (fun bet =>
    do h <- getitem bet "handle_pct";
    do b <- getitem bet "bets_pct";
    let handle_pct := parse_percentage h in
    let bets_pct := parse_percentage b in
    let square_score := bets_pct - handle_pct in
    if 0 <? square_score then
      do _ <- setitem bet "square_score" (PFloat square_score);
      ret true
    else ret false)
    all_bets.

Definition biggest_square_bets (games : list (Game loc)) (limit : Z) : M (list loc) :=
  do all_bets <- extract_all_bets games;
  do square_bets <- square_loop all_bets;
  do sorted_square <- sort_by_key (fun x => float_key x "square_score") square_bets;
  ret (slice_to limit sorted_square).

Definition big_bettor_alerts_by_sport (games : list (Game loc)) (sport : string)
    (limit : Z) : M (list loc) :=
  let sport_games := filter_games_by_sport games sport in
  match sport_games with
  | [] => ret []
  | _ =>
      do all_bets <- extract_all_bets sport_games;
      do non_total_bets <- filterM not_total all_bets;
      do _ <-
        mapM (fun bet =>
          do h <- getitem bet "handle_pct";
          do b <- getitem bet "bets_pct";
          let handle_pct := parse_percentage h in
          let bets_pct := parse_percentage b in
          setitem bet "handle_vs_bets_diff" (PFloat (handle_pct - bets_pct)))
          non_total_bets;
      do sorted_bets <-
        sort_by_key (fun x => float_key x "handle_vs_bets_diff") non_total_bets;
      ret (slice_to limit sorted_bets)
  end.

Definition biggest_square_bets_by_sport (games : list (Game loc)) (sport : string)
    (limit : Z) : M (list loc) :=
  let sport_games := filter_games_by_sport games sport in
  match sport_games with
  | [] => ret []
  | _ =>
      do all_bets <- extract_all_bets sport_games;
      do square_bets <- square_loop all_bets;
      do sorted_square <- sort_by_key (fun x => float_key x "square_score") square_bets;
      ret (slice_to limit sorted_square)
  end.

(** The analytics queries. *)
Inductive query :=
  | BigBettorAlerts (limit : Z)
  | SharpestLongshots (limit : Z)
  | GetRichQuickScheme
  | BiggestSquareBets (limit : Z)
  | BigBettorAlertsBySport (sport : string) (limit : Z)
  | BiggestSquareBetsBySport (sport : string) (limit : Z).

Definition run_query (q : query) (games : list (Game loc)) : M (list loc) :=
  match q with
  | BigBettorAlerts limit => big_bettor_alerts games limit
  | SharpestLongshots limit => sharpest_longshot_bets games limit
  | GetRichQuickScheme => get_rich_quick_scheme games
  | BiggestSquareBets limit => biggest_square_bets games limit
  | BigBettorAlertsBySport sport limit => big_bettor_alerts_by_sport games sport limit
  | BiggestSquareBetsBySport sport limit => biggest_square_bets_by_sport games sport limit
  end.

(** The snapshot as objects: every bet dictionary of the parsed games is
    placed in the store and the games refer to it. *)
Definition intern_game (g : Game pydict) : M (Game loc) :=
  do ms <- mapM (fun '(ty, bets) => do ls <- mapM new_dict bets; ret (ty, ls)) (markets g);
  ret (mkGame (title g) (time g) (away_team g) (home_team g) ms (scraped_date_range g)).

Definition intern_games (games : list (Game pydict)) : M (list (Game loc)) :=
  mapM intern_game games.

(** ** Notions used to state the properties *)

(** The title that [parse_game] reads from a fragment, when the header
    and its [h5] are there. *)
Definition fragment_title (game_soup : Soup.node) : option string :=
  match Soup.find "div" (Some "tb-se-title") game_soup with
  | None => None
  | Some title_elem =>
      match Soup.find "h5" None title_elem with
      | None => None
      | Some h5 => Some (PyStr.strip (Soup.text h5))
      end
  end.

(** The tokens of the MLB-only list that the generic MLB roster lacks. *)
Definition mlb_extra_tokens : list string :=
  match dict_get "mlb" team_lists with
  | Some roster =>
      List.filter (fun t => negb (existsb (String.eqb t) roster)) mlb_teams
  | None => mlb_teams
  end.

(** The pages whose fetch a log announces. *)
Definition is_scraping (e : event) : bool :=
  match e with
  | Scraping => true
  | _ => false
  end.

Definition fetched_pages (log : list log_line) : list Z :=
  List.map log_page (List.filter (fun l => is_scraping (log_event l)) log).

(** The events after which the loop leaves. *)
Definition is_stop (e : event) : bool :=
  match e with
  | NoGamesFound | NoNewGames | PageLimit | ScrapeError => true
  | Scraping | FoundNew _ => false
  end.

(** The difference of the two percentages of a bet dictionary. *)
Definition handle_minus_bets (d : pydict) : Z :=
  match d !! "handle_pct", d !! "bets_pct" with
  | Some h, Some b => parse_percentage h - parse_percentage b
  | _, _ => 0
  end.

Definition handle_of (d : pydict) : Z :=
  match d !! "handle_pct" with
  | Some h => parse_percentage h
  | None => 0
  end.

(** A rank key read through a reference. *)
Definition key_at (f : pydict → Z) (σ : store) (l : loc) : Z :=
  match σ !! l with
  | Some d => f d
  | None => 0
  end.

(** Descending order of a list of references under a rank key. *)
Definition descending (f : pydict → Z) (σ : store) (ls : list loc) : Prop :=
  StronglySorted (fun x y => key_at f σ y <= key_at f σ x) ls.

(** White space only. *)
Fixpoint all_space (s : string) : bool :=
  match s with
  | EmptyString => true
  | String c s' => PyStr.isspace c && all_space s'
  end.

(** [s[n:]] *)
Fixpoint drop_str (n : nat) (s : string) : string :=
  match n, s with
  | O, _ => s
  | S n', String _ s' => drop_str n' s'
  | S _, EmptyString => EmptyString
  end.

(** The pieces of a split put back together around the separator. *)
Definition join_pieces (sep : string) (p : string * list string) : string :=
  fst p ++ fold_right (fun q acc => sep ++ q ++ acc) "" (snd p).

(** Every character passes the test. *)
Fixpoint str_forall (P : ascii → bool) (s : string) : bool :=
  match s with
  | EmptyString => true
  | String c s' => P c && str_forall P s'
  end.

Definition digit_or_blank (c : ascii) : bool := PyStr.isdigit_char c || Ascii.eqb c " ".

(** What one turn of the pagination loop can log, and whether it goes on. *)
Inductive page_outcome (page : Z) (line : event → log_line)
    : option Z → list log_line → Prop :=
  | outcome_stop e :
      e = ScrapeError ∨ e = NoGamesFound ∨ e = NoNewGames →
      page_outcome page line None [line Scraping; line e]
  | outcome_limit n :
      20 < page + 1 →
      page_outcome page line None [line Scraping; line (FoundNew n); line PageLimit]
  | outcome_next n :
      page + 1 ≤ 20 →
      page_outcome page line (Some (page + 1)) [line Scraping; line (FoundNew n)].

(** The shape of the log of one pagination loop that starts at [page]
    and fetches [k] pages. *)
Definition pagination_log (page : Z) (k : nat) (log : list log_line) : Prop :=
  fetched_pages log = List.map (λ i, page + Z.of_nat i) (seq 0 k) ∧
  ∃ body stop,
    log = (body ++ [stop])%list ∧
    Forall (λ l, is_stop (log_event l) = false) body ∧
    is_stop (log_event stop) = true ∧
    log_page stop = page + Z.of_nat k - 1 ∧
    (log_event stop = PageLimit → page + Z.of_nat k - 1 = 20).

Definition bets_minus_handle (d : pydict) : Z :=
  match d !! "handle_pct", d !! "bets_pct" with
  | Some h, Some b => parse_percentage b - parse_percentage h
  | _, _ => 0
  end.

(** How the analytics may change a dictionary: only the two derived
    fields, and only to the value computed from its own percentages. *)
Definition derived_update (d d' : pydict) : Prop :=
  (∀ k, k ≠ "handle_vs_bets_diff" → k ≠ "square_score" → d' !! k = d !! k) ∧
  (d' !! "handle_vs_bets_diff" = d !! "handle_vs_bets_diff" ∨
   d' !! "handle_vs_bets_diff" = Some (PFloat (handle_minus_bets d))) ∧
  (d' !! "square_score" = d !! "square_score" ∨
   d' !! "square_score" = Some (PFloat (bets_minus_handle d))).

(** How the analytics may change the store: it grows, the objects below
    [n] stay as they are and the others undergo derived updates. *)
Definition evolves (n : nat) (σ σ' : store) : Prop :=
  (length σ ≤ length σ')%nat ∧
  (∀ l, (l < n)%nat → σ' !! l = σ !! l) ∧
  (∀ l d, σ !! l = Some d → ∃ d', σ' !! l = Some d' ∧ derived_update d d').

(** A copy made by [extract_all_bets] for a game of [games]. *)
Definition copy_of (games : list (Game loc)) (σ : store) (l : loc) : Prop :=
  ∃ g d, g ∈ games ∧ σ !! l = Some d ∧
         d !! "game_title" = Some (PStr (title g)).

(** The bet behind [l] is not in a "Total" market. *)
Definition non_total (σ : store) (l : loc) : Prop :=
  ∃ d ty, σ !! l = Some d ∧ d !! "market_type" = Some ty ∧ ty ≠ PStr "Total".

(** The bet behind [l] carries the derived field [k] with the value [f]
    computes from its percentages. *)
Definition has_score (k : string) (f : pydict → Z) (σ : store) (l : loc) : Prop :=
  ∃ d, σ !! l = Some d ∧ d !! k = Some (PFloat (f d)).

(** The bet behind [l] passes the test of [sharpest_longshot_bets]. *)
Definition longshot (σ : store) (l : loc) : Prop :=
  ∃ d o h b,
    σ !! l = Some d ∧ d !! "odds" = Some o ∧
    d !! "handle_pct" = Some h ∧ d !! "bets_pct" = Some b ∧
    200 ≤ parse_odds o ∧ 30 ≤ parse_percentage h - parse_percentage b.

(** ** Notions used to state the further properties *)

(** A bet dictionary as [parse_bet] builds it: the four keys and nothing
    else, with trimmed label and odds and two percentage tokens. *)
Definition parsed_bet (d : pydict) : Prop :=
  ∃ team odds handle_pct bets_pct,
    d = <["team" := PStr team]>
        (<["odds" := PStr odds]>
         (<["handle_pct" := PStr handle_pct]>
          (<["bets_pct" := PStr bets_pct]> ∅))) ∧
    PyStr.strip team = team ∧ PyStr.strip odds = odds ∧
    is_percentage handle_pct = true ∧ is_percentage bets_pct = true.

(** The market containers that [parse_game] goes through. *)
Definition market_containers (game_soup : Soup.node) : list Soup.node :=
  match Soup.find "div" (Some "tb-market-wrap") game_soup with
  | Some market_wrapper => Soup.find_all_children "div" market_wrapper
  | None => []
  end.

(** The number of new games that a log announces. *)
Definition found_total (log : list log_line) : nat :=
  foldr (λ l n, match log_event l with FoundNew k => (k + n)%nat | _ => n end) 0%nat log.

(** A game as the scraper stores it: parsed from a fragment and stamped
    with the date range of the request. *)
Definition scraped_from (date_range : string) (g : Game pydict) : Prop :=
  ∃ frag parsed, parse_game frag = Some parsed ∧ g = set_date_range date_range parsed.

(** The (sport, date range) pairs that the scraper goes through. *)
Definition scrape_pairs (cfgs : list sport_config) : list (sport_config * string) :=
  flat_map (λ cfg, if String.eqb (sport_name cfg) "all_sports" then []
                   else List.map (λ d, (cfg, d)) (date_ranges cfg)) cfgs.

(** A log line of the pagination of one of these pairs. *)
Definition line_of (pairs : list (sport_config * string)) (l : log_line) : Prop :=
  ∃ cfg d, (cfg, d) ∈ pairs ∧ log_sport l = sport_name cfg ∧ log_range l = d ∧
           1 ≤ log_page l ≤ 20.

(** What holds of every game of a snapshot. *)
Definition scraped_game_ok (g : Game pydict) : Prop :=
  split_title (title g) = Some (away_team g, home_team g) ∧
  (scraped_date_range g = Some "today" ∨ scraped_date_range g = Some "tomorrow") ∧
  NoDup (List.map fst (markets g)) ∧
  Forall (λ m, Forall parsed_bet m.2) (markets g).

(** The soccer competitions, which are requested for "today" only. *)
Definition soccer : list string :=
  ["mls"; "premier_league"; "champions_league"; "europa_league"].

(** The number that a run of decimal digits denotes. *)
Fixpoint decimal_from (acc : Z) (digits : string) : Z :=
  match digits with
  | EmptyString => acc
  | String c rest => decimal_from (10 * acc + PyStr.digit_value c) rest
  end.

Definition decimal (digits : string) : Z := decimal_from 0 digits.

(** The copy that [extract_all_bets] makes of a bet dictionary. *)
Definition with_context (g : Game loc) (market_type : string) (d : pydict) : pydict :=
  <["market_type" := PStr market_type]>
  (<["home_team" := PStr (home_team g)]>
   (<["away_team" := PStr (away_team g)]>
    (<["game_time" := PStr (time g)]>
     (<["game_title" := PStr (title g)]> d)))).

(** The copies of all the bets of the games, read in the store [σ], in
    document order. *)
Definition context_copies (σ : store) (games : list (Game loc)) : list pydict :=
  flat_map (λ g,
    flat_map (λ m, List.map (λ bet, with_context g m.1 (default ∅ (σ !! bet))) m.2)
      (markets g)) games.

(** Every bet that the games refer to is an object of the store. *)
Definition bets_stored (games : list (Game loc)) (σ : store) : Prop :=
  ∀ g m bet, g ∈ games → m ∈ markets g → bet ∈ m.2 → (bet < length σ)%nat.

(** The tests of the analytics loops, on the dictionary behind a
    reference; a missing key counts as a failed test. *)
Definition is_non_total (σ : store) (l : loc) : bool :=
  match σ !! l with
  | Some d =>
      match d !! "market_type" with
      | Some ty => negb (bool_decide (ty = PStr "Total"))
      | None => false
      end
  | None => false
  end.

Definition is_longshot (σ : store) (l : loc) : bool :=
  match σ !! l with
  | Some d =>
      match d !! "odds", d !! "handle_pct", d !! "bets_pct" with
      | Some o, Some h, Some b =>
          (200 <=? parse_odds o) && (parse_percentage b + 30 <=? parse_percentage h)
      | _, _, _ => false
      end
  | None => false
  end.

Definition is_rich (σ : store) (l : loc) : bool :=
  match σ !! l with
  | Some d =>
      match d !! "odds", d !! "handle_pct" with
      | Some o, Some h => (400 <=? parse_odds o) && (30 <=? parse_percentage h)
      | _, _ => false
      end
  | None => false
  end.

Definition is_square (σ : store) (l : loc) : bool :=
  match σ !! l with
  | Some d =>
      match d !! "handle_pct", d !! "bets_pct" with
      | Some h, Some b => 0 <? parse_percentage b - parse_percentage h
      | _, _ => false
      end
  | None => false
  end.

(** The list that [sorted(l, key=f, reverse=True)] gives when the keys
    are read in the store [σ]. *)
Definition ranking (f : pydict → Z) (σ : store) (l : list loc) : list loc :=
  List.map snd (sorted_desc (List.map (λ x, (key_at f σ x, x)) l)).


(** The games a query looks at, the test of its loop, its sort key and
    its limit. *)
Definition query_games (q : query) (games : list (Game loc)) : list (Game loc) :=
  match q with
  | BigBettorAlertsBySport sport _ | BiggestSquareBetsBySport sport _ =>
      filter_games_by_sport games sport
  | _ => games
  end.

Definition query_test (q : query) : store → loc → bool :=
  match q with
  | BigBettorAlerts _ | BigBettorAlertsBySport _ _ => is_non_total
  | SharpestLongshots _ => is_longshot
  | GetRichQuickScheme => is_rich
  | BiggestSquareBets _ | BiggestSquareBetsBySport _ _ => is_square
  end.

Definition rank_key (q : query) : pydict → Z :=
  match q with
  | BigBettorAlerts _ | GetRichQuickScheme => handle_of
  | SharpestLongshots _ | BigBettorAlertsBySport _ _ => handle_minus_bets
  | BiggestSquareBets _ | BiggestSquareBetsBySport _ _ => bets_minus_handle
  end.

Definition query_limit (q : query) : option Z :=
  match q with
  | BigBettorAlerts limit | SharpestLongshots limit | BiggestSquareBets limit
  | BigBettorAlertsBySport _ limit | BiggestSquareBetsBySport _ limit => Some limit
  | GetRichQuickScheme => None
  end.

Definition cut (limit : option Z) (l : list loc) : list loc :=
  match limit with
  | Some n => slice_to n l
  | None => l
  end.

(** The keys that the analytics read from a copy of a bet. *)
Definition readable (d : pydict) : Prop :=
  is_Some (d !! "odds") ∧ is_Some (d !! "handle_pct") ∧ is_Some (d !! "bets_pct").

(** Every bet that the games refer to is an object of the store with
    the three keys of [parse_bet] that the analytics read. *)
Definition readable_bets (games : list (Game loc)) (σ : store) : Prop :=
  ∀ g m bet, g ∈ games → m ∈ markets g → bet ∈ m.2 →
    ∃ d, σ !! bet = Some d ∧ readable d.

(** A copy that the loops can work on. *)
Definition usable (σ : store) (l : loc) : Prop :=
  ∃ d, σ !! l = Some d ∧ readable d ∧ is_Some (d !! "market_type").

(** The references that the games hold, in document order, and the
    test that a reference leads to a readable bet. *)
Definition stored_refs (games : list (Game loc)) : list loc :=
  flat_map (λ g, flat_map snd (markets g)) games.

Definition is_readable (σ : store) (bet : loc) : bool :=
  match σ !! bet with
  | Some d =>
      bool_decide (is_Some (d !! "odds")) && bool_decide (is_Some (d !! "handle_pct")) &&
      bool_decide (is_Some (d !! "bets_pct"))
  | None => false
  end.

(** A scripted site and clock, to run the scraper on. *)
Module Demo.

Definition bet_row (label odds handle bets : string) : Soup.node :=
  Soup.Tag "div" ["tb-sodd"]
    [ Soup.Tag "div" ["tb-slipline"] [Soup.Text label];
      Soup.Tag "a" ["tb-odd-s"; "tb-odd"] [Soup.Text odds];
      Soup.Tag "div" [] [Soup.Text handle];
      Soup.Tag "div" [] [Soup.Text bets] ].

Definition market (label : string) (rows : list Soup.node) : Soup.node :=
  Soup.Tag "div" []
    (Soup.Tag "div" ["tb-se-head"] [Soup.Tag "div" [] [Soup.Text label]] :: rows).

Definition fragment (title time : string) (ms : list Soup.node) : Soup.node :=
  Soup.Tag "div" ["tb-se"]
    [ Soup.Tag "div" ["tb-se-title"]
        [ Soup.Tag "h5" [] [Soup.Text title]; Soup.Tag "span" [] [Soup.Text time] ];
      Soup.Tag "div" ["tb-market-wrap"] ms ].

Definition yankees : Soup.node :=
  fragment " Yankees @ Red Sox " "7:05 PM"
    [ market "Moneyline"
        [ bet_row "Yankees" "+250" "65%" "20%"; bet_row "Red Sox" "-300" "35%" "80%" ];
      market "Spread" [ bet_row "Yankees +1.5" "-120" "70%" "68%" ];
      market "Total" [ bet_row "Over 8.5" "+210" "90%" "40%" ] ].

Definition lakers : Soup.node :=
  fragment "Lakers vs Celtics" "8:00 PM"
    [ market "Spread" [ bet_row "Lakers -3" "-110" "30%" "55%" ] ].

Definition page (frags : list Soup.node) : Soup.node :=
  Soup.Tag "html" [] [Soup.Tag "body" [] frags].

(** MLB today has one page, listing one game twice, then an empty page;
    NBA today has a page with one game and no second page; every other
    request fails. *)
Definition site (u : Url) : option Soup.node :=
  if bool_decide (tb_eg u = 84240) && bool_decide (tb_edate u = "today") then
    match tb_page u with
    | None => Some (page [yankees; yankees])
    | Some _ => Some (page [])
    end
  else if bool_decide (tb_eg u = 42648) && bool_decide (tb_edate u = "today") then
    match tb_page u with
    | None => Some (page [lakers])
    | Some _ => None
    end
  else None.

(** The world is the clock, in microseconds; a request takes a second. *)
Definition http_get (u : Url) (w : Z) : option Soup.node * Z := (site u, w + 1000000).
Definition now (w : Z) : Z * Z := (w, w).

Definition mlb : sport_config := mkSport "mlb" 84240 ["today"; "tomorrow"].

(** The games of one scrape of the site, and the same snapshot as
    objects in a store. *)
Definition scrape_result : option (list (Game pydict) * list log_line * Z) :=
  scrape_betting_splits http_get 20 0.

Definition snapshot : list (Game pydict) :=
  match scrape_result with
  | Some (games, _, _) => games
  | None => []
  end.

Definition objects : list (Game loc) * store :=
  match intern_games snapshot [] with
  | Some r => r
  | None => ([], [])
  end.

Definition games : list (Game loc) := fst objects.
Definition bets : store := snd objects.


(** The outcome of a query on the snapshot. *)
Definition outcome (m : M (list loc)) : list loc * store :=
  match m bets with
  | Some r => r
  | None => ([], [])
  end.

(** A bet row whose first percentage is above one hundred. *)
Definition row_150 : Soup.node :=
  Soup.Tag "div" ["tb-sodd"]
    [ Soup.Tag "div" ["tb-slipline"] [Soup.Text "Yankees"];
      Soup.Tag "a" ["tb-odd-s"] [Soup.Text "+250"];
      Soup.Tag "div" [] [Soup.Text "150%"];
      Soup.Tag "div" [] [Soup.Text "20%"] ].

End Demo.

(** * Properties *)

(** ** Running the examples

    Results that hold dictionaries are large once computed; whether a
    computation succeeds is computed as a boolean instead. *)

Lemma default_Some {A} (d : A) (o : option A) :
  bool_decide (is_Some o) = true → o = Some (default d o).
Proof. intros [x ->]%bool_decide_eq_true_1. done. Qed.

Lemma outcome_Some (m : M (list loc)) :
  bool_decide (is_Some (m Demo.bets)) = true →
  m Demo.bets = Some ((Demo.outcome m).1, (Demo.outcome m).2).
Proof.
  intros [x E]%bool_decide_eq_true_1. unfold Demo.outcome. rewrite E. by destruct x.
Qed.

Module PyStrFacts.
Import PyStr.

#[local] Arguments String.append : simpl nomatch.

Lemma app_empty_r (s : string) : s ++ "" = s.
Proof. induction s; simpl; congruence. Qed.

Lemma app_assoc_str (a b c : string) : (a ++ b) ++ c = a ++ b ++ c.
Proof. induction a; simpl; congruence. Qed.

Lemma length_app_str (a b : string) :
  String.length (a ++ b) = (String.length a + String.length b)%nat.
Proof. induction a; simpl; congruence. Qed.

Lemma startswith_drop (p s : string) :
  startswith p s = true → s = p ++ drop_str (String.length p) s.
Proof.
  revert s. induction p as [|a p IH]; intros s H; [done|].
  destruct s as [|b s]; [done|]. simpl in *.
  destruct (Ascii.eqb_spec a b) as [->|]; [|done].
  f_equal. by apply IH.
Qed.

Lemma split_from_join (sep : string) :
  sep ≠ "" →
  ∀ s k, join_pieces sep (split_from sep k s) = drop_str k s.
Proof.
  intros Hsep. induction s as [|c s IH]; intros k.
  - by destruct k.
  - destruct k as [|k]; [|apply IH].
    cbn [split_from drop_str].
    destruct (startswith sep (String c s)) eqn:Hp.
    + pose proof (IH (String.length sep - 1)%nat) as IH'.
      destruct (split_from sep (String.length sep - 1) s) as [p ps].
      unfold join_pieces in *. cbn [fst snd fold_right] in *.
      apply startswith_drop in Hp.
      destruct sep as [|a sep]; [done|].
      cbn [String.length drop_str] in Hp. 
      replace (String.length (String a sep) - 1)%nat with (String.length sep) in IH'
        by (simpl; lia).
      rewrite IH'. simpl. exact (eq_sym Hp).
    + pose proof (IH 0%nat) as IH'.
      destruct (split_from sep 0 s) as [p ps].
      unfold join_pieces in *. cbn [fst snd] in *. simpl. by rewrite IH'.
Qed.

Lemma split_two (sep s a h : string) :
  sep ≠ "" → split sep s = [a; h] → s = a ++ sep ++ h.
Proof.
  intros Hsep H. pose proof (split_from_join sep Hsep s 0) as J.
  unfold split in H. destruct (split_from sep 0 s) as [p ps].
  injection H as -> ->. unfold join_pieces in J. simpl in J.
  by rewrite app_empty_r in J.
Qed.

Lemma length_lstrip (s : string) : (String.length (lstrip s) ≤ String.length s)%nat.
Proof. induction s as [|c s IH]; simpl; [lia|]. destruct (isspace c); simpl; lia. Qed.

Lemma length_rstrip (s : string) : (String.length (rstrip s) ≤ String.length s)%nat.
Proof.
  induction s as [|c s IH]; simpl; [lia|].
  destruct (rstrip s); [destruct (isspace c)|]; simpl in *; lia.
Qed.

Lemma lstrip_app_space (a u : string) :
  all_space a = true → lstrip (a ++ u) = lstrip u.
Proof.
  induction a as [|c a IH]; simpl; [done|].
  intros [Hc Ha]%andb_true_iff. rewrite Hc. auto.
Qed.

Lemma rstrip_space (h : string) : all_space h = true → rstrip h = "".
Proof.
  induction h as [|c h IH]; simpl; [done|].
  intros [Hc Ha]%andb_true_iff. by rewrite IH, Hc.
Qed.

Lemma rstrip_app_space (u h : string) :
  all_space h = true → rstrip (u ++ h) = rstrip u.
Proof.
  intros Hh. induction u as [|c u IH]; simpl.
  - by apply rstrip_space.
  - by rewrite IH.
Qed.

Lemma rstrip_empty (s : string) : rstrip s = "" → all_space s = true.
Proof.
  induction s as [|c s IH]; simpl; [done|].
  destruct (rstrip s); [|done].
  destruct (isspace c); [|done]. intros _. by rewrite IH.
Qed.

Lemma lstrip_all_space (s : string) : all_space (lstrip s) = true → all_space s = true.
Proof.
  induction s as [|c s IH]; simpl; [done|].
  destruct (isspace c) eqn:Hc; simpl; [auto|]. by rewrite Hc.
Qed.

Lemma strip_empty (s : string) : strip s = "" → all_space s = true.
Proof. intros H. apply lstrip_all_space, rstrip_empty, H. Qed.

Lemma rstrip_idem (s : string) : rstrip (rstrip s) = rstrip s.
Proof.
  induction s as [|c s IH]; simpl; [done|].
  destruct (rstrip s) as [|b r] eqn:Hr.
  - destruct (isspace c) eqn:Hc; simpl; [done|]. by rewrite Hc.
  - cbn [rstrip]. cbn [rstrip] in IH. rewrite IH. done.
Qed.

Lemma lstrip_fixed (s : string) :
  lstrip s = s ↔ match s with String c _ => isspace c = false | EmptyString => True end.
Proof.
  destruct s as [|c s]; simpl; [done|].
  destruct (isspace c) eqn:Hc; [|done].
  split; [|done]. intros H.
  pose proof (length_lstrip s) as L. rewrite H in L. simpl in L. lia.
Qed.

Lemma lstrip_idem (s : string) : lstrip (lstrip s) = lstrip s.
Proof.
  induction s as [|c s IH]; simpl; [done|].
  destruct (isspace c) eqn:Hc; [done|]. simpl. by rewrite Hc.
Qed.

Lemma lstrip_strip (s : string) : lstrip (strip s) = strip s.
Proof.
  unfold strip. pose proof (lstrip_idem s) as H.
  destruct (lstrip s) as [|c u]; [done|].
  apply lstrip_fixed in H. apply lstrip_fixed.
  cbn [rstrip]. destruct (rstrip u); [rewrite H|]; done.
Qed.

Lemma rstrip_strip (s : string) : rstrip (strip s) = strip s.
Proof. apply rstrip_idem. Qed.

(** A stripped text cut at a separator that begins and ends with white
    space has a visible character on either side. *)
Lemma strip_pieces (x mid a h : string) (c1 c2 : ascii) :
  isspace c1 = true → isspace c2 = true →
  strip x = a ++ (String c1 mid ++ String c2 "") ++ h →
  strip a ≠ "" ∧ strip h ≠ "".
Proof.
  intros H1 H2 E. split; intros Hs%strip_empty.
  - pose proof (lstrip_strip x) as L. rewrite E in L.
    rewrite lstrip_app_space in L by done.
    cbn [String.append lstrip] in L. rewrite H1 in L.
    pose proof (length_lstrip ((mid ++ String c2 "") ++ h)) as B.
    rewrite L in B. rewrite !length_app_str in B. simpl in B.
    rewrite !length_app_str in B. simpl in B. lia.
  - pose proof (rstrip_strip x) as L. rewrite E in L.
    rewrite <- !app_assoc_str in L.
    rewrite rstrip_app_space in L by done.
    change (String c1 mid) with (String c1 "" ++ mid) in L.
    rewrite <- !app_assoc_str in L.
    rewrite (rstrip_app_space _ (String c2 "")) in L by (simpl; by rewrite H2).
    pose proof (length_rstrip ((a ++ String c1 "") ++ mid)) as B.
    rewrite L in B. rewrite !length_app_str in B. simpl in B. lia.
Qed.

End PyStrFacts.

Section ParserFacts.
Import PyStr PyStrFacts.

Lemma split_title_some (x a' h' : string) :
  split_title (strip x) = Some (a', h') →
  ∃ delim a h,
    (delim = " @ " ∨ delim = " vs " ∧ contains " @ " (strip x) = false) ∧
    contains delim (strip x) = true ∧
    split delim (strip x) = [a; h] ∧
    strip x = a ++ delim ++ h ∧
    a' = strip a ∧ h' = strip h ∧ a' ≠ "" ∧ h' ≠ "".
Proof.
  unfold split_title. intros H.
  destruct (contains " @ " (strip x)) eqn:Hat.
  - destruct (split " @ " (strip x)) as [|a [|h [|? ?]]] eqn:Hs; try done.
    injection H as <- <-.
    pose proof (split_two " @ " _ _ _ ltac:(done) Hs) as E.
    destruct (strip_pieces x "@" a h " " " " eq_refl eq_refl) as [Ha Hh].
    { by rewrite E. }
    exists " @ ", a, h. repeat split; auto.
  - destruct (contains " vs " (strip x)) eqn:Hvs; [|done].
    destruct (split " vs " (strip x)) as [|a [|h [|? ?]]] eqn:Hs; try done.
    injection H as <- <-.
    pose proof (split_two " vs " _ _ _ ltac:(done) Hs) as E.
    destruct (strip_pieces x "vs" a h " " " " eq_refl eq_refl) as [Ha Hh].
    { by rewrite E. }
    exists " vs ", a, h. repeat split; auto.
Qed.

Lemma split_title_none (t : string) :
  (contains " @ " t = false ∧ contains " vs " t = false) ∨
  (contains " @ " t = true ∧ length (split " @ " t) ≠ 2%nat) ∨
  (contains " @ " t = false ∧ contains " vs " t = true ∧
   length (split " vs " t) ≠ 2%nat) →
  split_title t = None.
Proof.
  unfold split_title.
  intros [[-> ->]|[[-> H]|(-> & -> & H)]]; [done| |];
    by destruct (split _ t) as [|? [|? [|? ?]]].
Qed.

(** C2.  Let [t] be the title read from a fragment.  A game is produced
    only when [t] splits in exactly two parts at " @ " or, when " @ "
    does not occur in it, at " vs "; the away and home teams are the
    trimmed parts and neither is empty.  A title with neither
    delimiter, or with a number of parts other than two at the
    delimiter that applies, makes [parse_game] return [None]. *)
Theorem parse_game_splits_title (game_soup : Soup.node) (t : string) :
  fragment_title game_soup = Some t →
  (∀ g, parse_game game_soup = Some g →
     title g = t ∧
     ∃ delim a h,
       (delim = " @ " ∨ delim = " vs " ∧ contains " @ " t = false) ∧
       contains delim t = true ∧
       split delim t = [a; h] ∧
       t = a ++ delim ++ h ∧
       away_team g = strip a ∧ home_team g = strip h ∧
       away_team g ≠ "" ∧ home_team g ≠ "") ∧
  ((contains " @ " t = false ∧ contains " vs " t = false) ∨
   (contains " @ " t = true ∧ length (split " @ " t) ≠ 2%nat) ∨
   (contains " @ " t = false ∧ contains " vs " t = true ∧
    length (split " vs " t) ≠ 2%nat) →
   parse_game game_soup = None).
Proof.
  unfold fragment_title, parse_game.
  destruct (Soup.find "div" (Some "tb-se-title") game_soup) as [title_elem|]; [|done].
  destruct (Soup.find "h5" None title_elem) as [h5|]; [|done].
  intros [= <-]. split.
  - intros g Hg.
    destruct (Soup.find "span" None title_elem) as [span|]; [|done].
    destruct (split_title (strip (Soup.text h5))) as [[a' h']|] eqn:Hst; [|done].
    destruct (Soup.find "div" (Some "tb-market-wrap") game_soup); [|done].
    injection Hg as <-. cbn [title away_team home_team]. split; [done|].
    by apply split_title_some.
  - intros Hbad%split_title_none. rewrite Hbad.
    by destruct (Soup.find "span" None title_elem).
Qed.

(** The titles quoted in the specification. *)
Example split_title_examples :
  split_title "Yankees @ Red Sox" = Some ("Yankees", "Red Sox") ∧
  split_title "Team A vs Team B" = Some ("Team A", "Team B") ∧
  split_title "Team A" = None ∧
  split_title "A @ B @ C" = None ∧
  split_title "A @ B vs C" = Some ("A", "B vs C").
Proof. repeat split; reflexivity. Qed.

Lemma parse_game_splits_title_witness :
  ∃ g, parse_game Demo.yankees = Some g ∧
       title g = "Yankees @ Red Sox" ∧
       away_team g = "Yankees" ∧ home_team g = "Red Sox" ∧
       away_team g ≠ "" ∧ home_team g ≠ "".
Proof.
  pose (g := default (mkGame "" "" "" "" [] None) (parse_game Demo.yankees)).
  assert (parse_game Demo.yankees = Some g) as E
    by (apply default_Some; vm_compute; reflexivity).
  assert (fragment_title Demo.yankees = Some "Yankees @ Red Sox") as T
    by (vm_compute; reflexivity).
  destruct (parse_game_splits_title Demo.yankees "Yankees @ Red Sox" T) as [A _].
  destruct (A g E) as (_ & delim & a & h & _ & _ & _ & _ & _ & _ & Ha & Hh).
  exists g. split; [exact E|].
  split; [vm_compute; reflexivity|]. split; [vm_compute; reflexivity|].
  split; [vm_compute; reflexivity|]. split; [exact Ha | exact Hh].
Defined.

End ParserFacts.

Module PyNumFacts.
Import PyStr.
#[local] Arguments String.append : simpl nomatch.

Lemma str_forall_lstrip P s : str_forall P s = true → str_forall P (lstrip s) = true.
Proof.
  induction s as [|c s IH]; simpl; [done|].
  intros [Hc Hs]%andb_true_iff. destruct (isspace c); [auto|].
  simpl. by rewrite Hc, Hs.
Qed.

Lemma str_forall_rstrip P s : str_forall P s = true → str_forall P (rstrip s) = true.
Proof.
  induction s as [|c s IH]; simpl; [done|].
  intros [Hc Hs]%andb_true_iff. specialize (IH Hs).
  destruct (rstrip s); [destruct (isspace c)|]; simpl in *; by rewrite ?Hc, ?IH.
Qed.

Lemma remove_blanks_digits (u : string) :
  all_digits (replace " " "" u) = true → str_forall digit_or_blank u = true.
Proof.
  unfold replace. induction u as [|c u IH]; [done|].
  cbn [replace_from startswith String.length Nat.sub].
  unfold digit_or_blank at 1. cbn [str_forall].
  rewrite (Ascii.eqb_sym c). destruct (Ascii.eqb " " c); simpl.
  - intros H. rewrite orb_true_r. auto.
  - intros [-> H]%andb_true_iff. auto.
Qed.

Lemma isdigit_all_digits (s : string) : isdigit s = true → all_digits s = true.
Proof. by destruct s. Qed.

Lemma digit_value_nonneg (c : ascii) : isdigit_char c = true → 0 ≤ digit_value c.
Proof.
  unfold isdigit_char, digit_value. intros [H _]%andb_true_iff.
  apply Nat.leb_le in H. lia.
Qed.

Lemma digitpart_nonneg (s : string) :
  ∀ acc prev x, 0 ≤ acc → digitpart acc prev s = Some x → 0 ≤ x.
Proof.
  induction s as [|c s IH]; intros acc prev x Hacc; simpl.
  - destruct prev; [|done]. by intros [= <-].
  - destruct (isdigit_char c) eqn:Hc.
    + apply IH. pose proof (digit_value_nonneg c Hc). lia.
    + destruct (Ascii.eqb c "_"); [|done]. destruct prev; [|done]. by apply IH.
Qed.

Lemma float_digits_nonneg (u : string) (x : Z) :
  str_forall digit_or_blank u = true → float u = Some x → 0 ≤ x.
Proof.
  unfold float, int, strip. intros Hu.
  apply str_forall_lstrip, str_forall_rstrip in Hu.
  destruct (rstrip (lstrip u)) as [|c r]; [done|].
  simpl in Hu. apply andb_true_iff in Hu as [Hc _].
  destruct (Ascii.eqb_spec c "+") as [->|_]; [done|].
  destruct (Ascii.eqb_spec c "-") as [->|_]; [done|].
  by apply digitpart_nonneg.
Qed.

End PyNumFacts.

Section BetFacts.
Import PyStr PyNumFacts.

Lemma is_percentage_nonneg (s : string) :
  is_percentage s = true → 0 ≤ parse_percentage (PStr s).
Proof.
  unfold is_percentage, parse_percentage.
  intros [_ H]%andb_true_iff.
  destruct (float (replace "%" "" s)) as [x|] eqn:Hx; [|done].
  eapply float_digits_nonneg; [|exact Hx].
  by apply remove_blanks_digits, isdigit_all_digits.
Qed.

Lemma percentages_valid (bet_soup : Soup.node) :
  Forall (λ s, is_percentage s = true) (percentages bet_soup).
Proof.
  unfold percentages. apply List.Forall_forall. intros s Hs.
  by apply List.filter_In in Hs as [_ Hs].
Qed.

(** C3, as amended.  A bet row yields a bet exactly when it has a
    selection label and an odds element, whatever its percentage text.
    The two percentage strings of the bet parse to values that are not
    negative; they are the first two percentage tokens of the row, or
    both "0%" when the row has fewer than two.  No upper bound holds, as
    the row with "150%" below shows. *)
Theorem parse_bet_percentages (bet_soup : Soup.node) :
  (is_Some (parse_bet bet_soup) ↔
   is_Some (Soup.find "div" (Some "tb-slipline") bet_soup) ∧
   is_Some (Soup.find "a" (Some "tb-odd-s") bet_soup)) ∧
  ∀ d, parse_bet bet_soup = Some d →
    ∃ h b,
      d !! "handle_pct" = Some (PStr h) ∧ d !! "bets_pct" = Some (PStr b) ∧
      0 ≤ parse_percentage (PStr h) ∧ 0 ≤ parse_percentage (PStr b) ∧
      match percentages bet_soup with
      | p0 :: p1 :: _ => h = p0 ∧ b = p1
      | _ => h = "0%" ∧ b = "0%"
      end.
Proof.
  unfold parse_bet. split.
  - destruct (Soup.find "div" _ bet_soup), (Soup.find "a" _ bet_soup);
      [|split; [intros [? ?]|intros [[? ?] [? ?]]]; done..].
    destruct (match percentages bet_soup with p0 :: p1 :: _ => _ | _ => _ end).
    split; eauto.
  - intros d.
    destruct (Soup.find "div" _ bet_soup); [|done].
    destruct (Soup.find "a" _ bet_soup); [|done].
    pose proof (percentages_valid bet_soup) as V.
    destruct (percentages bet_soup) as [|p0 [|p1 ps]]; intros [= <-].
    + exists "0%", "0%". by repeat split.
    + exists "0%", "0%". by repeat split.
    + exists p0, p1. inversion V as [|?? V0 V']; subst. inversion V' as [|?? V1 _]; subst.
      repeat split; auto using is_percentage_nonneg.
Qed.

Lemma parse_bet_percentages_witness :
  ∃ d, parse_bet (Demo.bet_row "Yankees" "+250" "65%" "20%") = Some d ∧
       d !! "handle_pct" = Some (PStr "65%") ∧
       d !! "bets_pct" = Some (PStr "20%") ∧
       ∃ h b,
         d !! "handle_pct" = Some (PStr h) ∧ d !! "bets_pct" = Some (PStr b) ∧
         0 ≤ parse_percentage (PStr h) ∧ 0 ≤ parse_percentage (PStr b).
Proof.
  pose (d := default (∅ : pydict)
               (parse_bet (Demo.bet_row "Yankees" "+250" "65%" "20%"))).
  assert (parse_bet (Demo.bet_row "Yankees" "+250" "65%" "20%") = Some d) as E
    by (apply default_Some; vm_compute; reflexivity).
  destruct (parse_bet_percentages (Demo.bet_row "Yankees" "+250" "65%" "20%"))
    as [_ H].
  destruct (H d E) as (h & b & Hh & Hb & Nh & Nb & _).
  exists d. split; [exact E|].
  split; [vm_compute; reflexivity|]. split; [vm_compute; reflexivity|].
  by exists h, b.
Defined.

(** C3 as stated fails: a row whose first percentage reads "150%" is
    parsed into a bet whose [handle_pct] parses to 150. *)
Lemma parse_bet_above_100 :
  ∃ d v, parse_bet Demo.row_150 = Some d ∧ d !! "handle_pct" = Some v ∧
         ¬ (0 ≤ parse_percentage v ≤ 100).
Proof.
  exists (default (∅ : pydict) (parse_bet Demo.row_150)), (PStr "150%").
  split; [apply default_Some; vm_compute; reflexivity|].
  split; [vm_compute; reflexivity|].
  vm_compute. intros [_ H]. by apply H.
Qed.
End BetFacts.

Section DedupFacts.

Lemma same_game_key {B} (g e : Game B) :
  same_game g e = true ↔ game_key e = game_key g.
Proof.
  unfold same_game, game_key. rewrite !andb_true_iff, !bool_decide_eq_true.
  split; [intros [[-> ->] ->]; done | intros [= -> -> ->]; done].
Qed.

Lemma not_duplicate_fresh {B} (g : Game B) (all : list (Game B)) :
  existsb (same_game g) all = false → game_key g ∉ List.map game_key all.
Proof.
  intros H Hin. apply list_elem_of_In, List.in_map_iff in Hin as (e & He & Hin).
  assert (existsb (same_game g) all = true) as Ht; [|congruence].
  apply List.existsb_exists. exists e. split; [done|]. by apply same_game_key.
Qed.

Lemma duplicate_present {B} (g : Game B) (all : list (Game B)) :
  existsb (same_game g) all = true → game_key g ∈ List.map game_key all.
Proof.
  intros (e & Hin & He)%List.existsb_exists. apply same_game_key in He.
  rewrite <- He. apply list_elem_of_In, List.in_map, Hin.
Qed.

Lemma add_game_nodup date_range st frag :
  NoDup (List.map game_key (snd st)) →
  NoDup (List.map game_key (snd (add_game date_range st frag))).
Proof.
  destruct st as [pg all]. unfold add_game. intros H.
  destruct (parse_game frag) as [g|]; [|done].
  destruct (existsb _ all) eqn:Hd; [done|]. cbn [negb snd].
  rewrite List.map_app. apply NoDup_app. split; [done|]. split.
  - intros k Hk Hin. cbn in Hin. apply list_elem_of_singleton in Hin. subst k.
    by apply not_duplicate_fresh in Hd.
  - apply NoDup_singleton.
Qed.

Lemma add_game_present date_range st frag g :
  parse_game frag = Some g →
  game_key (set_date_range date_range g) ∈
    List.map game_key (snd (add_game date_range st frag)).
Proof.
  destruct st as [pg all]. unfold add_game. intros ->.
  destruct (existsb _ all) eqn:Hd; cbn [negb snd].
  - by apply duplicate_present.
  - rewrite List.map_app. apply elem_of_app. right. apply list_elem_of_In. by left.
Qed.

Lemma add_game_twice date_range st frag :
  add_game date_range (add_game date_range st frag) frag =
  add_game date_range st frag.
Proof.
  destruct (parse_game frag) as [g|] eqn:Hg.
  - pose proof (add_game_present date_range st frag g Hg) as Hin.
    destruct (add_game date_range st frag) as [pg' all'] eqn:E.
    unfold add_game at 1. rewrite Hg. cbn [snd] in Hin.
    destruct (existsb _ all') eqn:Hd; [done|].
    by apply not_duplicate_fresh in Hd.
  - destruct st as [pg all]. unfold add_game. by rewrite Hg.
Qed.

Lemma fold_add_game_nodup date_range frags st :
  NoDup (List.map game_key (snd st)) →
  NoDup (List.map game_key (snd (fold_left (add_game date_range) frags st))).
Proof.
  revert st. induction frags as [|f frags IH]; intros st H; [done|].
  apply IH. by apply add_game_nodup.
Qed.

End DedupFacts.

Section ScraperFacts.

Context {World : Type}.
Variable http_get : Url → World → option Soup.node * World.
Variable now : World → Z * World.

Lemma scrape_page_outcome cfg date_range page all w :
  ∀ next all' log w',
    scrape_page http_get cfg date_range page all w = (next, all', log, w') →
    page_outcome page (mkLog (sport_name cfg) date_range page) next log ∧
    (NoDup (List.map game_key all) → NoDup (List.map game_key all')).
Proof.
  intros next all' log w'. unfold scrape_page.
  destruct (http_get _ w) as [[soup|] w1].
  - destruct (Soup.find_all "div" (Some "tb-se") soup) as [|f fs] eqn:Hf.
    + intros [= <- <- <- <-]. split; [constructor; auto | done].
    + pose proof (fold_add_game_nodup date_range (f :: fs) ([], all)) as N.
      destruct (fold_left _ (f :: fs) _) as [pg all1].
      destruct pg as [|g pg].
      * intros [= <- <- <- <-]. split; [constructor; auto | done].
      * destruct (page + 1 >? 20) eqn:Hp; intros [= <- <- <- <-]; (split; [|done]).
        -- apply outcome_limit. lia.
        -- apply outcome_next. lia.
  - intros [= <- <- <- <-]. split; [constructor; auto | done].
Qed.

Lemma fetched_pages_app l1 l2 : fetched_pages (l1 ++ l2) = (fetched_pages l1 ++ fetched_pages l2)%list.
Proof. unfold fetched_pages. by rewrite List.filter_app, List.map_app. Qed.

Lemma scrape_pages_spec cfg date_range :
  ∀ fuel page all w,
    1 ≤ page ≤ 20 → 21 - page ≤ Z.of_nat fuel →
    ∃ all' log w' k,
      scrape_pages http_get fuel cfg date_range page all w = Some (all', log, w') ∧
      (1 ≤ k)%nat ∧ page + Z.of_nat k - 1 ≤ 20 ∧
      pagination_log page k log ∧
      (NoDup (List.map game_key all) → NoDup (List.map game_key all')).
Proof.
  induction fuel as [|fuel IH]; intros page all w Hp Hf; [lia|].
  cbn [scrape_pages].
  destruct (scrape_page http_get cfg date_range page all w) as [[[next all1] log1] w1] eqn:E.
  apply scrape_page_outcome in E as [O N1].
  inversion O as [e He| n Hn| n Hn]; subst.
  - eexists all1, _, w1, 1%nat.
    split; [done|]. split; [lia|]. split; [lia|]. split; [|done].
    split; [destruct He as [->|[->| ->]]; cbn; f_equal; lia|].
    eexists [_], _.
    split; [done|]. split; [by repeat constructor|].
    cbn. split; [by destruct He as [->|[->| ->]]|]. split; [lia|].
    intros ->. by destruct He as [?|[?|?]].
  - eexists all1, _, w1, 1%nat.
    split; [done|]. split; [lia|]. split; [lia|]. split; [|done].
    split; [cbn; f_equal; lia|].
    eexists [_; _], _.
    split; [done|]. split; [by repeat constructor|].
    cbn. split; [done|]. split; lia.
  - destruct (IH (page + 1) all1 w1) as (all' & log' & w' & k & -> & Hk & Hle & [Hfp Hlog] & N2);
      [lia..|].
    eexists all', _, w', (S k).
    split; [done|]. split; [lia|]. split; [lia|]. split; [|auto].
    destruct Hlog as (body & stop & -> & Hbody & Hstop & Hpage & Hlim).
    split.
    + rewrite fetched_pages_app, Hfp. cbn [fetched_pages List.filter List.map is_scraping log_event log_page app seq].
      f_equal; [lia|]. rewrite <- List.seq_shift, List.map_map.
      apply List.map_ext. intros; lia.
    + eexists (_ :: _ :: body), stop. split; [done|].
      split; [by repeat constructor|]. split; [done|]. split; [lia|]. intros ?; specialize (Hlim ltac:(done)); lia.
Qed.

Lemma scrape_ranges_spec fuel cfg :
  (20 ≤ fuel)%nat →
  ∀ ranges all w,
    ∃ all' log w',
      scrape_ranges http_get fuel cfg ranges all w = Some (all', log, w') ∧
      (NoDup (List.map game_key all) → NoDup (List.map game_key all')).
Proof.
  intros Hf. induction ranges as [|r ranges IH]; intros all w; cbn [scrape_ranges].
  - by eexists _, _, _.
  - destruct (scrape_pages_spec cfg r fuel 1 all w) as (all1 & log1 & w1 & k & -> & _ & _ & _ & N1);
      [lia..|].
    destruct (IH all1 w1) as (all2 & log2 & w2 & -> & N2).
    eexists _, _, _. split; [done|]. auto.
Qed.

Lemma scrape_sports_spec fuel :
  (20 ≤ fuel)%nat →
  ∀ cfgs all w,
    ∃ all' log w',
      scrape_sports http_get fuel cfgs all w = Some (all', log, w') ∧
      (NoDup (List.map game_key all) → NoDup (List.map game_key all')).
Proof.
  intros Hf. induction cfgs as [|cfg cfgs IH]; intros all w; cbn [scrape_sports].
  - by eexists _, _, _.
  - destruct (String.eqb (sport_name cfg) "all_sports"); [apply IH|].
    destruct (scrape_ranges_spec fuel cfg Hf (date_ranges cfg) all w) as (all1 & log1 & w1 & -> & N1).
    destruct (IH all1 w1) as (all2 & log2 & w2 & -> & N2).
    eexists _, _, _. split; [done|]. auto.
Qed.

Lemma scrape_betting_splits_terminates fuel w :
  (20 ≤ fuel)%nat → is_Some (scrape_betting_splits http_get fuel w).
Proof.
  intros Hf. destruct (scrape_sports_spec fuel Hf sport_configs [] w) as (a & l & w' & H & _).
  unfold scrape_betting_splits. rewrite H. eauto.
Qed.

End ScraperFacts.

Section ScraperTheorems.

Context {World : Type}.
Variable http_get : Url → World → option Soup.node * World.
Variable now : World → Z * World.


(** C5.  The games returned by a scrape have pairwise different
    identity keys (title, time, date range).  Processing a fragment a
    second time changes nothing, and after a fragment that parses has
    been processed its key is among the accumulated games: identical
    fragments give exactly one game. *)
Theorem scraped_games_unique :
  (∀ fuel w games log w',
     scrape_betting_splits http_get fuel w = Some (games, log, w') →
     NoDup (List.map game_key games)) ∧
  (∀ date_range st frag,
     add_game date_range (add_game date_range st frag) frag =
     add_game date_range st frag) ∧
  (∀ date_range st frag g,
     parse_game frag = Some g →
     game_key (set_date_range date_range g) ∈
       List.map game_key (snd (add_game date_range st frag))).
Proof.
  split; [|split; [apply add_game_twice | apply add_game_present]].
  intros fuel w games log w'. unfold scrape_betting_splits.
  assert (∀ cfgs all w r,
    scrape_sports http_get fuel cfgs all w = Some r →
    NoDup (List.map game_key all) → NoDup (List.map game_key r.1.1)) as HS.
  { assert (∀ cfg d fuel' page all w r,
      scrape_pages http_get fuel' cfg d page all w = Some r →
      NoDup (List.map game_key all) → NoDup (List.map game_key r.1.1)) as HP.
    { intros cfg d. induction fuel' as [|f IH]; intros page all w0 r; [done|].
      cbn [scrape_pages].
      destruct (scrape_page _ _ _ _ _ _) as [[[next all1] log1] w1] eqn:E.
      apply scrape_page_outcome in E as [_ N1].
      destruct next as [p'|].
      - destruct (scrape_pages _ f _ _ _ _ _) as [[[a l] w2]|] eqn:E2; [|done].
        intros [= <-] N. apply (IH _ _ _ _ E2). auto.
      - intros [= <-] N. auto. }
    assert (∀ cfg ranges all w r,
      scrape_ranges http_get fuel cfg ranges all w = Some r →
      NoDup (List.map game_key all) → NoDup (List.map game_key r.1.1)) as HR.
    { intros cfg. induction ranges as [|d ranges IH]; intros all w0 r; cbn [scrape_ranges].
      - by intros [= <-].
      - destruct (scrape_pages _ _ _ _ _ _ _) as [[[a l] w1]|] eqn:E1; [|done].
        destruct (scrape_ranges _ _ _ _ _ _) as [[[a2 l2] w2]|] eqn:E2; [|done].
        intros [= <-] N. apply (IH _ _ _ E2), (HP _ _ _ _ _ _ _ E1 N). }
    induction cfgs as [|cfg cfgs IH]; intros all w0 r; cbn [scrape_sports].
    - by intros [= <-].
    - destruct (String.eqb _ _); [apply IH|].
      destruct (scrape_ranges _ _ _ _ _ _) as [[[a l] w1]|] eqn:E1; [|done].
      destruct (scrape_sports _ _ _ _ _) as [[[a2 l2] w2]|] eqn:E2; [|done].
      intros [= <-] N. apply (IH _ _ _ E2), (HR _ _ _ _ _ E1 N). }
  intros E. apply (HS _ _ _ _ E). constructor.
Qed.

(** C6.  With a time stamp in place, the cache is expired exactly when
    its age is strictly above thirty minutes; at thirty minutes sharp it
    is fresh and one second later it is expired. *)
Theorem cache_expires_after_30_minutes (games : list (Game pydict)) (stamp : Z) (w : World) :
  let age := fst (now w) - stamp in
  let expired := fst (is_cache_expired now (mkCache games (Some stamp)) w) in
  (expired = true ↔ age > 30 * 60 * 1000000) ∧
  (age = 30 * 60 * 1000000 → expired = false) ∧
  (age = (30 * 60 + 1) * 1000000 → expired = true).
Proof.
  unfold is_cache_expired. cbn [cache_timestamp].
  destruct (now w) as [n w']. cbn [fst].
  unfold timedelta_minutes, CACHE_DURATION_MINUTES.
  repeat split; intros; lia.
Qed.

(** C10.  When the cached list is empty, whatever the time stamp,
    [get_cached_or_fresh_data] runs the scrape and installs its result
    with a new time stamp; with fuel for twenty pages this always gives
    a result.  Data is served from the cache only when the cached list
    is not empty and the cache is not expired, and in that case it
    always is. *)
Theorem empty_cache_is_never_served (fuel : nat) (c : cache) (w : World) :
  (cached_games_data c = [] →
     get_cached_or_fresh_data http_get now fuel c w =
       match scrape_betting_splits http_get fuel w with
       | Some (fresh_data, _, w2) =>
           Some (fresh_data, false,
                 mkCache fresh_data (Some (fst (now w2))), snd (now w2))
       | None => None
       end) ∧
  (cached_games_data c = [] → (20 ≤ fuel)%nat →
     ∃ fresh_data stamp w',
       get_cached_or_fresh_data http_get now fuel c w =
         Some (fresh_data, false, mkCache fresh_data (Some stamp), w')) ∧
  (∀ games c' w',
     get_cached_or_fresh_data http_get now fuel c w = Some (games, true, c', w') →
     cached_games_data c ≠ [] ∧ fst (is_cache_expired now c w) = false ∧
     games = cached_games_data c ∧ c' = c) ∧
  (cached_games_data c ≠ [] → fst (is_cache_expired now c w) = false →
     ∃ w', get_cached_or_fresh_data http_get now fuel c w =
             Some (cached_games_data c, true, c, w')).
Proof.
  unfold get_cached_or_fresh_data.
  split; [|split; [|split]].
  - intros ->.
    destruct (scrape_betting_splits http_get fuel w) as [[[fresh l] w2]|]; [|done].
    by destruct (now w2).
  - intros -> Hf.
    destruct (scrape_betting_splits_terminates http_get fuel w Hf) as [[[fresh l] w2] ->].
    destruct (now w2) as [stamp w3]. by exists fresh, stamp, w3.
  - intros games c' w'.
    destruct (cached_games_data c) as [|g gs] eqn:Hc.
    + destruct (scrape_betting_splits http_get fuel w) as [[[fresh l] w2]|]; [|done].
      by destruct (now w2).
    + destruct (is_cache_expired now c w) as [expired w1].
      destruct expired; cbn [negb fst].
      * destruct (scrape_betting_splits http_get fuel w1) as [[[fresh l] w2]|]; [|done].
        by destruct (now w2).
      * destruct (now w1). by intros [= <- <- <-].
  - intros Hne Hexp.
    destruct (cached_games_data c) as [|g gs]; [done|].
    destruct (is_cache_expired now c w) as [expired w1]. cbn in Hexp. subst expired.
    cbn [negb]. destruct (now w1) as [? w2]. by exists w2.
Qed.

End ScraperTheorems.


(** The run quoted in the specification, with one game instead of five:
    page 1 brings a new game, page 2 has no fragment, and the loop stops
    after page 2. *)
Example pagination_two_pages :
  option_map (λ r, (List.map title r.1.1, r.1.2))
    (scrape_pages Demo.http_get 20 Demo.mlb "today" 1 [] 0) =
  Some (["Yankees @ Red Sox"],
        [ mkLog "mlb" "today" 1 Scraping; mkLog "mlb" "today" 1 (FoundNew 1);
          mkLog "mlb" "today" 2 Scraping; mkLog "mlb" "today" 2 NoGamesFound ]).
Proof. vm_compute. reflexivity. Qed.

Lemma scraped_games_unique_witness :
  List.map title Demo.snapshot = ["Yankees @ Red Sox"; "Lakers vs Celtics"] ∧
  NoDup (List.map game_key Demo.snapshot) ∧
  add_game "today" (add_game "today" ([], []) Demo.yankees) Demo.yankees =
  add_game "today" ([], []) Demo.yankees.
Proof.
  destruct (scraped_games_unique Demo.http_get) as (N & T & _).
  split; [vm_compute; reflexivity|]. split; [|apply T].
  unfold Demo.snapshot.
  destruct Demo.scrape_result as [[[games log] w']|] eqn:E; [|constructor].
  exact (N 20%nat 0 games log w' E).
Defined.

Lemma cache_expires_after_30_minutes_witness :
  fst (is_cache_expired Demo.now (mkCache [] (Some 0)) 1800000000) = false ∧
  fst (is_cache_expired Demo.now (mkCache [] (Some 0)) 1801000000) = true.
Proof.
  split.
  - destruct (cache_expires_after_30_minutes Demo.now [] 0 1800000000) as (_ & H & _).
    by apply H.
  - destruct (cache_expires_after_30_minutes Demo.now [] 0 1801000000) as (_ & _ & H).
    by apply H.
Defined.

Lemma empty_cache_is_never_served_witness :
  ∃ fresh_data stamp w',
    get_cached_or_fresh_data Demo.http_get Demo.now 20 (mkCache [] (Some 0)) 1 =
      Some (fresh_data, false, mkCache fresh_data (Some stamp), w').
Proof.
  destruct (empty_cache_is_never_served Demo.http_get Demo.now 20
              (mkCache [] (Some 0)) 1) as (_ & H & _).
  apply H; [reflexivity | lia].
Defined.

(** C7, as amended.  The list of [filter_mlb_games] has three tokens
    that the generic MLB roster lacks, "Indians", "SEA" and "NY"; the
    generic roster is included in it, so every game kept by
    [filter_games_by_sport] for "mlb" is kept by [filter_mlb_games]. *)
Theorem mlb_filter_is_broader :
  mlb_extra_tokens = ["Indians"; "SEA"; "NY"] ∧
  (∀ roster, dict_get "mlb" team_lists = Some roster → roster ⊆ mlb_teams) ∧
  ∀ B (games : list (Game B)) (g : Game B),
    g ∈ filter_games_by_sport games "mlb" → g ∈ filter_mlb_games games.
Proof.
  split; [reflexivity|].
  assert (∀ roster, dict_get "mlb" team_lists = Some roster → roster ⊆ mlb_teams) as Hsub.
  { intros roster [= <-]. intros t Ht. apply list_elem_of_In in Ht. apply list_elem_of_In.
    revert t Ht. apply List.Forall_forall.
    repeat (constructor; [by (repeat (first [left; reflexivity | right]))|]). constructor. }
  split; [done|].
  intros B games g. unfold filter_games_by_sport, filter_mlb_games.
  destruct (dict_get "mlb" team_lists) as [roster|] eqn:E; [|by intros ?%elem_of_nil].
  specialize (Hsub roster eq_refl).
  intros [Hin Ht]%list_elem_of_In%List.filter_In.
  apply list_elem_of_In, List.filter_In. split; [done|].
  unfold title_has_team in *. apply List.existsb_exists in Ht as (t & Hroster & Ht).
  apply List.existsb_exists. exists t. split; [|done].
  apply list_elem_of_In, Hsub, list_elem_of_In, Hroster.
Qed.

Lemma mlb_filter_is_broader_witness :
  filter_games_by_sport Demo.games "mlb" ≠ [] ∧
  Forall (λ g, g ∈ filter_mlb_games Demo.games)
    (filter_games_by_sport Demo.games "mlb").
Proof.
  split; [vm_compute; discriminate|].
  destruct mlb_filter_is_broader as (_ & _ & H).
  apply Forall_forall. intros g Hg. by apply H.
Defined.

(** C7 as stated fails: the extra tokens are not two. *)
Lemma mlb_extra_tokens_not_two : length mlb_extra_tokens ≠ 2%nat.
Proof. by vm_compute. Qed.

Section StoreFacts.

Lemma derived_update_refl d : derived_update d d.
Proof. repeat split; auto. Qed.

Lemma derived_update_keys d d' :
  derived_update d d' →
  handle_minus_bets d' = handle_minus_bets d ∧
  bets_minus_handle d' = bets_minus_handle d.
Proof.
  intros (K & _ & _). unfold handle_minus_bets, bets_minus_handle.
  by rewrite !(K "handle_pct"), !(K "bets_pct").
Qed.

Lemma derived_update_trans d1 d2 d3 :
  derived_update d1 d2 → derived_update d2 d3 → derived_update d1 d3.
Proof.
  intros U1 U2. destruct (derived_update_keys _ _ U1) as [E1 E2].
  destruct U1 as (K1 & H1 & S1), U2 as (K2 & H2 & S2).
  rewrite E1 in H2. rewrite E2 in S2.
  split; [|split].
  - intros k ? ?. by rewrite K2, K1.
  - destruct H2 as [->| ->]; auto.
  - destruct S2 as [->| ->]; auto.
Qed.

Lemma evolves_refl n σ : evolves n σ σ.
Proof. repeat split; eauto using derived_update_refl. Qed.

Lemma evolves_trans n σ1 σ2 σ3 :
  evolves n σ1 σ2 → evolves n σ2 σ3 → evolves n σ1 σ3.
Proof.
  intros (L1 & F1 & U1) (L2 & F2 & U2). split; [lia|]. split.
  - intros l Hl. by rewrite F2, F1.
  - intros l d Hd. destruct (U1 l d Hd) as (d2 & Hd2 & Hu1).
    destruct (U2 l d2 Hd2) as (d3 & Hd3 & Hu2).
    eauto using derived_update_trans.
Qed.

Lemma evolves_weaken n m σ σ' : (m ≤ n)%nat → evolves n σ σ' → evolves m σ σ'.
Proof. intros Hm (L & F & U). repeat split; auto. intros; apply F; lia. Qed.

Lemma evolves_new_dict n σ d : (n ≤ length σ)%nat → evolves n σ (σ ++ [d]).
Proof.
  intros Hn. split; [rewrite length_app; lia|]. split.
  - intros l Hl. apply lookup_app_l. lia.
  - intros l d0 Hd. exists d0. split; [|apply derived_update_refl].
    rewrite lookup_app_l; [done|]. by eapply lookup_lt_Some.
Qed.

Lemma evolves_setitem n σ l d k v :
  σ !! l = Some d → (n ≤ l)%nat →
  k = "handle_vs_bets_diff" ∧ v = PFloat (handle_minus_bets d) ∨
  k = "square_score" ∧ v = PFloat (bets_minus_handle d) →
  evolves n σ (<[l := <[k := v]> d]> σ).
Proof.
  intros Hd Hn Hk. split; [by rewrite length_insert|]. split.
  - intros l' Hl'. apply list_lookup_insert_ne. lia.
  - intros l' d0 Hd0. destruct (decide (l = l')) as [<-|Hne].
    + rewrite list_lookup_insert_eq by (by eapply lookup_lt_Some).
      eexists; split; [done|]. assert (d0 = d) as -> by congruence.
      split; [|split].
      * intros k' ? ?. apply lookup_insert_ne. by destruct Hk as [[-> _]|[-> _]].
      * destruct Hk as [[-> ->]|[-> _]];
          [right; apply lookup_insert_eq | left; by apply lookup_insert_ne].
      * destruct Hk as [[-> _]|[-> ->]];
          [left; by apply lookup_insert_ne | right; apply lookup_insert_eq].
    + rewrite list_lookup_insert_ne by done. eauto using derived_update_refl.
Qed.

Lemma evolves_lookup n σ σ' l d :
  evolves n σ σ' → σ !! l = Some d → ∃ d', σ' !! l = Some d' ∧ derived_update d d'.
Proof. intros (_ & _ & U). apply U. Qed.

End StoreFacts.

(** Inversion of the monadic operations. *)
Section MonadFacts.

Lemma bind_Some {A B} (m : M A) (k : A → M B) σ r :
  bind m k σ = Some r ↔ ∃ x σ1, m σ = Some (x, σ1) ∧ k x σ1 = Some r.
Proof.
  unfold bind. destruct (m σ) as [[x σ1]|]; split.
  - eauto.
  - by intros (? & ? & [= <- <-] & ?).
  - done.
  - by intros (? & ? & ? & ?).
Qed.

Lemma ret_Some {A} (x y : A) σ σ' : ret x σ = Some (y, σ') ↔ y = x ∧ σ' = σ.
Proof. unfold ret. split; [by intros [= <- <-] | by intros [-> ->]]. Qed.

Lemma getitem_Some l k σ v σ' :
  getitem l k σ = Some (v, σ') ↔ σ' = σ ∧ ∃ d, σ !! l = Some d ∧ d !! k = Some v.
Proof.
  unfold getitem. destruct (σ !! l) as [d|]; [destruct (d !! k) eqn:E|]; split;
    try done; try (by intros [_ (? & [= <-] & ?)]); try (by intros [_ (? & ? & ?)]).
  - intros [= <- <-]. eauto.
  - intros [-> (d' & [= <-] & E')]. congruence.
  - intros [_ (d' & [= <-] & E')]. congruence.
Qed.

Lemma setitem_Some l k v σ u σ' :
  setitem l k v σ = Some (u, σ') ↔ ∃ d, σ !! l = Some d ∧ σ' = <[l := <[k := v]> d]> σ.
Proof.
  unfold setitem. destruct (σ !! l) as [d|]; split; try done.
  - intros [= <-]. eauto.
  - intros (d' & [= <-] & ->). by destruct u.
  - by intros (? & ? & ?).
Qed.

Lemma deref_Some l σ d σ' : deref l σ = Some (d, σ') ↔ σ' = σ ∧ σ !! l = Some d.
Proof.
  unfold deref. destruct (σ !! l); split; try done.
  - by intros [= <- <-].
  - by intros [-> [= <-]].
  - by intros [_ ?].
Qed.

Lemma new_dict_Some d σ l σ' :
  new_dict d σ = Some (l, σ') ↔ l = length σ ∧ σ' = (σ ++ [d])%list.
Proof. unfold new_dict. split; [by intros [= <- <-] | by intros [-> ->]]. Qed.

(** A loop whose turns each respect a preorder [R] on stores respects it
    as a whole, and what a turn establishes about its element, if stable
    under [R], holds at the end. *)
Lemma mapM_spec {A B} (f : A → M B) (R : relation store) `{!PreOrder R}
    (P : A → B → store → Prop) (σ0 : store) (l : list A) :
  (∀ x y σ σ', P x y σ → R σ σ' → P x y σ') →
  (∀ x σ y σ', x ∈ l → R σ0 σ → f x σ = Some (y, σ') → R σ σ' ∧ P x y σ') →
  ∀ σ ys σ', R σ0 σ → mapM f l σ = Some (ys, σ') →
    R σ σ' ∧ Forall2 (λ x y, P x y σ') l ys.
Proof.
  intros Hst. induction l as [|x l IH]; intros Hf σ ys σ' H0; cbn [mapM].
  - intros [-> ->]%ret_Some. split; [reflexivity | constructor].
  - intros (y & σ1 & Hy & (ys' & σ2 & Hys & [-> ->]%ret_Some)%bind_Some)%bind_Some.
    destruct (Hf x σ y σ1 ltac:(left) H0 Hy) as [R1 P1].
    destruct (IH ltac:(intros; eapply Hf; eauto; by right) σ1 ys' σ2) as [R2 P2];
      [by etrans | done |].
    split; [by etrans|]. constructor; eauto.
Qed.

Lemma filterM_spec {A} (f : A → M bool) (R : relation store) `{!PreOrder R}
    (P : A → store → Prop) (σ0 : store) (l : list A) :
  (∀ x σ σ', P x σ → R σ σ' → P x σ') →
  (∀ x σ b σ', x ∈ l → R σ0 σ → f x σ = Some (b, σ') →
     R σ σ' ∧ (b = true → P x σ')) →
  ∀ σ xs σ', R σ0 σ → filterM f l σ = Some (xs, σ') →
    R σ σ' ∧ Forall (λ x, P x σ') xs ∧ xs ⊆ l.
Proof.
  intros Hst. induction l as [|x l IH]; intros Hf σ xs σ' H0; cbn [filterM].
  - intros [-> ->]%ret_Some. split; [reflexivity|]. split; [constructor | done].
  - intros (b & σ1 & Hb & (xs' & σ2 & Hxs & [-> ->]%ret_Some)%bind_Some)%bind_Some.
    destruct (Hf x σ b σ1 ltac:(left) H0 Hb) as [R1 P1].
    destruct (IH ltac:(intros; eapply Hf; eauto; by right) σ1 xs' σ2) as (R2 & P2 & S2);
      [by etrans | done |].
    split; [by etrans|]. destruct b.
    + split; [constructor; eauto|].
      intros z [->|Hz]%elem_of_cons; [left | right; by apply S2].
    + split; [done|]. intros z Hz. right. by apply S2.
Qed.

(** A loop of reads leaves the store alone and computes a map. *)
Lemma mapM_reads {A B} (f : A → M B) (g : A → B) (σ : store) (l : list A) :
  (∀ x y σ', x ∈ l → f x σ = Some (y, σ') → σ' = σ ∧ y = g x) →
  ∀ ys σ', mapM f l σ = Some (ys, σ') → σ' = σ ∧ ys = List.map g l.
Proof.
  induction l as [|x l IH]; intros Hf ys σ'; cbn [mapM].
  - by intros [-> ->]%ret_Some.
  - intros (y & σ1 & Hy & (ys' & σ2 & Hys & [-> ->]%ret_Some)%bind_Some)%bind_Some.
    destruct (Hf x y σ1 ltac:(left) Hy) as [-> ->].
    destruct (IH ltac:(intros; eapply Hf; eauto; by right) ys' σ2 Hys) as [-> ->].
    done.
Qed.

End MonadFacts.

#[global] Instance evolves_preorder n : PreOrder (evolves n).
Proof. split; [intros ?; apply evolves_refl | intros ???; apply evolves_trans]. Qed.

Section SortFacts.

Context {A : Type}.
Implicit Types (x : Z * A) (l : list (Z * A)).

Lemma insert_desc_perm x l : Permutation (insert_desc x l) (x :: l).
Proof.
  induction l as [|y l IH]; cbn [insert_desc]; [done|].
  destruct (fst x <? fst y); [|done].
  rewrite IH. apply perm_swap.
Qed.

Lemma sorted_desc_perm l : Permutation (sorted_desc l) l.
Proof.
  induction l as [|x l IH]; cbn [sorted_desc fold_right]; [done|].
  fold (sorted_desc l). by rewrite insert_desc_perm, IH.
Qed.

Lemma insert_desc_sorted x l :
  StronglySorted (λ a b, fst b ≤ fst a) l →
  StronglySorted (λ a b, fst b ≤ fst a) (insert_desc x l).
Proof.
  induction 1 as [|y l Hs IH Hy]; cbn [insert_desc].
  - repeat constructor.
  - destruct (fst x <? fst y) eqn:E.
    + apply Z.ltb_lt in E. constructor; [done|].
      rewrite insert_desc_perm. constructor; [lia | done].
    + apply Z.ltb_ge in E. constructor; [by constructor|].
      constructor; [done|]. eapply Forall_impl; [exact Hy|]. cbn. intros; lia.
Qed.

Lemma sorted_desc_sorted l : StronglySorted (λ a b, fst b ≤ fst a) (sorted_desc l).
Proof.
  induction l as [|x l IH]; cbn [sorted_desc fold_right]; [constructor|].
  by apply insert_desc_sorted.
Qed.

Lemma sorted_keys_project (kf : A → Z) l :
  Forall (λ p, fst p = kf (snd p)) l →
  StronglySorted (λ a b, fst b ≤ fst a) l →
  StronglySorted (λ a b, kf b ≤ kf a) (List.map snd l).
Proof.
  intros Hk. induction 1 as [|p l Hs IH Hp]; cbn [List.map]; [constructor|].
  inversion Hk as [|?? Kp Kl]; subst. constructor; [auto|].
  apply Forall_map. rewrite Forall_forall in Hp, Kl |- *.
  intros q Hq. cbn. rewrite <- Kp, <- (Kl q Hq). by apply Hp.
Qed.

Lemma combine_keys (kf : A → Z) (xs : list A) :
  combine (List.map kf xs) xs = List.map (λ a, (kf a, a)) xs.
Proof. induction xs; cbn; congruence. Qed.

Lemma StronglySorted_take (R : A → A → Prop) (xs : list A) n :
  StronglySorted R xs → StronglySorted R (take n xs).
Proof.
  intros H. revert n. induction H as [|x xs Hs IH Hx]; intros [|n]; cbn; try constructor.
  - apply IH.
  - by apply Forall_take.
Qed.

End SortFacts.

Section AnalyticsFacts.

Lemma sort_by_key_spec (key : loc → M Z) (kf : loc → Z) (σ : store) (l : list loc) :
  (∀ x v σ1, x ∈ l → key x σ = Some (v, σ1) → σ1 = σ ∧ v = kf x) →
  ∀ res σ', sort_by_key key l σ = Some (res, σ') →
    σ' = σ ∧ Permutation res l ∧ StronglySorted (λ a b, kf b ≤ kf a) res.
Proof.
  intros Hk res σ'. unfold sort_by_key.
  intros (keys & σ1 & Hm & [-> ->]%ret_Some)%bind_Some.
  destruct (mapM_reads key kf σ l Hk keys σ1 Hm) as [-> ->].
  rewrite combine_keys. split; [done|]. split.
  - rewrite sorted_desc_perm, List.map_map. cbn. by rewrite List.map_id.
  - apply sorted_keys_project; [|apply sorted_desc_sorted].
    rewrite sorted_desc_perm. apply Forall_forall. by intros p (x & -> & _)%list_elem_of_fmap.
Qed.

Lemma slice_to_7 {A} (l : list A) : slice_to 7 l = take 7 l.
Proof. reflexivity. Qed.

Lemma copy_of_stable games n σ σ' l :
  copy_of games σ l → evolves n σ σ' → copy_of games σ' l.
Proof.
  intros (g & d & Hg & Hd & Ht) E.
  destruct (evolves_lookup _ _ _ _ _ E Hd) as (d' & Hd' & (K & _)).
  exists g, d'. split; [done|]. split; [done|]. by rewrite K.
Qed.

Lemma Forall2_concat {X Y} (Q : X → Y → Prop) (xs : list X) (yss : list (list Y)) :
  Forall2 (λ x ys, Forall (Q x) ys) xs yss →
  Forall (λ y, ∃ x, x ∈ xs ∧ Q x y) (concat yss).
Proof.
  induction 1 as [|x ys xs yss Hx _ IH]; cbn; [constructor|].
  apply Forall_app. split.
  - eapply Forall_impl; [exact Hx|]. intros y Hy. exists x. split; [left|done].
  - eapply Forall_impl; [exact IH|]. intros y (x' & ? & ?). exists x'. split; [by right|done].
Qed.

Lemma extract_all_bets_spec (games : list (Game loc)) (σ : store) ls σ' :
  extract_all_bets games σ = Some (ls, σ') →
  evolves (length σ) σ σ' ∧
  Forall (λ l, (length σ ≤ l)%nat) ls ∧
  Forall (copy_of games σ') ls.
Proof.
  unfold extract_all_bets.
  intros (per_game & σ1 & Hm & [-> ->]%ret_Some)%bind_Some.
  set (n := length σ).
  set (Q := λ (g : Game loc) (σ : store) (y : loc),
         (n ≤ y)%nat ∧ ∃ d, σ !! y = Some d ∧ d !! "game_title" = Some (PStr (title g))).
  assert (∀ g y σa σb, Q g σa y → evolves n σa σb → Q g σb y) as Qst.
  { intros g y σa σb [Hn (d & Hd & Ht)] E. split; [done|].
    destruct (evolves_lookup _ _ _ _ _ E Hd) as (d' & Hd' & (K & _)).
    exists d'. split; [done|]. by rewrite K. }
  eapply (mapM_spec _ (evolves n) (λ g ys σ, Forall (Q g σ) ys) σ) in Hm as [E F];
    [| |clear Hm|reflexivity].
  - split; [done|]. apply Forall2_concat in F.
    split; (eapply Forall_impl; [exact F|]); cbn.
    + by intros y (g & _ & [? _]).
    + intros y (g & Hg & [_ (d & ? & ?)]). by exists g, d.
  - intros g ys σa σb F E. eapply Forall_impl; [exact F|]. intros y Hy. by eapply Qst.
  - intros g σa ys σb _ Ea (per_market & σc & Hm & [-> ->]%ret_Some)%bind_Some.
    eapply (mapM_spec _ (evolves n) (λ _ ys σ, Forall (Q g σ) ys) σa) in Hm as [E F];
      [| |clear Hm|reflexivity].
    + split; [done|]. apply Forall2_concat in F.
      eapply Forall_impl; [exact F|]. by intros y (_ & _ & ?).
    + intros m ys σ1' σ2' F E. eapply Forall_impl; [exact F|]. intros y Hy. by eapply Qst.
    + intros [mt bets] σd ys σe _ Ed Hm.
      eapply (mapM_spec _ (evolves n) (λ _ y σ, Q g σ y) σd) in Hm as [E F];
        [| |clear Hm|reflexivity].
      * split; [done|]. clear -F. induction F; constructor; auto.
      * intros; by eapply Qst.
      * intros bet σf y σg _ Ef (d & σh & [-> Hd]%deref_Some & [-> ->]%new_dict_Some)%bind_Some.
        assert (n ≤ length σf)%nat as Hn.
        { destruct Ea as [La _], Ed as [Ld _], Ef as [Lf _]. unfold n. lia. }
        split; [by apply evolves_new_dict|]. split; [done|].
        eexists. split; [apply list_lookup_middle; done|].
        rewrite !lookup_insert_ne by done. apply lookup_insert_eq.
Qed.

End AnalyticsFacts.

Section RankFacts.

Lemma slice_to_take {A} (limit : Z) (l : list A) : ∃ k, slice_to limit l = take k l.
Proof. unfold slice_to. destruct (0 <=? limit); eauto. Qed.

Lemma non_total_stable n σ σ' l : non_total σ l → evolves n σ σ' → non_total σ' l.
Proof.
  intros (d & ty & Hd & Ht & Hne) E.
  destruct (evolves_lookup _ _ _ _ _ E Hd) as (d' & Hd' & (K & _)).
  exists d', ty. by rewrite K.
Qed.

Lemma longshot_stable n σ σ' l : longshot σ l → evolves n σ σ' → longshot σ' l.
Proof.
  intros (d & o & h & b & Hd & Ho & Hh & Hb & ?) E.
  destruct (evolves_lookup _ _ _ _ _ E Hd) as (d' & Hd' & (K & _)).
  exists d', o, h, b. by rewrite !K.
Qed.

Lemma has_diff_stable n σ σ' l :
  has_score "handle_vs_bets_diff" handle_minus_bets σ l → evolves n σ σ' →
  has_score "handle_vs_bets_diff" handle_minus_bets σ' l.
Proof.
  intros (d & Hd & Hk) E.
  destruct (evolves_lookup _ _ _ _ _ E Hd) as (d' & Hd' & U).
  destruct (derived_update_keys _ _ U) as [E1 _].
  destruct U as (_ & [H| H] & _); exists d'; (split; [done|]); rewrite E1; congruence.
Qed.

Lemma has_square_stable n σ σ' l :
  has_score "square_score" bets_minus_handle σ l → evolves n σ σ' →
  has_score "square_score" bets_minus_handle σ' l.
Proof.
  intros (d & Hd & Hk) E.
  destruct (evolves_lookup _ _ _ _ _ E Hd) as (d' & Hd' & U).
  destruct (derived_update_keys _ _ U) as [_ E2].
  destruct U as (_ & _ & [H| H]); exists d'; (split; [done|]); rewrite E2; congruence.
Qed.

Lemma float_key_reads k f σ x v σ1 :
  has_score k f σ x → float_key x k σ = Some (v, σ1) → σ1 = σ ∧ v = key_at f σ x.
Proof.
  intros (d & Hd & Hk). unfold float_key.
  intros (v0 & σ2 & [-> (d' & Hd' & Hk')]%getitem_Some & Hv)%bind_Some.
  assert (d' = d) as -> by congruence. rewrite Hk in Hk'. injection Hk' as <-.
  apply ret_Some in Hv as [-> ->]. unfold key_at. by rewrite Hd.
Qed.

Lemma handle_key_reads σ x v σ1 :
  handle_key x σ = Some (v, σ1) → σ1 = σ ∧ v = key_at handle_of σ x.
Proof.
  unfold handle_key.
  intros (h & σ2 & [-> (d & Hd & Hh)]%getitem_Some & [-> ->]%ret_Some)%bind_Some.
  unfold key_at, handle_of. by rewrite Hd, Hh.
Qed.

(** Ranking: the sort followed by the slice. *)
Lemma rank_spec (key : loc → M Z) (f : pydict → Z) (limit : Z) σ l res σ' :
  (∀ x v σ1, x ∈ l → key x σ = Some (v, σ1) → σ1 = σ ∧ v = key_at f σ x) →
  (do s <- sort_by_key key l; ret (slice_to limit s)) σ = Some (res, σ') →
  σ' = σ ∧ res ⊆ l ∧ descending f σ res ∧ (limit = 7 → (length res ≤ 7)%nat).
Proof.
  intros Hk (s & σ1 & Hs & [-> ->]%ret_Some)%bind_Some.
  destruct (sort_by_key_spec key (key_at f σ) σ l Hk s σ1 Hs) as (-> & Hp & Hss).
  split; [done|]. split; [|split].
  - destruct (slice_to_take limit s) as [k ->].
    intros x Hx. rewrite <- Hp. by eapply subseteq_take.
  - destruct (slice_to_take limit s) as [k ->]. by apply StronglySorted_take.
  - intros ->. rewrite slice_to_7, length_take. lia.
Qed.

Lemma not_total_spec n σ0 all_bets σ xs σ' :
  evolves n σ0 σ → filterM not_total all_bets σ = Some (xs, σ') →
  evolves n σ σ' ∧ Forall (non_total σ') xs ∧ xs ⊆ all_bets.
Proof.
  apply (filterM_spec not_total (evolves n) (λ l σ, non_total σ l) σ0 all_bets).
  - intros; by eapply non_total_stable.
  - intros x σa b σb _ _. unfold not_total.
    intros (ty & σc & [-> (d & Hd & Ht)]%getitem_Some & [-> ->]%ret_Some)%bind_Some.
    split; [reflexivity|]. intros Hb%negb_true_iff%bool_decide_eq_false.
    by exists d, ty.
Qed.

Lemma square_loop_spec n σ0 all_bets σ xs σ' :
  Forall (λ l, (n ≤ l)%nat) all_bets →
  evolves n σ0 σ → square_loop all_bets σ = Some (xs, σ') →
  evolves n σ σ' ∧
  Forall (λ l, has_score "square_score" bets_minus_handle σ' l ∧
               0 < key_at bets_minus_handle σ' l) xs ∧
  xs ⊆ all_bets.
Proof.
  intros Hn. unfold square_loop.
  apply (filterM_spec _ (evolves n)
           (λ l σ, has_score "square_score" bets_minus_handle σ l ∧
                   0 < key_at bets_minus_handle σ l) σ0 all_bets).
  - intros x σa σb [Hs Hpos] E. split; [by eapply has_square_stable|].
    destruct Hs as (d & Hd & _). unfold key_at in *. rewrite Hd in Hpos.
    destruct (evolves_lookup _ _ _ _ _ E Hd) as (d' & -> & U).
    by destruct (derived_update_keys _ _ U) as [_ ->].
  - intros x σa b σb Hx _.
    intros (h & σ1 & [-> (d & Hd & Hh)]%getitem_Some & Hrest)%bind_Some.
    apply bind_Some in Hrest as (bp & σ2 & [-> (d' & Hd' & Hb)]%getitem_Some & Hrest).
    assert (d' = d) as -> by congruence.
    assert (bets_minus_handle d = parse_percentage bp - parse_percentage h) as Hbmh.
    { unfold bets_minus_handle. by rewrite Hh, Hb. }
    destruct (0 <? parse_percentage bp - parse_percentage h) eqn:Hpos.
    + apply bind_Some in Hrest as (u & σ3 & (d' & Hd'' & ->)%setitem_Some & [-> ->]%ret_Some).
      assert (d' = d) as -> by congruence.
      rewrite Forall_forall in Hn. split.
      * apply evolves_setitem; [done | by apply Hn|]. right. by rewrite Hbmh.
      * intros _.
        assert (<[x:=<["square_score":=PFloat (parse_percentage bp - parse_percentage h)]> d]> σa !! x
                = Some (<["square_score":=PFloat (parse_percentage bp - parse_percentage h)]> d)) as Hl.
        { apply list_lookup_insert_eq. by eapply lookup_lt_Some. }
        assert (bets_minus_handle (<["square_score":=PFloat (parse_percentage bp - parse_percentage h)]> d)
                = parse_percentage bp - parse_percentage h) as Hbmh'.
        { unfold bets_minus_handle. by rewrite !lookup_insert_ne, Hh, Hb by done. }
        split.
        -- eexists. split; [exact Hl|]. rewrite Hbmh'. apply lookup_insert_eq.
        -- unfold key_at. rewrite Hl, Hbmh'. by apply Z.ltb_lt.
    + apply ret_Some in Hrest as [-> ->]. split; [reflexivity | done].
Qed.

End RankFacts.

Section QueryFacts.

Ltac bind_in H x σ Hx :=
  apply bind_Some in H as (x & σ & Hx & H); cbv beta in H.

Lemma Forall_subseteq {A} (P : A → Prop) (xs l : list A) :
  xs ⊆ l → Forall P l → Forall P xs.
Proof. intros S. rewrite !Forall_forall. auto. Qed.

Lemma Forall_stable {A} (P : store → A → Prop) n σ σ' (xs : list A) :
  (∀ x, P σ x → evolves n σ σ' → P σ' x) →
  evolves n σ σ' → Forall (P σ) xs → Forall (P σ') xs.
Proof. intros St E F. eapply Forall_impl; [exact F|]. eauto. Qed.

Lemma sharpest_longshot_bets_spec games limit σ res σ' :
  sharpest_longshot_bets games limit σ = Some (res, σ') →
  evolves (length σ) σ σ' ∧
  Forall (λ l, (length σ ≤ l)%nat) res ∧
  Forall (λ l, longshot σ' l ∧
               has_score "handle_vs_bets_diff" handle_minus_bets σ' l) res ∧
  descending handle_minus_bets σ' res ∧
  (limit = 7 → (length res ≤ 7)%nat).
Proof.
  unfold sharpest_longshot_bets. intros H.
  bind_in H all_bets σ1 H1. bind_in H sharp σ2 H2.
  apply extract_all_bets_spec in H1 as (E1 & F1 & _).
  set (n := length σ) in *.
  eapply (filterM_spec _ (evolves n)
            (λ l σ, longshot σ l ∧
                    has_score "handle_vs_bets_diff" handle_minus_bets σ l)
            σ1 all_bets) in H2 as (E2 & P2 & S2); [| |clear H2|reflexivity].
  - apply rank_spec with (f := handle_minus_bets) in H as (-> & S3 & D & L).
    + split; [by etrans|]. split; [|split; [|done]].
      * eapply Forall_subseteq; [|exact F1]. by etrans.
      * eapply Forall_subseteq; [exact S3 | exact P2].
    + intros x v σ3 Hx. rewrite Forall_forall in P2.
      apply float_key_reads. by apply P2.
  - intros x σa σb [? ?] E. split; [by eapply longshot_stable | by eapply has_diff_stable].
  - intros x σa b σb Hx _ Hb.
    bind_in Hb o σ3 Ho. apply getitem_Some in Ho as [-> (d & Hd & Ho)].
    bind_in Hb h σ3 Hh. apply getitem_Some in Hh as [-> (d' & Hd' & Hh)].
    assert (d' = d) as -> by congruence.
    bind_in Hb bp σ3 Hbp. apply getitem_Some in Hbp as [-> (d' & Hd'' & Hbp)].
    assert (d' = d) as -> by congruence.
    assert (handle_minus_bets d = parse_percentage h - parse_percentage bp) as Hhmb.
    { unfold handle_minus_bets. by rewrite Hh, Hbp. }
    destruct (200 <=? parse_odds o) eqn:Hodds;
      [|apply ret_Some in Hb as [-> ->]; split; [reflexivity | done]].
    destruct (parse_percentage bp + 30 <=? parse_percentage h) eqn:Hdiff;
      [|apply ret_Some in Hb as [-> ->]; split; [reflexivity | done]].
    bind_in Hb u σ3 Hset. apply setitem_Some in Hset as (d' & Hd3 & ->).
    assert (d' = d) as -> by congruence.
    apply ret_Some in Hb as [-> ->].
    rewrite Forall_forall in F1. split.
    + apply evolves_setitem; [done | by apply F1|]. left. by rewrite Hhmb.
    + intros _.
      set (d1 := <["handle_vs_bets_diff":=PFloat (parse_percentage h - parse_percentage bp)]> d).
      assert (<[x:=d1]> σa !! x = Some d1) as Hl.
      { apply list_lookup_insert_eq. by eapply lookup_lt_Some. }
      assert (handle_minus_bets d1 = parse_percentage h - parse_percentage bp) as Hhmb'.
      { unfold handle_minus_bets, d1. by rewrite !lookup_insert_ne, Hh, Hbp by done. }
      split.
      * exists d1, o, h, bp. split; [done|].
        unfold d1. rewrite !lookup_insert_ne by done.
        apply Z.leb_le in Hodds, Hdiff. repeat split; auto. lia.
      * exists d1. split; [done|]. rewrite Hhmb'. apply lookup_insert_eq.
Qed.

Lemma big_bettor_alerts_spec games limit σ res σ' :
  big_bettor_alerts games limit σ = Some (res, σ') →
  evolves (length σ) σ σ' ∧
  Forall (λ l, (length σ ≤ l)%nat) res ∧
  Forall (λ l, copy_of games σ' l ∧ non_total σ' l) res ∧
  descending handle_of σ' res ∧
  (limit = 7 → (length res ≤ 7)%nat).
Proof.
  unfold big_bettor_alerts. intros H.
  bind_in H all_bets σ1 H1. bind_in H nt σ2 H2.
  apply extract_all_bets_spec in H1 as (E1 & F1 & C1).
  set (n := length σ) in *.
  eapply not_total_spec in H2 as (E2 & P2 & S2); [|reflexivity].
  apply rank_spec with (f := handle_of) in H as (-> & S3 & D & L);
    [|intros; by apply handle_key_reads].
  split; [by etrans|]. split; [|split; [|done]].
  - eapply Forall_subseteq; [|exact F1]. by etrans.
  - apply Forall_and. split.
    + eapply Forall_subseteq; [by etrans|].
      eapply Forall_stable; [|exact E2|exact C1]. intros; by eapply copy_of_stable.
    + eapply Forall_subseteq; [exact S3 | exact P2].
Qed.

Lemma get_rich_quick_scheme_spec games σ res σ' :
  get_rich_quick_scheme games σ = Some (res, σ') →
  evolves (length σ) σ σ' ∧ Forall (λ l, (length σ ≤ l)%nat) res.
Proof.
  unfold get_rich_quick_scheme. intros H.
  bind_in H all_bets σ1 H1. bind_in H rq σ2 H2.
  apply extract_all_bets_spec in H1 as (E1 & F1 & _).
  set (n := length σ) in *.
  eapply (filterM_spec _ (evolves n) (λ _ _, True) σ1 all_bets) in H2 as (E2 & _ & S2);
    [|done|clear H2|reflexivity].
  - destruct (sort_by_key_spec handle_key (key_at handle_of σ2) σ2 rq
                ltac:(intros; by apply handle_key_reads) res σ' H) as (-> & Hp & _).
    split; [by etrans|]. eapply Forall_subseteq; [|exact F1].
    intros x Hx. apply S2. by rewrite <- Hp.
  - intros x σa b σb _ _ Hb.
    bind_in Hb o σ3 Ho. apply getitem_Some in Ho as [-> _].
    bind_in Hb h σ3 Hh. apply getitem_Some in Hh as [-> _].
    apply ret_Some in Hb as [_ ->]. split; [reflexivity | done].
Qed.

(** The part of the square-bet queries after the flattening. *)
Lemma square_rank_spec n σ0 all_bets limit σ res σ' :
  Forall (λ l, (n ≤ l)%nat) all_bets → evolves n σ0 σ →
  (do square_bets <- square_loop all_bets;
   do sorted_square <- sort_by_key (λ x, float_key x "square_score") square_bets;
   ret (slice_to limit sorted_square)) σ = Some (res, σ') →
  evolves n σ σ' ∧ res ⊆ all_bets.
Proof.
  intros F1 E0 H. bind_in H sq σ2 H2.
  eapply square_loop_spec in H2 as (E2 & P2 & S2); [|done..].
  apply rank_spec with (f := bets_minus_handle) in H as (-> & S3 & _).
  - split; [done | by etrans].
  - intros x v σ3 Hx. rewrite Forall_forall in P2.
    apply float_key_reads. by apply P2.
Qed.

Lemma biggest_square_bets_spec games limit σ res σ' :
  biggest_square_bets games limit σ = Some (res, σ') →
  evolves (length σ) σ σ' ∧ Forall (λ l, (length σ ≤ l)%nat) res.
Proof.
  unfold biggest_square_bets. intros H. bind_in H all_bets σ1 H1.
  apply extract_all_bets_spec in H1 as (E1 & F1 & _).
  eapply square_rank_spec in H as (E2 & S2); [|done..].
  split; [by etrans | by eapply Forall_subseteq].
Qed.

Lemma biggest_square_bets_by_sport_spec games sport limit σ res σ' :
  biggest_square_bets_by_sport games sport limit σ = Some (res, σ') →
  evolves (length σ) σ σ' ∧ Forall (λ l, (length σ ≤ l)%nat) res.
Proof.
  unfold biggest_square_bets_by_sport.
  destruct (filter_games_by_sport games sport) as [|g gs].
  { intros [-> ->]%ret_Some. split; [reflexivity | constructor]. }
  intros H. bind_in H all_bets σ1 H1.
  apply extract_all_bets_spec in H1 as (E1 & F1 & _).
  eapply square_rank_spec in H as (E2 & S2); [|done..].
  split; [by etrans | by eapply Forall_subseteq].
Qed.

Lemma big_bettor_alerts_by_sport_spec games sport limit σ res σ' :
  big_bettor_alerts_by_sport games sport limit σ = Some (res, σ') →
  evolves (length σ) σ σ' ∧
  Forall (λ l, (length σ ≤ l)%nat) res ∧
  Forall (λ l, copy_of (filter_games_by_sport games sport) σ' l ∧
               non_total σ' l ∧
               has_score "handle_vs_bets_diff" handle_minus_bets σ' l) res ∧
  descending handle_minus_bets σ' res ∧
  (limit = 7 → (length res ≤ 7)%nat).
Proof.
  unfold big_bettor_alerts_by_sport.
  destruct (filter_games_by_sport games sport) as [|g gs] eqn:Hsg.
  { intros [-> ->]%ret_Some. split; [reflexivity|].
    repeat split; try constructor. cbn. lia. }
  rewrite <- Hsg. clear Hsg g gs. intros H.
  bind_in H all_bets σ1 H1. bind_in H nt σ2 H2. bind_in H us σ3 H3.
  apply extract_all_bets_spec in H1 as (E1 & F1 & C1).
  set (n := length σ) in *.
  eapply not_total_spec in H2 as (E2 & P2 & S2); [|reflexivity].
  assert (Forall (λ l, (n ≤ l)%nat) nt) as Fnt by (by eapply Forall_subseteq).
  eapply (mapM_spec _ (evolves n)
            (λ l _ σ, has_score "handle_vs_bets_diff" handle_minus_bets σ l)
            σ2 nt) in H3 as (E3 & P3); [| |clear H3|reflexivity].
  - assert (Forall (has_score "handle_vs_bets_diff" handle_minus_bets σ3) nt) as P3'.
    { clear -P3. induction P3; constructor; auto. }
    apply rank_spec with (f := handle_minus_bets) in H as (-> & S4 & D & L).
    + split; [by etrans; [|etrans]|]. split; [|split; [|done]].
      * by eapply Forall_subseteq.
      * eapply Forall_subseteq; [exact S4|].
        apply Forall_and. split; [|apply Forall_and; split; [|done]].
        -- eapply Forall_subseteq; [exact S2|].
           eapply Forall_stable; [|etrans; [exact E2 | exact E3]|exact C1].
           intros; by eapply copy_of_stable.
        -- eapply Forall_stable; [|exact E3|exact P2]. intros; by eapply non_total_stable.
    + intros x v σ4 Hx. rewrite Forall_forall in P3'.
      apply float_key_reads. by apply P3'.
  - intros; by eapply has_diff_stable.
  - intros x σa u σb Hx _ Hb.
    bind_in Hb h σ4 Hh. apply getitem_Some in Hh as [-> (d & Hd & Hh)].
    bind_in Hb bp σ4 Hbp. apply getitem_Some in Hbp as [-> (d' & Hd' & Hbp)].
    assert (d' = d) as -> by congruence.
    apply setitem_Some in Hb as (d' & Hd'' & ->).
    assert (d' = d) as -> by congruence.
    assert (handle_minus_bets d = parse_percentage h - parse_percentage bp) as Hhmb.
    { unfold handle_minus_bets. by rewrite Hh, Hbp. }
    rewrite Forall_forall in Fnt. split.
    + apply evolves_setitem; [done | by apply Fnt|]. left. by rewrite Hhmb.
    + set (d1 := <["handle_vs_bets_diff":=PFloat (parse_percentage h - parse_percentage bp)]> d).
      exists d1. split; [apply list_lookup_insert_eq; by eapply lookup_lt_Some|].
      assert (handle_minus_bets d1 = parse_percentage h - parse_percentage bp) as ->.
      { unfold handle_minus_bets, d1. by rewrite !lookup_insert_ne, Hh, Hbp by done. }
      apply lookup_insert_eq.
Qed.

End QueryFacts.

Lemma evolves_frame σ σ' :
  evolves (length σ) σ σ' →
  take (length σ) σ' = σ ∧ ∀ l d, σ !! l = Some d → σ' !! l = Some d.
Proof.
  intros (L & F & _). split.
  - apply list_eq. intros i. destruct (decide (i < length σ)%nat) as [Hi|Hi].
    + rewrite lookup_take_lt by done. by apply F.
    + rewrite lookup_take_ge by lia. symmetry. apply lookup_ge_None. lia.
  - intros l d Hd. rewrite F; [done|]. by eapply lookup_lt_Some.
Qed.





(** C9.  Whenever one of the six analytics queries returns, the store
    it leaves begins with the store it found: every dictionary that
    existed before, and so every stored bet, is unchanged, and the
    derived fields are not on it.  The bets returned are objects created
    by the query, the copies made by [extract_all_bets].  Games and
    market lists are values that the queries only read. *)
Theorem analytics_leave_snapshot_unchanged (q : query) (games : list (Game loc))
    (σ : store) (res : list loc) (σ' : store) :
  run_query q games σ = Some (res, σ') →
  take (length σ) σ' = σ ∧
  (∀ l d, σ !! l = Some d → σ' !! l = Some d) ∧
  Forall (λ l, (length σ ≤ l)%nat) res.
Proof.
  intros H.
  assert (evolves (length σ) σ σ' ∧ Forall (λ l, (length σ ≤ l)%nat) res) as [E F].
  { destruct q; cbn [run_query] in H.
    - by apply big_bettor_alerts_spec in H as (? & ? & _).
    - by apply sharpest_longshot_bets_spec in H as (? & ? & _).
    - by apply get_rich_quick_scheme_spec in H.
    - by apply biggest_square_bets_spec in H.
    - by apply big_bettor_alerts_by_sport_spec in H as (? & ? & _).
    - by apply biggest_square_bets_by_sport_spec in H. }
  destruct (evolves_frame σ σ' E). auto.
Qed.

Lemma analytics_leave_snapshot_unchanged_witness :
  let r := Demo.outcome (run_query (SharpestLongshots 7) Demo.games) in
  run_query (SharpestLongshots 7) Demo.games Demo.bets = Some (r.1, r.2) ∧
  (length Demo.bets = 5 ∧ length r.2 = 10 ∧ r.1 = [8; 5])%nat ∧
  take (length Demo.bets) r.2 = Demo.bets ∧
  Forall (λ l, (length Demo.bets ≤ l)%nat) r.1.
Proof.
  intros r.
  assert (run_query (SharpestLongshots 7) Demo.games Demo.bets = Some (r.1, r.2)) as E
    by (apply (outcome_Some (run_query (SharpestLongshots 7) Demo.games));
        vm_compute; reflexivity).
  destruct (analytics_leave_snapshot_unchanged _ _ _ _ _ E) as (T & _ & F).
  split; [exact E|]. split; [vm_compute; by repeat split|]. split; [exact T | exact F].
Defined.

(** * Further properties *)

(** ** Checking the examples

    The conditions on a snapshot are checked on the example by boolean
    tests. *)

Section Checks.

Lemma stored_refs_in (games : list (Game loc)) g (m : string * list loc) bet :
  g ∈ games → m ∈ markets g → bet ∈ m.2 → In bet (stored_refs games).
Proof.
  intros Hg Hm Hb. unfold stored_refs. apply in_flat_map. exists g.
  split; [by apply list_elem_of_In|]. apply in_flat_map. exists m.
  split; by apply list_elem_of_In.
Qed.

Lemma bets_stored_check (games : list (Game loc)) (σ : store) :
  forallb (λ bet, bet <? length σ)%nat (stored_refs games) = true → bets_stored games σ.
Proof.
  intros H g m bet Hg Hm Hb. rewrite forallb_forall in H.
  by apply Nat.ltb_lt, H, (stored_refs_in games g m).
Qed.

Lemma readable_bets_check (games : list (Game loc)) (σ : store) :
  forallb (is_readable σ) (stored_refs games) = true → readable_bets games σ.
Proof.
  intros H g m bet Hg Hm Hb. rewrite forallb_forall in H.
  specialize (H bet (stored_refs_in games g m bet Hg Hm Hb)).
  unfold is_readable in H. destruct (σ !! bet) as [d|]; [|done].
  apply andb_true_iff in H as [[Ho Hh]%andb_true_iff Hbp].
  exists d. split; [done|]. repeat split; by eapply bool_decide_eq_true_1.
Qed.

Lemma default_Some3 {A B C} (d : A * B * C) (o : option (A * B * C)) :
  bool_decide (is_Some o) = true →
  o = Some ((default d o).1.1, (default d o).1.2, (default d o).2).
Proof. intros [[[a b] c] ->]%bool_decide_eq_true_1. done. Qed.

Lemma default_Some4 {A B C D} (d : A * B * C * D) (o : option (A * B * C * D)) :
  bool_decide (is_Some o) = true →
  o = Some ((default d o).1.1.1, (default d o).1.1.2, (default d o).1.2, (default d o).2).
Proof. intros [[[[a b] c] e] ->]%bool_decide_eq_true_1. done. Qed.

End Checks.

(** ** The parser *)

Section DictFacts.

Context {V : Type}.
Implicit Types (d : list (string * V)) (k : string) (v : V).

Lemma dict_get_set_eq k v d : dict_get k (dict_set k v d) = Some v.
Proof.
  induction d as [|[k' v'] d IH]; cbn; [by rewrite String.eqb_refl|].
  destruct (String.eqb_spec k' k) as [->|Hne]; cbn.
  - by rewrite String.eqb_refl.
  - by destruct (String.eqb_spec k' k).
Qed.

Lemma dict_get_set_ne k k' v d : k ≠ k' → dict_get k' (dict_set k v d) = dict_get k' d.
Proof.
  intros Hne. induction d as [|[k0 v0] d IH]; cbn.
  - by destruct (String.eqb_spec k k').
  - destruct (String.eqb_spec k0 k) as [->|Hk]; cbn.
    + by destruct (String.eqb_spec k k').
    + by rewrite IH.
Qed.

Lemma dict_set_keys k v d :
  List.map fst (dict_set k v d) =
  if bool_decide (k ∈ List.map fst d) then List.map fst d
  else (List.map fst d ++ [k])%list.
Proof.
  induction d as [|[k0 v0] d IH]; cbn; [done|].
  destruct (String.eqb_spec k0 k) as [->|Hk]; cbn.
  - rewrite bool_decide_eq_true_2; [done | by left].
  - rewrite IH. case_bool_decide as E1; case_bool_decide as E2; try done.
    + destruct E2. by right.
    + apply elem_of_cons in E2 as [?|?]; [congruence | done].
Qed.

Lemma dict_set_nodup k v d : NoDup (List.map fst d) → NoDup (List.map fst (dict_set k v d)).
Proof.
  intros H. rewrite dict_set_keys. case_bool_decide as E; [done|].
  apply NoDup_app. split; [done|]. split; [|apply NoDup_singleton].
  by intros x Hx ->%list_elem_of_singleton.
Qed.

End DictFacts.

Section MarketFacts.
Import PyStr PyStrFacts.

Lemma strip_idem s : strip (strip s) = strip s.
Proof. unfold strip at 1. by rewrite lstrip_strip, rstrip_strip. Qed.

Lemma omap_length_le {X Y} (f : X → option Y) (l : list X) :
  (length (omap f l) ≤ length l)%nat.
Proof. induction l as [|x l IH]; cbn; [lia|]. destruct (f x); cbn; lia. Qed.

Lemma parse_bet_parsed bet_soup d : parse_bet bet_soup = Some d → parsed_bet d.
Proof.
  unfold parse_bet.
  destruct (Soup.find "div" _ bet_soup) as [t|]; [|done].
  destruct (Soup.find "a" _ bet_soup) as [o|]; [|done].
  pose proof (percentages_valid bet_soup) as V.
  destruct (percentages bet_soup) as [|p0 [|p1 ps]]; intros [= <-];
    eexists _, _, _, _; (split; [reflexivity|]);
    rewrite !strip_idem; repeat split; try done.
  - by inversion V.
  - inversion V as [|?? _ V']; subst. by inversion V'.
Qed.

Lemma parse_market_parsed market_soup ty bets :
  parse_market market_soup = Some (ty, bets) →
  strip ty = ty ∧ Forall parsed_bet bets ∧
  (length bets ≤ length (Soup.find_all "div" (Some "tb-sodd") market_soup))%nat.
Proof.
  unfold parse_market.
  destruct (Soup.find "div" (Some "tb-se-head") market_soup) as [header|]; [|done].
  destruct (Soup.find "div" None header) as [label|]; [|done].
  intros [= <- <-]. split; [apply strip_idem|]. split.
  - apply Forall_forall. intros d (row & _ & Hd)%list_elem_of_omap.
    by eapply parse_bet_parsed.
  - apply omap_length_le.
Qed.

(** The fold of [parse_game] over the market containers. *)
Lemma fold_markets_spec (cs : list Soup.node) :
  ∀ ms : list (string * list pydict),
    NoDup (List.map fst ms) →
    Forall (λ m, strip m.1 = m.1 ∧ Forall parsed_bet m.2) ms →
    let ms' :=
      fold_left
        (λ ms container,
           match parse_market container with
           | Some (ty, bets) => dict_set ty bets ms
           | None => ms
           end) cs ms in
    NoDup (List.map fst ms') ∧
    Forall (λ m, strip m.1 = m.1 ∧ Forall parsed_bet m.2) ms' ∧
    ∀ ty, dict_get ty ms' =
          match last (List.filter (λ m, String.eqb m.1 ty) (omap parse_market cs)) with
          | Some m => Some m.2
          | None => dict_get ty ms
          end.
Proof.
  induction cs as [|c cs IH]; intros ms N F; cbn [fold_left].
  - by repeat split.
  - destruct (parse_market c) as [[ty bets]|] eqn:E.
    + destruct (parse_market_parsed c ty bets E) as (Hty & Hb & _).
      destruct (IH (dict_set ty bets ms)) as (N' & F' & G').
      { by apply dict_set_nodup. }
      { clear -F Hty Hb. induction F as [|[k0 v0] d H0 Hd IHd]; cbn.
        - by repeat constructor.
        - destruct (String.eqb k0 ty); constructor; auto. }
      split; [done|]. split; [done|]. intros ty'. rewrite G'.
      cbn [omap list_omap]. rewrite E. cbn [List.filter fst].
      fold (omap parse_market cs).
      destruct (String.eqb_spec ty ty') as [->|Hne].
      * rewrite last_cons.
        destruct (last (List.filter _ (omap parse_market cs))); [done|].
        apply dict_get_set_eq.
      * destruct (last (List.filter _ (omap parse_market cs))); [done|].
        by apply dict_get_set_ne.
    + destruct (IH ms N F) as (N' & F' & G'). split; [done|]. split; [done|].
      intros ty'. rewrite G'. cbn [omap list_omap]. by rewrite E.
Qed.

(** X1.  When [parse_game] returns a game, its market labels are
    distinct; every label is trimmed and every bet is a dictionary of
    exactly the four keys team, odds, handle_pct and bets_pct, whose team
    and odds are trimmed and whose two percentages pass the percentage
    test of [parse_bet]; under each label the bets are those of the last
    container that [parse_market] accepts with that label; the game has
    no date range yet; and its title splits into its away and home
    team. *)
Theorem parse_game_markets (game_soup : Soup.node) (g : Game pydict) :
  parse_game game_soup = Some g →
  NoDup (List.map fst (markets g)) ∧
  Forall (λ m, strip m.1 = m.1 ∧ Forall parsed_bet m.2) (markets g) ∧
  (∀ ty, dict_get ty (markets g) =
         snd <$> last (List.filter (λ m, String.eqb m.1 ty)
                         (omap parse_market (market_containers game_soup)))) ∧
  scraped_date_range g = None ∧
  split_title (title g) = Some (away_team g, home_team g).
Proof.
  unfold parse_game, market_containers.
  destruct (Soup.find "div" (Some "tb-se-title") game_soup) as [title_elem|]; [|done].
  destruct (Soup.find "h5" None title_elem) as [h5|]; [|done].
  destruct (Soup.find "span" None title_elem) as [span|]; [|done].
  destruct (split_title (strip (Soup.text h5))) as [[a h]|] eqn:Hst; [|done].
  destruct (Soup.find "div" (Some "tb-market-wrap") game_soup) as [w|]; [|done].
  intros [= <-]. cbn [markets scraped_date_range title away_team home_team].
  destruct (fold_markets_spec (Soup.find_all_children "div" w) [])
    as (N & F & G); [constructor | constructor |].
  split; [done|]. split; [done|]. split; [|done].
  intros ty. rewrite G. by destruct (last _).
Qed.

End MarketFacts.

Lemma parse_game_markets_witness :
  let g := default (mkGame "" "" "" "" [] None) (parse_game Demo.yankees) in
  parse_game Demo.yankees = Some g ∧
  List.map fst (markets g) = ["Moneyline"; "Spread"; "Total"] ∧
  NoDup (List.map fst (markets g)) ∧
  Forall (λ m, Forall parsed_bet m.2) (markets g).
Proof.
  intros g.
  assert (parse_game Demo.yankees = Some g) as E
    by (apply default_Some; vm_compute; reflexivity).
  destruct (parse_game_markets Demo.yankees g E) as (N & F & _).
  split; [exact E|]. split; [vm_compute; reflexivity|]. split; [exact N|].
  eapply Forall_impl; [exact F|]. intros m [_ H]. exact H.
Defined.

(** ** The scraper *)

Section RunFacts.

Context {World : Type}.
Variable http_get : Url → World → option Soup.node * World.

Lemma found_total_app l1 l2 : found_total (l1 ++ l2) = (found_total l1 + found_total l2)%nat.
Proof.
  unfold found_total. induction l1 as [|l l1 IH]; cbn; [done|].
  rewrite IH. destruct (log_event l); lia.
Qed.

Lemma fold_add_game_new date_range frags :
  ∀ pg all, ∃ new,
    fold_left (add_game date_range) frags (pg, all) = ((pg ++ new)%list, (all ++ new)%list) ∧
    Forall (scraped_from date_range) new.
Proof.
  induction frags as [|f frags IH]; intros pg all; cbn [fold_left].
  - exists []. by rewrite !app_nil_r.
  - unfold add_game at 2. destruct (parse_game f) as [p|] eqn:E; [|apply IH].
    destruct (existsb _ all); cbn [negb]; [apply IH|].
    destruct (IH (pg ++ [set_date_range date_range p])%list
                 (all ++ [set_date_range date_range p])%list) as (new & -> & F).
    exists (set_date_range date_range p :: new).
    rewrite <- !app_assoc. split; [done|]. constructor; [|done]. by exists f, p.
Qed.

(** One turn: what it logs, what it adds. *)
Lemma scrape_page_run cfg date_range page all w next all' log w' :
  scrape_page http_get cfg date_range page all w = (next, all', log, w') →
  ∃ new,
    all' = (all ++ new)%list ∧ length new = found_total log ∧
    Forall (scraped_from date_range) new ∧
    length (fetched_pages log) = 1%nat ∧
    Forall (λ l, log_sport l = sport_name cfg ∧ log_range l = date_range ∧
                 log_page l = page) log ∧
    match next with Some p => p = page + 1 ∧ p ≤ 20 | None => True end.
Proof.
  unfold scrape_page.
  destruct (http_get _ w) as [[soup|] w1].
  - destruct (Soup.find_all "div" (Some "tb-se") soup) as [|f fs] eqn:Hf.
    + intros [= <- <- <- <-]. exists []. rewrite app_nil_r. by repeat constructor.
    + destruct (fold_add_game_new date_range (f :: fs) [] all) as (new & -> & F).
      cbn [app]. destruct new as [|g new].
      * intros [= <- <- <- <-]. exists []. by repeat constructor.
      * destruct (page + 1 >? 20) eqn:Hp; intros [= <- <- <- <-];
          exists (g :: new); cbn; repeat split; try done; try lia;
            by repeat constructor.
  - intros [= <- <- <- <-]. exists []. rewrite app_nil_r. by repeat constructor.
Qed.

Lemma scrape_pages_run cfg date_range :
  ∀ fuel page all w all' log w',
    1 ≤ page ≤ 20 →
    scrape_pages http_get fuel cfg date_range page all w = Some (all', log, w') →
    ∃ new,
      all' = (all ++ new)%list ∧ length new = found_total log ∧
      Forall (scraped_from date_range) new ∧
      (1 ≤ length (fetched_pages log))%nat ∧
      Z.of_nat (length (fetched_pages log)) ≤ 21 - page ∧
      Forall (λ l, log_sport l = sport_name cfg ∧ log_range l = date_range ∧
                   1 ≤ log_page l ≤ 20) log.
Proof.
  induction fuel as [|fuel IH]; intros page all w all' log w' Hp; [done|].
  cbn [scrape_pages].
  destruct (scrape_page http_get cfg date_range page all w)
    as [[[next all1] log1] w1] eqn:E.
  apply scrape_page_run in E as (new1 & -> & L1 & F1 & C1 & P1 & N1).
  assert (Forall (λ l, log_sport l = sport_name cfg ∧ log_range l = date_range ∧
                       1 ≤ log_page l ≤ 20) log1) as P1'.
  { eapply Forall_impl; [exact P1|]. cbn. intros l (? & ? & ->). auto. }
  destruct next as [p|].
  - destruct N1 as [-> Hle].
    destruct (scrape_pages http_get fuel cfg date_range (page + 1) _ w1)
      as [[[all2 log2] w2]|] eqn:E2; [|done].
    intros [= <- <- <-].
    apply IH in E2 as (new2 & -> & L2 & F2 & C2 & C2' & P2); [|lia].
    exists (new1 ++ new2)%list. rewrite app_assoc.
    rewrite found_total_app, fetched_pages_app, !length_app.
    split; [done|]. split; [lia|]. split; [by apply Forall_app|].
    split; [lia|]. split; [lia|]. by apply Forall_app.
  - intros [= <- <- <-]. exists new1. repeat split; auto; lia.
Qed.

Lemma scrape_ranges_run fuel cfg :
  ∀ ranges all w all' log w',
    scrape_ranges http_get fuel cfg ranges all w = Some (all', log, w') →
    ∃ new,
      all' = (all ++ new)%list ∧ length new = found_total log ∧
      Forall (λ g, ∃ d, d ∈ ranges ∧ scraped_from d g) new ∧
      (length ranges ≤ length (fetched_pages log) ≤ 20 * length ranges)%nat ∧
      Forall (line_of (List.map (λ d, (cfg, d)) ranges)) log.
Proof.
  induction ranges as [|d ranges IH]; intros all w all' log w'; cbn [scrape_ranges].
  - intros [= <- <- <-]. exists []. rewrite app_nil_r. by repeat constructor.
  - destruct (scrape_pages http_get fuel cfg d 1 all w) as [[[all1 log1] w1]|] eqn:E1;
      [|done].
    destruct (scrape_ranges http_get fuel cfg ranges all1 w1)
      as [[[all2 log2] w2]|] eqn:E2; [|done].
    intros [= <- <- <-].
    apply scrape_pages_run in E1 as (new1 & -> & L1 & F1 & C1 & C1' & P1); [|lia].
    apply IH in E2 as (new2 & -> & L2 & F2 & C2 & P2).
    exists (new1 ++ new2)%list. rewrite app_assoc.
    rewrite found_total_app, fetched_pages_app, !length_app.
    split; [done|]. split; [lia|]. split; [|split; [cbn [length]; lia|]].
    + apply Forall_app. split.
      * eapply Forall_impl; [exact F1|]. intros g ?. exists d. split; [left|done].
      * eapply Forall_impl; [exact F2|]. intros g (d' & ? & ?). exists d'. split; [by right|done].
    + apply Forall_app. split.
      * eapply Forall_impl; [exact P1|]. intros l (? & ? & ?).
        exists cfg, d. split; [left|done].
      * eapply Forall_impl; [exact P2|]. intros l (c' & d' & ? & ?).
        exists c', d'. split; [by right|done].
Qed.

Lemma scrape_sports_run fuel :
  ∀ cfgs all w all' log w',
    scrape_sports http_get fuel cfgs all w = Some (all', log, w') →
    ∃ new,
      all' = (all ++ new)%list ∧ length new = found_total log ∧
      Forall (λ g, ∃ cfg d, (cfg, d) ∈ scrape_pairs cfgs ∧ scraped_from d g) new ∧
      (length (scrape_pairs cfgs) ≤ length (fetched_pages log)
         ≤ 20 * length (scrape_pairs cfgs))%nat ∧
      Forall (line_of (scrape_pairs cfgs)) log.
Proof.
  induction cfgs as [|cfg cfgs IH]; intros all w all' log w'; cbn [scrape_sports].
  - intros [= <- <- <-]. exists []. rewrite app_nil_r. by repeat constructor.
  - unfold scrape_pairs. cbn [flat_map]. fold (scrape_pairs cfgs).
    destruct (String.eqb (sport_name cfg) "all_sports"); [apply IH|].
    destruct (scrape_ranges http_get fuel cfg (date_ranges cfg) all w)
      as [[[all1 log1] w1]|] eqn:E1; [|done].
    destruct (scrape_sports http_get fuel cfgs all1 w1)
      as [[[all2 log2] w2]|] eqn:E2; [|done].
    intros [= <- <- <-].
    apply scrape_ranges_run in E1 as (new1 & -> & L1 & F1 & C1 & P1).
    apply IH in E2 as (new2 & -> & L2 & F2 & C2 & P2).
    exists (new1 ++ new2)%list. rewrite app_assoc.
    rewrite found_total_app, fetched_pages_app, !length_app, length_map.
    split; [done|]. split; [lia|]. split; [|split; [lia|]].
    + apply Forall_app. split.
      * eapply Forall_impl; [exact F1|]. intros g (d & Hd & ?). exists cfg, d.
        split; [|done]. apply elem_of_app. left. apply list_elem_of_fmap. eauto.
      * eapply Forall_impl; [exact F2|]. intros g (c' & d' & ? & ?). exists c', d'.
        split; [|done]. apply elem_of_app. by right.
    + apply Forall_app. split.
      * eapply Forall_impl; [exact P1|]. intros l (c' & d' & ? & ?).
        exists c', d'. split; [|done]. apply elem_of_app. by left.
      * eapply Forall_impl; [exact P2|]. intros l (c' & d' & ? & ?).
        exists c', d'. split; [|done]. apply elem_of_app. by right.
Qed.

End RunFacts.

Section RunTheorems.

Context {World : Type}.
Variable http_get : Url → World → option Soup.node * World.

Lemma parse_game_sound game_soup g :
  parse_game game_soup = Some g →
  split_title (title g) = Some (away_team g, home_team g) ∧
  NoDup (List.map fst (markets g)) ∧
  Forall (λ m, Forall parsed_bet m.2) (markets g).
Proof.
  unfold parse_game.
  destruct (Soup.find "div" (Some "tb-se-title") game_soup) as [title_elem|]; [|done].
  destruct (Soup.find "h5" None title_elem) as [h5|]; [|done].
  destruct (Soup.find "span" None title_elem) as [span|]; [|done].
  destruct (split_title (PyStr.strip (Soup.text h5))) as [[a h]|] eqn:Hst; [|done].
  destruct (Soup.find "div" (Some "tb-market-wrap") game_soup) as [w|]; [|done].
  intros [= <-]. cbn [markets title away_team home_team].
  destruct (fold_markets_spec (Soup.find_all_children "div" w) [])
    as (N & F & _); [constructor | constructor |].
  split; [done|]. split; [done|].
  eapply Forall_impl; [exact F|]. by intros m [_ ?].
Qed.

Lemma scrape_pairs_configs :
  length (scrape_pairs sport_configs) = 26%nat ∧
  Forall (λ p, sport_name p.1 ≠ "all_sports" ∧
               (p.2 = "today" ∨ p.2 = "tomorrow") ∧
               (sport_name p.1 ∈ soccer → p.2 = "today"))
    (scrape_pairs sport_configs).
Proof.
  split; [reflexivity|]. unfold soccer.
  repeat (constructor;
          [split; [done|]; split; [auto|]; cbn;
           first [done | intros H%list_elem_of_In; cbn in H; exfalso; intuition discriminate]|]).
  constructor.
Qed.

(** X2.  The pagination of one sport and date range, started at page
    1, only appends to the games collected so far; it appends as many
    games as its "Found n new games" lines announce in total, each
    stamped with the date range of the request; and if the request for
    page 1 fails, nothing is appended and the log is the announcement of
    the page followed by the error. *)
Theorem scrape_pages_accumulates (fuel : nat) (cfg : sport_config)
    (date_range : string) (all_games_data : list (Game pydict)) (w : World)
    (all' : list (Game pydict)) (log : list log_line) (w' : World) :
  scrape_pages http_get fuel cfg date_range 1 all_games_data w = Some (all', log, w') →
  ∃ new,
    all' = (all_games_data ++ new)%list ∧
    length new = found_total log ∧
    Forall (λ g, scraped_date_range g = Some date_range) new ∧
    (fst (http_get (mkUrl (sport_id cfg) date_range (Some 0) None) w) = None →
     new = [] ∧ List.map log_event log = [Scraping; ScrapeError]).
Proof.
  intros H.
  destruct (scrape_pages_run http_get cfg date_range fuel 1 all_games_data w
              all' log w' ltac:(lia) H) as (new & -> & L & F & _).
  exists new. split; [done|]. split; [done|]. split.
  - eapply Forall_impl; [exact F|]. by intros g (frag & p & _ & ->).
  - intros Herr. destruct fuel as [|fuel]; [done|]. cbn [scrape_pages] in H.
    unfold scrape_page in H. change (1 =? 1) with true in H. cbv iota in H.
    destruct (http_get _ w) as [[soup|] w1]; [done|].
    injection H as H1 <- <-. split; [|done].
    apply (f_equal length) in H1. rewrite length_app in H1.
    destruct new; [done | cbn in H1; lia].
Qed.

(** X3.  Every game of a snapshot returned by [scrape_betting_splits]
    has a title that splits into its away and home team, the date range
    "today" or "tomorrow", distinct market labels and only bets built by
    [parse_bet]; the snapshot has as many games as the log announces as
    new. *)
Theorem scrape_snapshot_well_formed (fuel : nat) (w : World)
    (games : list (Game pydict)) (log : list log_line) (w' : World) :
  scrape_betting_splits http_get fuel w = Some (games, log, w') →
  Forall scraped_game_ok games ∧ length games = found_total log.
Proof.
  unfold scrape_betting_splits. intros H.
  apply scrape_sports_run in H as (new & -> & L & F & _).
  cbn [app]. split; [|done].
  destruct scrape_pairs_configs as [_ P]. rewrite Forall_forall in P.
  eapply Forall_impl; [exact F|]. cbn.
  intros g (cfg & d & Hp & frag & p & Hparse & ->).
  destruct (parse_game_sound frag p Hparse) as (T & N & B).
  destruct (P _ Hp) as (_ & Hd & _). cbn in Hd.
  split; [done|]. split; [|done]. cbn. destruct Hd as [-> | ->]; auto.
Qed.

(** X4.  With at least 20 turns allowed to each pagination,
    [scrape_betting_splits] returns, after at least 26 and at most 520
    page requests (26 pairs of a sport and a date range, 20 pages each
    at most).  No page beyond 20 is requested, "all_sports" is never
    requested, the date range is "today" or "tomorrow", and the four
    soccer competitions are requested for "today" only. *)
Theorem scrape_request_budget (fuel : nat) (w : World) :
  (20 ≤ fuel)%nat →
  ∃ games log w',
    scrape_betting_splits http_get fuel w = Some (games, log, w') ∧
    (26 ≤ length (fetched_pages log) ≤ 520)%nat ∧
    Forall (λ l, 1 ≤ log_page l ≤ 20 ∧
                 log_sport l ≠ "all_sports" ∧
                 (log_range l = "today" ∨ log_range l = "tomorrow") ∧
                 (log_sport l ∈ soccer → log_range l = "today")) log.
Proof.
  intros Hf.
  destruct (scrape_betting_splits_terminates http_get fuel w Hf) as [[[games log] w'] E].
  exists games, log, w'. split; [done|].
  unfold scrape_betting_splits in E.
  apply scrape_sports_run in E as (new & _ & _ & _ & C & P).
  destruct scrape_pairs_configs as [L Q]. rewrite L in C. split; [lia|].
  rewrite Forall_forall in Q.
  eapply Forall_impl; [exact P|]. cbn.
  intros l (cfg & d & Hp & -> & -> & Hpage).
  destruct (Q _ Hp) as (? & ? & ?). auto.
Qed.

End RunTheorems.

Lemma scrape_pages_accumulates_witness :
  let r := default ([], [], 0) (scrape_pages Demo.http_get 20 Demo.mlb "today" 1 [] 0) in
  scrape_pages Demo.http_get 20 Demo.mlb "today" 1 [] 0 = Some (r.1.1, r.1.2, r.2) ∧
  found_total r.1.2 = 1%nat ∧
  ∃ new, r.1.1 = ([] ++ new)%list ∧ length new = found_total r.1.2.
Proof.
  intros r.
  assert (scrape_pages Demo.http_get 20 Demo.mlb "today" 1 [] 0 = Some (r.1.1, r.1.2, r.2))
    as E by (apply default_Some3; vm_compute; reflexivity).
  destruct (scrape_pages_accumulates Demo.http_get 20 Demo.mlb "today" [] 0 _ _ _ E)
    as (new & H1 & H2 & _).
  split; [exact E|]. split; [vm_compute; reflexivity|]. by exists new.
Defined.

Lemma scrape_snapshot_well_formed_witness :
  length Demo.snapshot = 2%nat ∧ Forall scraped_game_ok Demo.snapshot.
Proof.
  split; [vm_compute; reflexivity|]. unfold Demo.snapshot.
  destruct Demo.scrape_result as [[[games log] w']|] eqn:E; [|constructor].
  exact (proj1 (scrape_snapshot_well_formed Demo.http_get 20 0 games log w' E)).
Defined.

Lemma scrape_request_budget_witness :
  ∃ games log w',
    scrape_betting_splits Demo.http_get 20 0 = Some (games, log, w') ∧
    (26 ≤ length (fetched_pages log) ≤ 520)%nat ∧
    Forall (λ l, 1 ≤ log_page l ≤ 20 ∧
                 log_sport l ≠ "all_sports" ∧
                 (log_range l = "today" ∨ log_range l = "tomorrow") ∧
                 (log_sport l ∈ soccer → log_range l = "today")) log.
Proof. apply (scrape_request_budget Demo.http_get 20 0). lia. Defined.

(** ** The cache *)

Section CacheFacts.

Context {World : Type}.
Variable http_get : Url → World → option Soup.node * World.
Variable now : World → Z * World.

(** X5.  [refresh_cache] never answers from the cache, and leaves a
    cache that holds the games it returns with a time stamp.  If these
    games are not empty and at most 30 minutes have passed on the clock,
    the next [get_cached_or_fresh_data] returns the same games from the
    cache, leaves the cache as it is and only reads the clock (twice);
    if the games are empty or more than 30 minutes have passed, whatever
    it returns does not come from the cache. *)
Theorem refresh_then_get (fuel : nat) (c : cache) (w : World)
    (games : list (Game pydict)) (flag : bool) (c' : cache) (w' : World) :
  refresh_cache http_get now fuel c w = Some (games, flag, c', w') →
  flag = false ∧
  ∃ stamp,
    c' = mkCache games (Some stamp) ∧
    (games ≠ [] → fst (now w') - stamp ≤ 30 * 60 * 1000000 →
     get_cached_or_fresh_data http_get now fuel c' w' =
       Some (games, true, c', snd (now (snd (now w'))))) ∧
    (games = [] ∨ fst (now w') - stamp > 30 * 60 * 1000000 →
     ∀ r, get_cached_or_fresh_data http_get now fuel c' w' = Some r → r.1.1.2 = false).
Proof.
  unfold refresh_cache, get_cached_or_fresh_data at 1. cbn [cached_games_data].
  destruct (scrape_betting_splits http_get fuel w) as [[[fresh l] w2]|]; [|done].
  destruct (now w2) as [stamp w3] eqn:En. intros [= <- <- <- <-].
  split; [done|]. exists stamp. split; [done|]. split.
  - intros Hne Hage. unfold get_cached_or_fresh_data, is_cache_expired.
    cbn [cached_games_data cache_timestamp].
    destruct fresh as [|g gs]; [done|].
    destruct (now w3) as [n w4] eqn:En3. cbn [fst snd] in *.
    unfold timedelta_minutes, CACHE_DURATION_MINUTES.
    assert ((n - stamp >? 30 * 60 * 1000000) = false) as -> by lia.
    cbn [negb]. by destruct (now w4).
  - intros Hor [[[g2 f2] c2] w5]. unfold get_cached_or_fresh_data, is_cache_expired.
    cbn [cached_games_data cache_timestamp].
    destruct fresh as [|g gs].
    + destruct (scrape_betting_splits http_get fuel w3) as [[[fr l2] w6]|]; [|done].
      destruct (now w6). by intros [= <- <- <- <-].
    + destruct Hor as [?|Hage]; [done|].
      destruct (now w3) as [n w4] eqn:En3. cbn [fst snd] in *.
      unfold timedelta_minutes, CACHE_DURATION_MINUTES.
      assert ((n - stamp >? 30 * 60 * 1000000) = true) as -> by lia.
      cbn [negb].
      destruct (scrape_betting_splits http_get fuel w4) as [[[fr l2] w6]|]; [|done].
      destruct (now w6). by intros [= <- <- <- <-].
Qed.

End CacheFacts.

Lemma refresh_then_get_witness :
  let r := default ([], false, mkCache [] None, 0)
             (refresh_cache Demo.http_get Demo.now 20 (mkCache [] None) 0) in
  refresh_cache Demo.http_get Demo.now 20 (mkCache [] None) 0 =
    Some (r.1.1.1, r.1.1.2, r.1.2, r.2) ∧
  length r.1.1.1 = 2%nat ∧ r.1.1.2 = false ∧
  get_cached_or_fresh_data Demo.http_get Demo.now 20 r.1.2 r.2 =
    Some (r.1.1.1, true, r.1.2, r.2).
Proof.
  intros r.
  assert (refresh_cache Demo.http_get Demo.now 20 (mkCache [] None) 0 =
            Some (r.1.1.1, r.1.1.2, r.1.2, r.2)) as E
    by (apply default_Some4; vm_compute; reflexivity).
  assert (length r.1.1.1 = 2%nat) as L by (vm_compute; reflexivity).
  destruct (refresh_then_get Demo.http_get Demo.now 20 _ 0 _ _ _ _ E)
    as (F & stamp & C & G & _).
  split; [exact E|]. split; [exact L|]. split; [exact F|].
  assert (cache_timestamp r.1.2 = Some r.2) as S by (vm_compute; reflexivity).
  rewrite C in S. cbn [cache_timestamp] in S.
  assert (stamp = r.2) as Hs by congruence.
  apply G.
  - intros Hnil. rewrite Hnil in L. discriminate.
  - rewrite Hs. change (fst (Demo.now r.2)) with r.2. rewrite Z.sub_diag. done.
Defined.

(** ** Odds and percentages *)

Module PyParseFacts.
Import PyStr PyStrFacts PyNumFacts.
#[local] Arguments String.append : simpl nomatch.

Lemma digit_not_space c : isdigit_char c = true → isspace c = false.
Proof.
  unfold isdigit_char, isspace. intros [H1 H2]%andb_true_iff.
  apply Nat.leb_le in H1, H2.
  destruct (9 <=? ord c)%nat eqn:A, (ord c <=? 13)%nat eqn:B,
           (28 <=? ord c)%nat eqn:C, (ord c <=? 32)%nat eqn:D; try done;
    apply Nat.leb_le in B || apply Nat.leb_le in D; lia.
Qed.

Lemma all_digits_str_forall s :
  all_digits s = true → str_forall isdigit_char s = true.
Proof. induction s; cbn; [done|]. intros [-> ?]%andb_true_iff. auto. Qed.

Lemma rstrip_no_space s :
  str_forall (λ c, negb (isspace c)) s = true → rstrip s = s.
Proof.
  induction s as [|c s IH]; cbn; [done|].
  intros [Hc Hs]%andb_true_iff. rewrite IH by done.
  apply negb_true_iff in Hc. destruct s; [by rewrite Hc | done].
Qed.

Lemma str_forall_impl (P Q : ascii → bool) s :
  (∀ c, P c = true → Q c = true) → str_forall P s = true → str_forall Q s = true.
Proof.
  intros H. induction s; cbn; [done|]. intros [?%H ?]%andb_true_iff.
  apply andb_true_iff. auto.
Qed.

Lemma strip_digits s : all_digits s = true → strip s = s.
Proof.
  intros H%all_digits_str_forall. unfold strip.
  assert (str_forall (λ c, negb (isspace c)) s = true) as Hs.
  { eapply str_forall_impl; [|exact H]. intros c Hc. by rewrite digit_not_space. }
  assert (lstrip s = s) as ->.
  { destruct s as [|c s]; [done|]. cbn in *.
    apply andb_true_iff in Hs as [Hc _]. apply negb_true_iff in Hc. by rewrite Hc. }
  by apply rstrip_no_space.
Qed.

(** The value of a run of digits. *)
Lemma digitpart_digits s :
  all_digits s = true → ∀ acc prev, (s ≠ "" ∨ prev = true) →
  digitpart acc prev s = Some (decimal_from acc s).
Proof.
  induction s as [|c s IH]; cbn; intros H acc prev Hne.
  - by destruct Hne as [?| ->].
  - apply andb_true_iff in H as [Hc Hs]. rewrite Hc. apply IH; [done | by right].
Qed.

Lemma decimal_from_nonneg s :
  all_digits s = true → ∀ acc, 0 ≤ acc → 0 ≤ decimal_from acc s.
Proof.
  induction s as [|c s IH]; cbn; intros H acc Hacc; [done|].
  apply andb_true_iff in H as [Hc Hs]. apply IH; [done|].
  pose proof (digit_value_nonneg c Hc). lia.
Qed.

Lemma digit_not_sign c :
  isdigit_char c = true → Ascii.eqb c "+" = false ∧ Ascii.eqb c "-" = false.
Proof.
  intros H. split; apply Ascii.eqb_neq; intros ->; vm_compute in H; done.
Qed.

Lemma int_digits s :
  all_digits s = true → s ≠ "" →
  int s = Some (decimal s) ∧ int ("+" ++ s) = Some (decimal s) ∧
  int ("-" ++ s) = Some (- decimal s).
Proof.
  intros H Hne.
  pose proof (digitpart_digits s H 0 false ltac:(by left)) as Hv. fold (decimal s) in Hv.
  assert (strip ("+" ++ s) = "+" ++ s) as E1.
  { unfold strip. cbn [String.append lstrip]. change (isspace "+") with false. cbv iota.
    apply rstrip_no_space. cbn. eapply str_forall_impl;
      [|exact (all_digits_str_forall s H)]. intros c Hc. by rewrite digit_not_space. }
  assert (strip ("-" ++ s) = "-" ++ s) as E2.
  { unfold strip. cbn [String.append lstrip]. change (isspace "-") with false. cbv iota.
    apply rstrip_no_space. cbn. eapply str_forall_impl;
      [|exact (all_digits_str_forall s H)]. intros c Hc. by rewrite digit_not_space. }
  unfold int. rewrite E1, E2, (strip_digits s H). cbn [String.append].
  change (Ascii.eqb "+" "+") with true. change (Ascii.eqb "-" "+") with false.
  change (Ascii.eqb "-" "-") with true. cbv iota. rewrite Hv.
  split; [|done].
  destruct s as [|c r]; [done|]. cbn in H. apply andb_true_iff in H as [Hc _].
  destruct (digit_not_sign c Hc) as [-> ->]. done.
Qed.

(** Replacing a text whose first character does not occur. *)
Lemma replace_absent (c : ascii) (rest new s : string) :
  str_forall (λ x, negb (Ascii.eqb c x)) s = true →
  replace (String c rest) new s = s.
Proof.
  unfold replace. induction s as [|x s IH]; cbn; [done|].
  intros [Hx Hs]%andb_true_iff. apply negb_true_iff in Hx. rewrite Hx.
  f_equal. auto.
Qed.

Lemma digit_not c s :
  isdigit_char c = false → all_digits s = true →
  str_forall (λ x, negb (Ascii.eqb c x)) s = true.
Proof.
  intros Hc H%all_digits_str_forall. eapply str_forall_impl; [|exact H].
  intros x Hx. apply negb_true_iff, Ascii.eqb_neq. intros ->. congruence.
Qed.

Lemma replace_one_app (c : ascii) (a b : string) :
  replace (String c "") "" (a ++ b) =
  replace (String c "") "" a ++ replace (String c "") "" b.
Proof.
  unfold replace. induction a as [|x a IH]; cbn; [done|].
  destruct (Ascii.eqb c x); cbn; by rewrite IH.
Qed.

Lemma contains_app_r (p a b : string) :
  contains p b = true → contains p (a ++ b) = true.
Proof.
  intros H. induction a as [|x a IH]; [done|].
  cbn [String.append contains]. rewrite IH. apply orb_true_r.
Qed.

End PyParseFacts.

Section ParseNumberFacts.
Import PyStr PyStrFacts PyNumFacts PyParseFacts.
#[local] Arguments String.append : simpl nomatch.

(** X6.  On a run of one to 15 decimal digits [parse_odds] returns
    the number they denote; with a plus sign in front the same number;
    with a minus sign in front, or with the seven bytes that the function
    replaces by a minus sign, its opposite. *)
Theorem parse_odds_signs (digits : string) :
  all_digits digits = true → digits ≠ "" → (String.length digits ≤ 15)%nat →
  0 ≤ decimal digits ∧
  parse_odds (PStr digits) = decimal digits ∧
  parse_odds (PStr ("+" ++ digits)) = decimal digits ∧
  parse_odds (PStr ("-" ++ digits)) = - decimal digits ∧
  parse_odds (PStr (odd_minus ++ digits)) = - decimal digits.
Proof.
  intros H Hne _. destruct (int_digits digits H Hne) as (E0 & E1 & E2).
  assert (replace odd_minus "-" digits = digits) as R0.
  { apply replace_absent. by apply digit_not. }
  split; [by apply decimal_from_nonneg|]. unfold parse_odds.
  assert (replace odd_minus "-" ("+" ++ digits) = "+" ++ digits) as ->.
  { apply replace_absent. cbn. by apply digit_not. }
  assert (replace odd_minus "-" ("-" ++ digits) = "-" ++ digits) as ->.
  { apply replace_absent. cbn. by apply digit_not. }
  assert (replace odd_minus "-" (odd_minus ++ digits) = "-" ++ digits) as ->.
  { unfold replace. cbn. fold (replace odd_minus "-" digits). by rewrite R0. }
  by rewrite R0, E0, E1, E2.
Qed.

(** X7.  A run of one to 15 decimal digits followed by a percent sign
    passes the percentage test of [parse_bet], and [parse_percentage]
    returns the number that the digits denote, wherever the percent sign
    is and also without it; without a percent sign the test fails. *)
Theorem parse_percentage_digits (digits : string) :
  all_digits digits = true → digits ≠ "" → (String.length digits ≤ 15)%nat →
  is_percentage (digits ++ "%") = true ∧
  parse_percentage (PStr (digits ++ "%")) = decimal digits ∧
  parse_percentage (PStr ("%" ++ digits)) = decimal digits ∧
  parse_percentage (PStr digits) = decimal digits ∧
  is_percentage digits = false.
Proof.
  intros H Hne _. destruct (int_digits digits H Hne) as (E0 & _).
  assert (replace "%" "" digits = digits) as R0.
  { apply replace_absent. by apply digit_not. }
  assert (replace "%" "" (digits ++ "%") = digits) as R1.
  { rewrite replace_one_app, R0. cbn. apply app_empty_r. }
  assert (replace "%" "" ("%" ++ digits) = digits) as R2.
  { rewrite replace_one_app, R0. done. }
  unfold parse_percentage, float. rewrite R0, R1, R2, E0.
  split; [|repeat split].
  - unfold is_percentage. rewrite R1.
    assert (replace " " "" digits = digits) as ->.
    { apply replace_absent. by apply digit_not. }
    apply andb_true_iff. split.
    + by apply contains_app_r.
    + unfold isdigit. by destruct digits.
  - unfold is_percentage. apply andb_false_iff. left.
    clear -H. induction digits as [|c s IH]; [done|].
    cbn in H. apply andb_true_iff in H as [Hc Hs]. cbn [contains startswith].
    assert (Ascii.eqb "%" c = false) as ->.
    { apply Ascii.eqb_neq. intros <-. vm_compute in Hc. done. }
    cbn. by apply IH.
Qed.

End ParseNumberFacts.

Lemma parse_odds_signs_witness :
  parse_odds (PStr "+250") = 250 ∧ parse_odds (PStr "-250") = -250 ∧
  parse_odds (PStr (odd_minus ++ "250")) = -250.
Proof.
  destruct (parse_odds_signs "250") as (_ & _ & E1 & E2 & E3);
    [reflexivity | discriminate | cbn; lia |].
  split; [exact E1|]. split; [exact E2 | exact E3].
Defined.

Lemma parse_percentage_digits_witness :
  is_percentage "65%" = true ∧ parse_percentage (PStr "65%") = 65 ∧
  is_percentage "65" = false.
Proof.
  destruct (parse_percentage_digits "65") as (E1 & E2 & _ & _ & E3);
    [reflexivity | discriminate | cbn; lia |].
  split; [exact E1|]. split; [exact E2 | exact E3].
Defined.

(** ** The sport filter *)

Section FilterFacts.
Import PyStr.

Context {B : Type}.
Implicit Types (games : list (Game B)) (g : Game B).

Lemma dict_get_team_lists sport :
  sport ≠ "mlb" → sport ≠ "nba" → sport ≠ "nfl" → sport ≠ "nhl" →
  dict_get sport team_lists = None.
Proof.
  intros H1 H2 H3 H4. unfold team_lists. cbn [dict_get].
  repeat match goal with
  | |- context [String.eqb ?a sport] =>
      destruct (String.eqb_spec a sport); [congruence|]
  end. done.
Qed.

Lemma filter_idem {A} (f : A → bool) (l : list A) :
  List.filter f (List.filter f l) = List.filter f l.
Proof.
  induction l as [|x l IH]; cbn; [done|].
  destruct (f x) eqn:E; cbn; rewrite ?E, IH; done.
Qed.

Lemma filter_sublist {A} (f : A → bool) (l : list A) : sublist (List.filter f l) l.
Proof.
  induction l as [|x l IH]; cbn; [constructor|].
  destruct (f x); by constructor.
Qed.

(** X8.  [filter_games_by_sport] returns no game for a sport other
    than "mlb", "nba", "nfl" and "nhl"; what it returns is a sublist of
    the games, in their order; filtering twice is filtering once; the
    filter of a concatenation is the concatenation of the filters; and
    two games whose titles agree up to letter case are both kept or both
    dropped. *)
Theorem filter_games_by_sport_behaviour games sport :
  (sport ≠ "mlb" → sport ≠ "nba" → sport ≠ "nfl" → sport ≠ "nhl" →
   filter_games_by_sport games sport = []) ∧
  sublist (filter_games_by_sport games sport) games ∧
  filter_games_by_sport (filter_games_by_sport games sport) sport =
    filter_games_by_sport games sport ∧
  (∀ games', filter_games_by_sport (games ++ games') sport =
             (filter_games_by_sport games sport ++
              filter_games_by_sport games' sport)%list) ∧
  (∀ g g', upper (title g) = upper (title g') →
           g ∈ games → g' ∈ games →
           (g ∈ filter_games_by_sport games sport ↔
            g' ∈ filter_games_by_sport games sport)).
Proof.
  unfold filter_games_by_sport. split; [|split; [|split; [|split]]].
  - intros. by rewrite dict_get_team_lists.
  - destruct (dict_get sport team_lists); [apply filter_sublist | apply sublist_nil_l].
  - destruct (dict_get sport team_lists); [apply filter_idem | done].
  - intros games'. destruct (dict_get sport team_lists); [apply List.filter_app | reflexivity].
  - intros g g' Hu Hg Hg'. destruct (dict_get sport team_lists) as [roster|];
      [|split; intros []%elem_of_nil].
    apply list_elem_of_In in Hg, Hg'.
    rewrite !list_elem_of_In, !List.filter_In.
    unfold title_has_team. rewrite Hu. tauto.
Qed.

End FilterFacts.

Lemma filter_games_by_sport_behaviour_witness :
  filter_games_by_sport Demo.games "curling" = [] ∧
  sublist (filter_games_by_sport Demo.games "mlb") Demo.games.
Proof.
  split.
  - destruct (filter_games_by_sport_behaviour Demo.games "curling") as (H & _).
    by apply H.
  - apply (filter_games_by_sport_behaviour Demo.games "mlb").
Defined.

(** ** The copies made by [extract_all_bets] *)

Section ExtractFacts.

Local Open Scope list_scope.

(** A loop that allocates: each turn appends the objects [c x] after
    what is there and returns their references. *)
Lemma mapM_alloc {X} (f : X → M (list loc)) (c : X → list pydict) (σ : store)
    (xs : list X) :
  (∀ x acc, x ∈ xs →
     f x (σ ++ acc) = Some (seq (length σ + length acc) (length (c x)),
                            σ ++ acc ++ c x)) →
  ∀ acc,
    (do yss <- mapM f xs; ret (concat yss)) (σ ++ acc) =
    Some (seq (length σ + length acc) (length (flat_map c xs)),
          σ ++ acc ++ flat_map c xs).
Proof.
  intros Hf acc. apply bind_Some.
  enough (∃ yss, mapM f xs (σ ++ acc) = Some (yss, σ ++ acc ++ flat_map c xs) ∧
                 concat yss = seq (length σ + length acc) (length (flat_map c xs)))
    as (yss & E & C).
  { exists yss, (σ ++ acc ++ flat_map c xs). split; [done|]. unfold ret. by rewrite C. }
  revert acc. induction xs as [|x xs IH]; intros acc; cbn [mapM flat_map].
  - exists []. rewrite app_nil_r. done.
  - destruct (IH ltac:(intros; apply Hf; by right) (acc ++ c x)) as (yss & E & C).
    exists (seq (length σ + length acc) (length (c x)) :: yss). split.
    + apply bind_Some. eexists _, _. split; [apply Hf; by left|].
      apply bind_Some. rewrite <- ?app_assoc in E.
      eexists _, _. split; [exact E|]. done.
    + cbn [concat]. rewrite C, !length_app, seq_app. f_equal. f_equal. lia.
Qed.

Lemma copy_bets_alloc (g : Game loc) (mt : string) (σ : store) (bets : list loc) :
  Forall (λ bet, (bet < length σ)%nat) bets →
  ∀ acc,
    mapM (λ bet, do d <- deref bet; new_dict (with_context g mt d)) bets (σ ++ acc) =
    Some (seq (length σ + length acc) (length bets),
          σ ++ acc ++ List.map (λ bet, with_context g mt (default ∅ (σ !! bet))) bets).
Proof.
  induction 1 as [|bet bets Hb _ IH]; intros acc; cbn [mapM List.map length seq].
  - by rewrite app_nil_r.
  - apply bind_Some. apply lookup_lt_is_Some_2 in Hb as [d Hd].
    exists (length σ + length acc)%nat, (σ ++ acc ++ [with_context g mt d]). split.
    + apply bind_Some. exists d, (σ ++ acc). split.
      * apply deref_Some. split; [done|]. by apply lookup_app_l_Some.
      * apply new_dict_Some. by rewrite length_app, <- app_assoc.
    + apply bind_Some. specialize (IH (acc ++ [with_context g mt d])).
      rewrite <- ?app_assoc in IH. rewrite length_app in IH. cbn [length] in IH.
      replace (length σ + (length acc + 1))%nat with (S (length σ + length acc)) in IH by lia.
      eexists _, _. split; [exact IH|]. rewrite Hd. done.
Qed.

Lemma extract_all_bets_alloc (games : list (Game loc)) (σ : store) :
  bets_stored games σ →
  extract_all_bets games σ =
    Some (seq (length σ) (length (context_copies σ games)),
          σ ++ context_copies σ games).
Proof.
  intros Hs. unfold extract_all_bets, context_copies.
  set (copies_of := λ g : Game loc,
         flat_map (λ m : string * list loc,
                     List.map (λ bet, with_context g m.1 (default ∅ (σ !! bet))) m.2)
           (markets g)).
  set (per_game := λ game : Game loc,
         do per_market <-
           mapM (λ '(market_type, bets),
             mapM (λ bet,
               do d <- deref bet;
               new_dict (<["market_type" := PStr market_type]>
                         (<["home_team" := PStr (home_team game)]>
                          (<["away_team" := PStr (away_team game)]>
                           (<["game_time" := PStr (time game)]>
                            (<["game_title" := PStr (title game)]> d))))))
               bets)
             (markets game);
         ret (concat per_market)).
  assert (∀ g acc, g ∈ games →
            per_game g (σ ++ acc) =
            Some (seq (length σ + length acc) (length (copies_of g)),
                  σ ++ acc ++ copies_of g)) as Hstep.
  { intros g acc Hg. unfold per_game, copies_of.
    apply (mapM_alloc
      (λ '(market_type, bets),
         mapM (λ bet, do d <- deref bet; new_dict (with_context g market_type d)) bets)
      (λ m, List.map (λ bet, with_context g m.1 (default ∅ (σ !! bet))) m.2)).
    intros [mt bets] acc' Hm. rewrite length_map. apply copy_bets_alloc.
    apply Forall_forall. intros bet Hbet. by apply (Hs g (mt, bets)). }
  pose proof (mapM_alloc per_game copies_of σ games Hstep []) as A.
  by rewrite Nat.add_0_r, app_nil_r in A.
Qed.

Lemma Forall2_map_self {A B} (h : A → B) (l : list A) :
  Forall2 (λ a b, a ∈ l ∧ b = h a) l (List.map h l).
Proof.
  induction l as [|a l IH]; cbn; constructor; [split; [left | done]|].
  eapply Forall2_impl; [exact IH|]. intros x y [Hx ->]. split; [by right | done].
Qed.

Lemma Forall2_flat_map {A B C} (P : A → B → C → Prop) (f : A → list B)
    (f' : A → list C) (l : list A) :
  (∀ a, a ∈ l → Forall2 (P a) (f a) (f' a)) →
  Forall2 (λ b c, ∃ a, a ∈ l ∧ P a b c) (flat_map f l) (flat_map f' l).
Proof.
  induction l as [|a l IH]; intros H; cbn [flat_map]; [constructor|].
  apply Forall2_app.
  - eapply Forall2_impl; [apply H; left|]. intros b c Hbc. exists a. split; [left | done].
  - eapply Forall2_impl; [apply IH; intros; apply H; by right|].
    intros b c (a' & Ha' & Hbc). exists a'. split; [by right | done].
Qed.

Lemma context_copies_spec (σ : store) (games : list (Game loc)) :
  Forall2 (λ bet d, ∃ g m, g ∈ games ∧ m ∈ markets g ∧ bet ∈ m.2 ∧
                           d = with_context g m.1 (default ∅ (σ !! bet)))
    (stored_refs games) (context_copies σ games).
Proof.
  unfold stored_refs, context_copies.
  eapply Forall2_impl.
  - apply (Forall2_flat_map
             (λ g bet d, ∃ m, m ∈ markets g ∧ bet ∈ m.2 ∧
                              d = with_context g m.1 (default ∅ (σ !! bet)))).
    intros g _.
    apply (Forall2_flat_map
             (λ (m : string * list loc) bet d,
                bet ∈ m.2 ∧ d = with_context g m.1 (default ∅ (σ !! bet)))).
    intros m _. apply Forall2_map_self.
  - intros bet d (g & Hg & m & Hm & Hb & ->). by exists g, m.
Qed.

(** X9.  When every bet of the games is an object of the store,
    [extract_all_bets] returns: it appends to the store one new
    dictionary per bet, in the order of the games, their markets and
    their bets, each the bet's dictionary with the five keys market_type,
    home_team, away_team, game_time and game_title set from its market
    and game; it returns the references of these copies in that order and
    changes nothing that was in the store. *)
Theorem extract_all_bets_copies (games : list (Game loc)) (σ : store) :
  bets_stored games σ →
  extract_all_bets games σ =
    Some (seq (length σ) (length (stored_refs games)),
          σ ++ context_copies σ games) ∧
  Forall2 (λ bet d, ∃ g m, g ∈ games ∧ m ∈ markets g ∧ bet ∈ m.2 ∧
                           d = with_context g m.1 (default ∅ (σ !! bet)))
    (stored_refs games) (context_copies σ games).
Proof.
  intros Hs. pose proof (context_copies_spec σ games) as Hc. split; [|done].
  rewrite (Forall2_length _ _ _ Hc). by apply extract_all_bets_alloc.
Qed.

End ExtractFacts.

Lemma extract_all_bets_copies_witness :
  extract_all_bets Demo.games Demo.bets =
    Some (seq (length Demo.bets) (length (stored_refs Demo.games)),
          (Demo.bets ++ context_copies Demo.bets Demo.games)%list) ∧
  stored_refs Demo.games = [0; 1; 2; 3; 4]%nat ∧
  seq (length Demo.bets) (length (stored_refs Demo.games)) = [5; 6; 7; 8; 9]%nat.
Proof.
  split; [|split; vm_compute; reflexivity].
  destruct (extract_all_bets_copies Demo.games Demo.bets) as [H _]; [|exact H].
  apply bets_stored_check. vm_compute. reflexivity.
Defined.

(** ** Selection and ranking *)

Section SelectionFacts.

Local Open Scope list_scope.

Ltac bind_in H x σ Hx :=
  apply bind_Some in H as (x & σ & Hx & H); cbv beta in H.

(** A loop whose test gives the value of [g], whatever the store has
    become, keeps the elements that pass [g]. *)
Lemma filterM_filter {A} (f : A → M bool) (R : relation store) `{!PreOrder R}
    (g : A → bool) (σ0 : store) (l : list A) :
  (∀ x σ b σ', x ∈ l → R σ0 σ → f x σ = Some (b, σ') → R σ σ' ∧ b = g x) →
  ∀ σ xs σ', R σ0 σ → filterM f l σ = Some (xs, σ') → xs = List.filter g l.
Proof.
  induction l as [|x l IH]; intros Hf σ xs σ' H0; cbn [filterM List.filter].
  - by intros [-> ->]%ret_Some.
  - intros (b & σ1 & Hb & (xs' & σ2 & Hxs & [-> ->]%ret_Some)%bind_Some)%bind_Some.
    destruct (Hf x σ b σ1 ltac:(left) H0 Hb) as [R1 ->].
    rewrite (IH ltac:(intros; eapply Hf; eauto; by right) σ1 xs' σ2); [done| |done].
    by etrans.
Qed.

Lemma evolves_same_keys n σ σ' l d :
  evolves n σ σ' → σ !! l = Some d →
  ∃ d', σ' !! l = Some d' ∧
        d' !! "odds" = d !! "odds" ∧ d' !! "handle_pct" = d !! "handle_pct" ∧
        d' !! "bets_pct" = d !! "bets_pct" ∧ d' !! "market_type" = d !! "market_type".
Proof.
  intros E Hd. destruct (evolves_lookup _ _ _ _ _ E Hd) as (d' & Hd' & (K & _)).
  exists d'. by rewrite !K.
Qed.

Lemma tests_evolve n σ σ' l :
  evolves n σ σ' → is_Some (σ !! l) →
  is_non_total σ' l = is_non_total σ l ∧ is_longshot σ' l = is_longshot σ l ∧
  is_rich σ' l = is_rich σ l ∧ is_square σ' l = is_square σ l ∧
  key_at handle_minus_bets σ' l = key_at handle_minus_bets σ l ∧
  key_at bets_minus_handle σ' l = key_at bets_minus_handle σ l ∧
  key_at handle_of σ' l = key_at handle_of σ l.
Proof.
  intros E [d Hd].
  destruct (evolves_same_keys _ _ _ _ _ E Hd) as (d' & Hd' & Ko & Kh & Kb & Km).
  unfold is_non_total, is_longshot, is_rich, is_square, key_at,
    handle_minus_bets, bets_minus_handle, handle_of.
  by rewrite Hd, Hd', Ko, Kh, Kb, Km.
Qed.


End SelectionFacts.

Section SelectionTheorems.

Local Open Scope list_scope.

Ltac bind_in H x σ Hx :=
  apply bind_Some in H as (x & σ & Hx & H); cbv beta in H.

Lemma copy_in_store games σ l : copy_of games σ l → is_Some (σ !! l).
Proof. intros (g & d & _ & Hd & _). eauto. Qed.

(** One turn of the loop of [sharpest_longshot_bets]. *)
Lemma longshot_turn n x σa b σb :
  (n ≤ x)%nat →
  (do o <- getitem x "odds";
   do h <- getitem x "handle_pct";
   do b <- getitem x "bets_pct";
   let odds := parse_odds o in
   let handle_pct := parse_percentage h in
   let bets_pct := parse_percentage b in
   if 200 <=? odds then
     if bets_pct + 30 <=? handle_pct then
       do _ <- setitem x "handle_vs_bets_diff" (PFloat (handle_pct - bets_pct));
       ret true
     else ret false
   else ret false) σa = Some (b, σb) →
  evolves n σa σb ∧ b = is_longshot σa x ∧
  (b = true → has_score "handle_vs_bets_diff" handle_minus_bets σb x).
Proof.
  intros Hn Hb.
  bind_in Hb o σ3 Ho. apply getitem_Some in Ho as [-> (d & Hd & Ho)].
  bind_in Hb h σ3 Hh. apply getitem_Some in Hh as [-> (d' & Hd' & Hh)].
  assert (d' = d) as -> by congruence.
  bind_in Hb bp σ3 Hbp. apply getitem_Some in Hbp as [-> (d' & Hd'' & Hbp)].
  assert (d' = d) as -> by congruence.
  assert (is_longshot σa x =
          (200 <=? parse_odds o) && (parse_percentage bp + 30 <=? parse_percentage h)) as Ht.
  { unfold is_longshot. by rewrite Hd, Ho, Hh, Hbp. }
  rewrite Ht. cbv zeta in Hb.
  destruct (200 <=? parse_odds o);
    [|apply ret_Some in Hb as [-> ->]; split; [reflexivity | done]].
  destruct (parse_percentage bp + 30 <=? parse_percentage h);
    [|apply ret_Some in Hb as [-> ->]; split; [reflexivity | done]].
  bind_in Hb u σ3 Hset. apply setitem_Some in Hset as (d' & Hd3 & ->).
  assert (d' = d) as -> by congruence.
  apply ret_Some in Hb as [-> ->].
  assert (handle_minus_bets d = parse_percentage h - parse_percentage bp) as Hhmb.
  { unfold handle_minus_bets. by rewrite Hh, Hbp. }
  split; [|split; [done|]].
  - apply evolves_setitem; [done..|]. left. by rewrite Hhmb.
  - intros _. eexists. split; [apply list_lookup_insert_eq; by eapply lookup_lt_Some|].
    assert (handle_minus_bets
              (<["handle_vs_bets_diff":=PFloat (parse_percentage h - parse_percentage bp)]> d)
            = parse_percentage h - parse_percentage bp) as ->.
    { unfold handle_minus_bets. by rewrite !lookup_insert_ne, Hh, Hbp by done. }
    apply lookup_insert_eq.
Qed.

Lemma filterM_reads {A} (f : A → M bool) (g : A → bool) (σ : store) (l : list A) :
  (∀ x b σ', x ∈ l → f x σ = Some (b, σ') → σ' = σ ∧ b = g x) →
  ∀ xs σ', filterM f l σ = Some (xs, σ') → σ' = σ ∧ xs = List.filter g l.
Proof.
  induction l as [|x l IH]; intros Hf xs σ'; cbn [filterM List.filter].
  - by intros [-> ->]%ret_Some.
  - intros (b & σ1 & Hb & (xs' & σ2 & Hxs & [-> ->]%ret_Some)%bind_Some)%bind_Some.
    destruct (Hf x b σ1 ltac:(left) Hb) as [-> ->].
    destruct (IH ltac:(intros; eapply Hf; eauto; by right) xs' σ2 Hxs) as [-> ->].
    done.
Qed.

Lemma not_total_reads σ l xs σ' :
  filterM not_total l σ = Some (xs, σ') →
  σ' = σ ∧ xs = List.filter (is_non_total σ) l.
Proof.
  apply filterM_reads. intros x b σ1 _. unfold not_total.
  intros (ty & σ2 & [-> (d & Hd & Ht)]%getitem_Some & [-> ->]%ret_Some)%bind_Some.
  split; [done|]. unfold is_non_total. by rewrite Hd, Ht.
Qed.

(** One turn of [square_loop]. *)
Lemma square_turn n x σa b σb :
  (n ≤ x)%nat →
  (do h <- getitem x "handle_pct";
   do b <- getitem x "bets_pct";
   let handle_pct := parse_percentage h in
   let bets_pct := parse_percentage b in
   let square_score := bets_pct - handle_pct in
   if 0 <? square_score then
     do _ <- setitem x "square_score" (PFloat square_score);
     ret true
   else ret false) σa = Some (b, σb) →
  evolves n σa σb ∧ b = is_square σa x ∧
  (b = true → has_score "square_score" bets_minus_handle σb x).
Proof.
  intros Hn Hb.
  bind_in Hb h σ3 Hh. apply getitem_Some in Hh as [-> (d & Hd & Hh)].
  bind_in Hb bp σ3 Hbp. apply getitem_Some in Hbp as [-> (d' & Hd' & Hbp)].
  assert (d' = d) as -> by congruence.
  assert (is_square σa x = (0 <? parse_percentage bp - parse_percentage h)) as Ht.
  { unfold is_square. by rewrite Hd, Hh, Hbp. }
  rewrite Ht. cbv zeta in Hb.
  destruct (0 <? parse_percentage bp - parse_percentage h);
    [|apply ret_Some in Hb as [-> ->]; split; [reflexivity | done]].
  bind_in Hb u σ3 Hset. apply setitem_Some in Hset as (d' & Hd3 & ->).
  assert (d' = d) as -> by congruence.
  apply ret_Some in Hb as [-> ->].
  assert (bets_minus_handle d = parse_percentage bp - parse_percentage h) as Hbmh.
  { unfold bets_minus_handle. by rewrite Hh, Hbp. }
  split; [|split; [done|]].
  - apply evolves_setitem; [done..|]. right. by rewrite Hbmh.
  - intros _. eexists. split; [apply list_lookup_insert_eq; by eapply lookup_lt_Some|].
    assert (bets_minus_handle
              (<["square_score":=PFloat (parse_percentage bp - parse_percentage h)]> d)
            = parse_percentage bp - parse_percentage h) as ->.
    { unfold bets_minus_handle. by rewrite !lookup_insert_ne, Hh, Hbp by done. }
    apply lookup_insert_eq.
Qed.


(** ** The ranking as a list function *)

Lemma ranking_perm f σ l : Permutation (ranking f σ l) l.
Proof.
  unfold ranking. rewrite sorted_desc_perm, List.map_map. cbn. by rewrite List.map_id.
Qed.






Lemma slice_to_nil {A} (limit : Z) : slice_to limit (@nil A) = [].
Proof. unfold slice_to. destruct (0 <=? limit); by rewrite take_nil. Qed.



(** ** The result of each query as a list function of the copies *)

Lemma rank_exact (key : loc → M Z) (f : pydict → Z) (limit : Z) σ l res σ' :
  (∀ x v σ1, x ∈ l → key x σ = Some (v, σ1) → σ1 = σ ∧ v = key_at f σ x) →
  (do s <- sort_by_key key l; ret (slice_to limit s)) σ = Some (res, σ') →
  σ' = σ ∧ res = slice_to limit (ranking f σ l).
Proof.
  intros Hk (s & σ1 & Hs & [-> ->]%ret_Some)%bind_Some. unfold sort_by_key in Hs.
  apply bind_Some in Hs as (keys & σ2 & Hm & [-> ->]%ret_Some).
  destruct (mapM_reads key (key_at f σ) σ l Hk keys σ2 Hm) as [-> ->].
  by rewrite combine_keys.
Qed.

Lemma sort_exact (key : loc → M Z) (f : pydict → Z) σ l res σ' :
  (∀ x v σ1, x ∈ l → key x σ = Some (v, σ1) → σ1 = σ ∧ v = key_at f σ x) →
  sort_by_key key l σ = Some (res, σ') →
  σ' = σ ∧ res = ranking f σ l.
Proof.
  intros Hk Hs. unfold sort_by_key in Hs.
  apply bind_Some in Hs as (keys & σ2 & Hm & [-> ->]%ret_Some).
  destruct (mapM_reads key (key_at f σ) σ l Hk keys σ2 Hm) as [-> ->].
  by rewrite combine_keys.
Qed.

Lemma filter_tests_evolve (t : store → loc → bool) n σ σ' (l : list loc) :
  (∀ x, is_Some (σ !! x) → t σ' x = t σ x) →
  evolves n σ σ' → Forall (λ x, is_Some (σ !! x)) l →
  List.filter (t σ) l = List.filter (t σ') l.
Proof.
  intros Ht _ Hl. apply List.filter_ext_in. intros x Hx%list_elem_of_In.
  rewrite Forall_forall in Hl. symmetry. by apply Ht, Hl.
Qed.

Lemma copies_in_store games σ all_bets σ1 :
  extract_all_bets games σ = Some (all_bets, σ1) →
  Forall (λ l, (length σ ≤ l)%nat) all_bets ∧ Forall (λ x, is_Some (σ1 !! x)) all_bets.
Proof.
  intros (_ & F1 & C1)%extract_all_bets_spec. split; [done|].
  eapply Forall_impl; [exact C1|]. intros x. apply copy_in_store.
Qed.

Lemma big_bettor_alerts_exact games limit σ res σ' :
  big_bettor_alerts games limit σ = Some (res, σ') →
  ∃ all_bets,
    extract_all_bets games σ = Some (all_bets, σ') ∧
    res = slice_to limit (ranking handle_of σ' (List.filter (is_non_total σ') all_bets)).
Proof.
  unfold big_bettor_alerts. intros H.
  bind_in H all_bets σ1 H1. bind_in H nt σ2 H2.
  apply not_total_reads in H2 as [-> ->].
  apply rank_exact with (f := handle_of) in H as [-> ->];
    [|intros; by apply handle_key_reads].
  by exists all_bets.
Qed.

Lemma sharpest_longshot_bets_exact games limit σ res σ' :
  sharpest_longshot_bets games limit σ = Some (res, σ') →
  ∃ all_bets σ1,
    extract_all_bets games σ = Some (all_bets, σ1) ∧ evolves (length σ) σ1 σ' ∧
    res = slice_to limit
            (ranking handle_minus_bets σ' (List.filter (is_longshot σ') all_bets)).
Proof.
  unfold sharpest_longshot_bets. intros H.
  bind_in H all_bets σ1 H1. bind_in H sharp σ2 H2.
  exists all_bets, σ1. split; [done|].
  apply copies_in_store in H1 as (F1 & C1).
  set (n := length σ) in *. rewrite Forall_forall in F1.
  assert (sharp = List.filter (is_longshot σ1) all_bets) as Hsharp.
  { eapply (filterM_filter _ (evolves n) (is_longshot σ1) σ1 all_bets);
      [|reflexivity|exact H2].
    intros x σa b σb Hx Ea Hb.
    apply (longshot_turn n) in Hb as (Eb & -> & _); [|by apply F1].
    split; [done|]. apply (tests_evolve n σ1 σa x Ea).
    rewrite Forall_forall in C1. by apply C1. }
  eapply (filterM_spec _ (evolves n)
            (λ l σ, has_score "handle_vs_bets_diff" handle_minus_bets σ l)
            σ1 all_bets) in H2 as (E2 & P2 & S2); [| |clear H2|reflexivity].
  2: { intros; by eapply has_diff_stable. }
  2: { intros x σa b σb Hx _ Hb.
       apply (longshot_turn n) in Hb as (Eb & _ & Hs); [done | by apply F1]. }
  apply rank_exact with (f := handle_minus_bets) in H as [-> ->].
  2: { intros x v σ3 Hx. rewrite Forall_forall in P2. apply float_key_reads. by apply P2. }
  split; [done|]. rewrite Hsharp. do 2 f_equal.
  apply (filter_tests_evolve is_longshot n); [|done..].
  intros x Hx. by apply (tests_evolve n σ1 σ2 x E2).
Qed.

Lemma rich_reads σ l xs σ' :
  filterM (λ bet,
    do o <- getitem bet "odds";
    do h <- getitem bet "handle_pct";
    ret ((400 <=? parse_odds o) && (30 <=? parse_percentage h))) l σ = Some (xs, σ') →
  σ' = σ ∧ xs = List.filter (is_rich σ) l.
Proof.
  apply filterM_reads. intros x b σ3 _ Hb.
  bind_in Hb o σ4 Ho. apply getitem_Some in Ho as [-> (d & Hd & Ho)].
  bind_in Hb h σ4 Hh. apply getitem_Some in Hh as [-> (d' & Hd' & Hh)].
  assert (d' = d) as -> by congruence.
  apply ret_Some in Hb as [-> ->]. split; [done|].
  unfold is_rich. by rewrite Hd, Ho, Hh.
Qed.

Lemma get_rich_quick_scheme_exact games σ res σ' :
  get_rich_quick_scheme games σ = Some (res, σ') →
  ∃ all_bets,
    extract_all_bets games σ = Some (all_bets, σ') ∧
    res = ranking handle_of σ' (List.filter (is_rich σ') all_bets).
Proof.
  unfold get_rich_quick_scheme. intros H.
  bind_in H all_bets σ1 H1. bind_in H rq σ2 H2.
  apply rich_reads in H2 as [-> ->].
  apply sort_exact with (f := handle_of) in H as [-> ->];
    [|intros; by apply handle_key_reads].
  by exists all_bets.
Qed.

Lemma biggest_square_bets_exact games limit σ res σ' :
  biggest_square_bets games limit σ = Some (res, σ') →
  ∃ all_bets σ1,
    extract_all_bets games σ = Some (all_bets, σ1) ∧ evolves (length σ) σ1 σ' ∧
    res = slice_to limit
            (ranking bets_minus_handle σ' (List.filter (is_square σ') all_bets)).
Proof.
  unfold biggest_square_bets, square_loop. intros H.
  bind_in H all_bets σ1 H1. bind_in H sq σ2 H2.
  exists all_bets, σ1. split; [done|].
  apply copies_in_store in H1 as (F1 & C1).
  set (n := length σ) in *. rewrite Forall_forall in F1.
  assert (sq = List.filter (is_square σ1) all_bets) as Hsq.
  { eapply (filterM_filter _ (evolves n) (is_square σ1) σ1 all_bets);
      [|reflexivity|exact H2].
    intros x σa b σb Hx Ea Hb.
    apply (square_turn n) in Hb as (Eb & -> & _); [|by apply F1].
    split; [done|]. apply (tests_evolve n σ1 σa x Ea).
    rewrite Forall_forall in C1. by apply C1. }
  eapply (filterM_spec _ (evolves n)
            (λ l σ, has_score "square_score" bets_minus_handle σ l)
            σ1 all_bets) in H2 as (E2 & P2 & S2); [| |clear H2|reflexivity].
  2: { intros; by eapply has_square_stable. }
  2: { intros x σa b σb Hx _ Hb.
       apply (square_turn n) in Hb as (Eb & _ & Hs); [done | by apply F1]. }
  apply rank_exact with (f := bets_minus_handle) in H as [-> ->].
  2: { intros x v σ3 Hx. rewrite Forall_forall in P2. apply float_key_reads. by apply P2. }
  split; [done|]. rewrite Hsq. do 2 f_equal.
  apply (filter_tests_evolve is_square n); [|done..].
  intros x Hx. by apply (tests_evolve n σ1 σ2 x E2).
Qed.

Lemma square_by_sport_eq games sport limit σ :
  biggest_square_bets_by_sport games sport limit σ =
  biggest_square_bets (filter_games_by_sport games sport) limit σ.
Proof.
  unfold biggest_square_bets_by_sport, biggest_square_bets.
  destruct (filter_games_by_sport games sport) as [|g gs]; [|done].
  unfold extract_all_bets, square_loop, sort_by_key, bind, ret. cbn.
  by rewrite slice_to_nil.
Qed.

(** One turn of the loop of [big_bettor_alerts_by_sport] that stores the
    difference. *)
Lemma diff_turn n x σa u σb :
  (n ≤ x)%nat →
  (do h <- getitem x "handle_pct";
   do b <- getitem x "bets_pct";
   let handle_pct := parse_percentage h in
   let bets_pct := parse_percentage b in
   setitem x "handle_vs_bets_diff" (PFloat (handle_pct - bets_pct))) σa = Some (u, σb) →
  evolves n σa σb ∧ has_score "handle_vs_bets_diff" handle_minus_bets σb x.
Proof.
  intros Hn Hb.
  bind_in Hb h σ4 Hh. apply getitem_Some in Hh as [-> (d & Hd & Hh)].
  bind_in Hb bp σ4 Hbp. apply getitem_Some in Hbp as [-> (d' & Hd' & Hbp)].
  assert (d' = d) as -> by congruence.
  apply setitem_Some in Hb as (d' & Hd'' & ->).
  assert (d' = d) as -> by congruence.
  assert (handle_minus_bets d = parse_percentage h - parse_percentage bp) as Hhmb.
  { unfold handle_minus_bets. by rewrite Hh, Hbp. }
  split.
  - apply evolves_setitem; [done..|]. left. by rewrite Hhmb.
  - set (d1 := <["handle_vs_bets_diff":=PFloat (parse_percentage h - parse_percentage bp)]> d).
    exists d1. split; [apply list_lookup_insert_eq; by eapply lookup_lt_Some|].
    assert (handle_minus_bets d1 = parse_percentage h - parse_percentage bp) as ->.
    { unfold handle_minus_bets, d1. by rewrite !lookup_insert_ne, Hh, Hbp by done. }
    apply lookup_insert_eq.
Qed.

Lemma big_bettor_alerts_by_sport_exact games sport limit σ res σ' :
  big_bettor_alerts_by_sport games sport limit σ = Some (res, σ') →
  ∃ all_bets σ1,
    extract_all_bets (filter_games_by_sport games sport) σ = Some (all_bets, σ1) ∧
    evolves (length σ) σ1 σ' ∧
    res = slice_to limit
            (ranking handle_minus_bets σ' (List.filter (is_non_total σ') all_bets)).
Proof.
  unfold big_bettor_alerts_by_sport.
  destruct (filter_games_by_sport games sport) as [|g gs] eqn:Hsg.
  { intros [-> ->]%ret_Some. exists [], σ. split; [done|]. split; [reflexivity|].
    cbn. by rewrite slice_to_nil. }
  rewrite <- Hsg. clear Hsg g gs. intros H.
  bind_in H all_bets σ1 H1. bind_in H nt σ2 H2. bind_in H us σ3 H3.
  exists all_bets, σ1. split; [done|].
  apply copies_in_store in H1 as (F1 & C1).
  set (n := length σ) in *. rewrite Forall_forall in F1.
  apply not_total_reads in H2 as [-> ->].
  eapply (mapM_spec _ (evolves n)
            (λ l _ σ, has_score "handle_vs_bets_diff" handle_minus_bets σ l)
            σ1 (List.filter (is_non_total σ1) all_bets)) in H3 as (E3 & P3);
    [| |clear H3|reflexivity].
  2: { intros; by eapply has_diff_stable. }
  2: { intros x σa u σb [Hx _]%list_elem_of_In%List.filter_In _ Hb.
       apply (diff_turn n) in Hb; [done|]. by apply F1, list_elem_of_In. }
  assert (Forall (has_score "handle_vs_bets_diff" handle_minus_bets σ3)
            (List.filter (is_non_total σ1) all_bets)) as P3'.
  { clear -P3. induction P3; constructor; auto. }
  apply rank_exact with (f := handle_minus_bets) in H as [-> ->].
  2: { intros x v σ4 Hx. rewrite Forall_forall in P3'. apply float_key_reads. by apply P3'. }
  split; [done|]. do 2 f_equal.
  apply (filter_tests_evolve is_non_total n); [|done..].
  intros x Hx. by apply (tests_evolve n σ1 σ3 x E3).
Qed.

Lemma run_query_exact q games σ res σ' :
  run_query q games σ = Some (res, σ') →
  ∃ all_bets σ1,
    extract_all_bets (query_games q games) σ = Some (all_bets, σ1) ∧
    evolves (length σ) σ1 σ' ∧
    res = cut (query_limit q)
            (ranking (rank_key q) σ' (List.filter (query_test q σ') all_bets)).
Proof.
  destruct q as [limit|limit| |limit|sport limit|sport limit]; cbn.
  - intros (all_bets & H1 & ->)%big_bettor_alerts_exact.
    exists all_bets, σ'. split; [done|]. split; [|done].
    apply extract_all_bets_spec in H1 as (E1 & _). reflexivity.
  - apply sharpest_longshot_bets_exact.
  - intros (all_bets & H1 & ->)%get_rich_quick_scheme_exact.
    exists all_bets, σ'. split; [done|]. split; [reflexivity | done].
  - apply biggest_square_bets_exact.
  - apply big_bettor_alerts_by_sport_exact.
  - rewrite square_by_sport_eq. apply biggest_square_bets_exact.
Qed.




(** X13.  [biggest_square_bets_by_sport] is [biggest_square_bets] on
    the games kept by [filter_games_by_sport]: same result and same
    effect on the store, whatever the sport and the limit. *)
Theorem biggest_square_bets_by_sport_filters (games : list (Game loc))
    (sport : string) (limit : Z) (σ : store) :
  biggest_square_bets_by_sport games sport limit σ =
  biggest_square_bets (filter_games_by_sport games sport) limit σ.
Proof.
  unfold biggest_square_bets_by_sport, biggest_square_bets.
  destruct (filter_games_by_sport games sport) as [|g gs]; [|done].
  unfold extract_all_bets, square_loop, sort_by_key, bind, ret. cbn.
  by rewrite slice_to_nil.
Qed.

(** Ranking under two limits. *)
Lemma slice_bind_prefix (m : M (list loc)) (a b : Z) σ rb σ' :
  0 ≤ a ≤ b →
  (do s <- m; ret (slice_to b s)) σ = Some (rb, σ') →
  (do s <- m; ret (slice_to a s)) σ = Some (take (Z.to_nat a) rb, σ').
Proof.
  intros Hab (s & σ1 & Hm & [-> ->]%ret_Some)%bind_Some.
  apply bind_Some. exists s, σ1. split; [done|]. unfold ret, slice_to.
  assert ((0 <=? a) = true) as -> by lia. assert ((0 <=? b) = true) as -> by lia.
  rewrite take_take. do 3 f_equal. lia.
Qed.

Lemma bind_prefix {A B} (m : M A) (k k' : A → M B) (g : B → B) σ r σ' :
  (∀ x σ1 r σ', k x σ1 = Some (r, σ') → k' x σ1 = Some (g r, σ')) →
  bind m k σ = Some (r, σ') → bind m k' σ = Some (g r, σ').
Proof.
  intros Hk (x & σ1 & Hm & Hr)%bind_Some. apply bind_Some. eauto.
Qed.

(** X14.  For each of the five queries with a limit, and two limits
    [0 ≤ a ≤ b]: when the query returns with limit [b], it returns with
    limit [a] too, with the same final store, and its result is the first
    [a] bets of the result for [b]. *)
Theorem limit_takes_prefix (games : list (Game loc)) (sport : string)
    (a b : Z) (σ : store) (res : list loc) (σ' : store) :
  0 ≤ a ≤ b →
  (big_bettor_alerts games b σ = Some (res, σ') →
   big_bettor_alerts games a σ = Some (take (Z.to_nat a) res, σ')) ∧
  (sharpest_longshot_bets games b σ = Some (res, σ') →
   sharpest_longshot_bets games a σ = Some (take (Z.to_nat a) res, σ')) ∧
  (biggest_square_bets games b σ = Some (res, σ') →
   biggest_square_bets games a σ = Some (take (Z.to_nat a) res, σ')) ∧
  (big_bettor_alerts_by_sport games sport b σ = Some (res, σ') →
   big_bettor_alerts_by_sport games sport a σ = Some (take (Z.to_nat a) res, σ')) ∧
  (biggest_square_bets_by_sport games sport b σ = Some (res, σ') →
   biggest_square_bets_by_sport games sport a σ = Some (take (Z.to_nat a) res, σ')).
Proof.
  intros Hab.
  unfold big_bettor_alerts, sharpest_longshot_bets, biggest_square_bets,
    big_bettor_alerts_by_sport, biggest_square_bets_by_sport.
  repeat split.
  - apply bind_prefix. intros ????. apply bind_prefix. intros ????.
    by apply slice_bind_prefix.
  - apply bind_prefix. intros ????. apply bind_prefix. intros ????.
    by apply slice_bind_prefix.
  - apply bind_prefix. intros ????. apply bind_prefix. intros ????.
    by apply slice_bind_prefix.
  - destruct (filter_games_by_sport games sport).
    + intros [-> ->]%ret_Some. by rewrite take_nil.
    + apply bind_prefix. intros ????. apply bind_prefix. intros ????.
      apply bind_prefix. intros ????. by apply slice_bind_prefix.
  - destruct (filter_games_by_sport games sport).
    + intros [-> ->]%ret_Some. by rewrite take_nil.
    + apply bind_prefix. intros ????. apply bind_prefix. intros ????.
      by apply slice_bind_prefix.
Qed.

End SelectionTheorems.




Lemma limit_takes_prefix_witness :
  let r := Demo.outcome (big_bettor_alerts Demo.games 7) in
  big_bettor_alerts Demo.games 7 Demo.bets = Some (r.1, r.2) ∧
  big_bettor_alerts Demo.games 1 Demo.bets = Some (take 1 r.1, r.2).
Proof.
  intros r.
  assert (big_bettor_alerts Demo.games 7 Demo.bets = Some (r.1, r.2)) as E
    by (apply outcome_Some; vm_compute; reflexivity).
  destruct (limit_takes_prefix Demo.games "mlb" 1 7 Demo.bets r.1 r.2 ltac:(lia))
    as (H & _).
  split; [exact E | exact (H E)].
Defined.

(** ** The queries return *)

Section ReturnFacts.

Local Open Scope list_scope.

Ltac bind_in H x σ Hx :=
  apply bind_Some in H as (x & σ & Hx & H); cbv beta in H.

Lemma filterM_returns {A} (f : A → M bool) (R : relation store) `{!PreOrder R}
    (σ0 : store) (l : list A) :
  (∀ x σ, x ∈ l → R σ0 σ → ∃ b σ', f x σ = Some (b, σ') ∧ R σ σ') →
  ∀ σ, R σ0 σ → ∃ xs σ', filterM f l σ = Some (xs, σ') ∧ R σ σ'.
Proof.
  induction l as [|x l IH]; intros Hf σ H0; cbn [filterM].
  - exists [], σ. done.
  - destruct (Hf x σ ltac:(left) H0) as (b & σ1 & Hb & R1).
    destruct (IH ltac:(intros; eapply Hf; eauto; by right) σ1 ltac:(by etrans))
      as (xs & σ2 & Hxs & R2).
    exists (if b then x :: xs else xs), σ2. split; [|by etrans].
    apply bind_Some. exists b, σ1. split; [done|].
    apply bind_Some. exists xs, σ2. done.
Qed.

Lemma mapM_returns {A B} (f : A → M B) (R : relation store) `{!PreOrder R}
    (σ0 : store) (l : list A) :
  (∀ x σ, x ∈ l → R σ0 σ → ∃ y σ', f x σ = Some (y, σ') ∧ R σ σ') →
  ∀ σ, R σ0 σ → ∃ ys σ', mapM f l σ = Some (ys, σ') ∧ R σ σ'.
Proof.
  induction l as [|x l IH]; intros Hf σ H0; cbn [mapM].
  - exists [], σ. done.
  - destruct (Hf x σ ltac:(left) H0) as (y & σ1 & Hy & R1).
    destruct (IH ltac:(intros; eapply Hf; eauto; by right) σ1 ltac:(by etrans))
      as (ys & σ2 & Hys & R2).
    exists (y :: ys), σ2. split; [|by etrans].
    apply bind_Some. exists y, σ1. split; [done|].
    apply bind_Some. exists ys, σ2. done.
Qed.

Lemma rank_returns (key : loc → M Z) (l : list loc) (σ : store) (limit : Z) :
  (∀ x, x ∈ l → ∃ v, key x σ = Some (v, σ)) →
  ∃ res, (do s <- sort_by_key key l; ret (slice_to limit s)) σ = Some (res, σ).
Proof.
  intros Hk.
  destruct (mapM_returns key eq σ l) with (σ := σ) as (keys & σ1 & Hm & <-); [|done|].
  { intros x σa Hx <-. destruct (Hk x Hx) as [v Hv]. by exists v, σ. }
  eexists. apply bind_Some. eexists _, σ. split; [|done].
  apply bind_Some. exists keys, σ. done.
Qed.

Lemma usable_stable n σ σ' l : usable σ l → evolves n σ σ' → usable σ' l.
Proof.
  intros (d & Hd & (Ho & Hh & Hb) & Hm) E.
  destruct (evolves_same_keys _ _ _ _ _ E Hd) as (d' & Hd' & Ko & Kh & Kb & Km).
  exists d'. unfold readable. by rewrite Ko, Kh, Kb, Km.
Qed.

Lemma with_context_usable g mt d : readable d → readable (with_context g mt d) ∧
  is_Some (with_context g mt d !! "market_type").
Proof.
  intros (Ho & Hh & Hb). unfold readable, with_context.
  rewrite !lookup_insert_ne by done. rewrite lookup_insert_eq. eauto.
Qed.

(** On readable bets [extract_all_bets] returns, and its copies are
    usable. *)
Lemma extract_returns games σ :
  readable_bets games σ →
  ∃ all_bets σ1,
    extract_all_bets games σ = Some (all_bets, σ1) ∧
    Forall (λ l, (length σ ≤ l)%nat) all_bets ∧ Forall (usable σ1) all_bets.
Proof.
  intros Hr.
  assert (bets_stored games σ) as Hs.
  { intros g m bet Hg Hm Hb. destruct (Hr g m bet Hg Hm Hb) as (d & Hd & _).
    by eapply lookup_lt_Some. }
  eexists _, _. split; [by apply extract_all_bets_alloc|].
  assert (Forall (λ d, readable d ∧ is_Some (d !! "market_type"))
            (context_copies σ games)) as Hc.
  { unfold context_copies. apply Forall_flat_map, Forall_forall. intros g Hg.
    apply Forall_flat_map, Forall_forall. intros m Hm.
    apply Forall_map, Forall_forall. intros bet Hb.
    destruct (Hr g m bet Hg Hm Hb) as (d & -> & Hd). by apply with_context_usable. }
  split; apply Forall_forall; intros l Hl%list_elem_of_In%in_seq; [lia|].
  destruct (lookup_lt_is_Some_2 (context_copies σ games) (l - length σ)) as [d Hd]; [lia|].
  exists d. rewrite lookup_app_r by lia. split; [done|].
  rewrite Forall_forall in Hc. apply Hc. by eapply list_elem_of_lookup_2.
Qed.

Lemma not_total_returns σ l :
  Forall (usable σ) l → ∃ xs, filterM not_total l σ = Some (xs, σ) ∧ xs ⊆ l.
Proof.
  intros Hl. rewrite Forall_forall in Hl.
  destruct (filterM_returns not_total eq σ l) with (σ := σ) as (xs & σ1 & Hf & <-); [|done|].
  { intros x σa Hx <-. destruct (Hl x Hx) as (d & Hd & _ & [ty Ht]).
    eexists _, σ. split; [|done]. unfold not_total.
    apply bind_Some. exists ty, σ. split; [|done]. apply getitem_Some. eauto. }
  exists xs. split; [done|].
  apply not_total_reads in Hf as [_ ->]. intros x Hx%list_elem_of_In%List.filter_In.
  apply list_elem_of_In, Hx.
Qed.

Lemma handle_key_returns σ x : usable σ x → ∃ v, handle_key x σ = Some (v, σ).
Proof.
  intros (d & Hd & (_ & [h Hh] & _) & _). eexists. unfold handle_key.
  apply bind_Some. exists h, σ. split; [|done]. apply getitem_Some. eauto.
Qed.

Lemma float_key_returns k f σ x :
  has_score k f σ x → ∃ v, float_key x k σ = Some (v, σ).
Proof.
  intros (d & Hd & Hk). eexists. unfold float_key.
  apply bind_Some. eexists _, σ. split; [apply getitem_Some; eauto|]. done.
Qed.

Lemma getitem_returns σ x d k v :
  σ !! x = Some d → d !! k = Some v → getitem x k σ = Some (v, σ).
Proof. intros Hd Hk. apply getitem_Some. eauto. Qed.

Lemma setitem_returns σ x d k v :
  σ !! x = Some d → setitem x k v σ = Some (tt, <[x := <[k := v]> d]> σ).
Proof. intros Hd. unfold setitem. by rewrite Hd. Qed.

Lemma longshot_turn_returns σ x :
  usable σ x →
  ∃ b σ',
    (do o <- getitem x "odds";
     do h <- getitem x "handle_pct";
     do b <- getitem x "bets_pct";
     let odds := parse_odds o in
     let handle_pct := parse_percentage h in
     let bets_pct := parse_percentage b in
     if 200 <=? odds then
       if bets_pct + 30 <=? handle_pct then
         do _ <- setitem x "handle_vs_bets_diff" (PFloat (handle_pct - bets_pct));
         ret true
       else ret false
     else ret false) σ = Some (b, σ').
Proof.
  intros (d & Hd & ([o Ho] & [h Hh] & [b Hb]) & _).
  unfold bind at 1. rewrite (getitem_returns _ _ _ _ _ Hd Ho).
  unfold bind at 1. rewrite (getitem_returns _ _ _ _ _ Hd Hh).
  unfold bind at 1. rewrite (getitem_returns _ _ _ _ _ Hd Hb). cbv zeta.
  destruct (200 <=? parse_odds o); [|by eexists _, _].
  destruct (parse_percentage b + 30 <=? parse_percentage h); [|by eexists _, _].
  unfold bind. rewrite (setitem_returns _ _ _ _ _ Hd). by eexists _, _.
Qed.

Lemma square_turn_returns σ x :
  usable σ x →
  ∃ b σ',
    (do h <- getitem x "handle_pct";
     do b <- getitem x "bets_pct";
     let handle_pct := parse_percentage h in
     let bets_pct := parse_percentage b in
     let square_score := bets_pct - handle_pct in
     if 0 <? square_score then
       do _ <- setitem x "square_score" (PFloat square_score);
       ret true
     else ret false) σ = Some (b, σ').
Proof.
  intros (d & Hd & (_ & [h Hh] & [b Hb]) & _).
  unfold bind at 1. rewrite (getitem_returns _ _ _ _ _ Hd Hh).
  unfold bind at 1. rewrite (getitem_returns _ _ _ _ _ Hd Hb). cbv zeta.
  destruct (0 <? parse_percentage b - parse_percentage h); [|by eexists _, _].
  unfold bind. rewrite (setitem_returns _ _ _ _ _ Hd). by eexists _, _.
Qed.

Lemma diff_turn_returns σ x :
  usable σ x →
  ∃ u σ',
    (do h <- getitem x "handle_pct";
     do b <- getitem x "bets_pct";
     let handle_pct := parse_percentage h in
     let bets_pct := parse_percentage b in
     setitem x "handle_vs_bets_diff" (PFloat (handle_pct - bets_pct))) σ = Some (u, σ').
Proof.
  intros (d & Hd & (_ & [h Hh] & [b Hb]) & _).
  unfold bind at 1. rewrite (getitem_returns _ _ _ _ _ Hd Hh).
  unfold bind at 1. rewrite (getitem_returns _ _ _ _ _ Hd Hb). cbv zeta.
  rewrite (setitem_returns _ _ _ _ _ Hd). by eexists _, _.
Qed.

Lemma bind_returns {A B} (m : M A) (k : A → M B) σ x σ1 :
  m σ = Some (x, σ1) → is_Some (k x σ1) → is_Some (bind m k σ).
Proof. intros Hm [[r σ'] Hk]. exists (r, σ'). apply bind_Some. eauto. Qed.

Lemma rank_is_Some (key : loc → M Z) (l : list loc) (σ : store) (limit : Z) :
  (∀ x, x ∈ l → ∃ v, key x σ = Some (v, σ)) →
  is_Some ((do s <- sort_by_key key l; ret (slice_to limit s)) σ).
Proof. intros Hk. destruct (rank_returns key l σ limit Hk) as [res H]. eauto. Qed.

Lemma big_bettor_alerts_returns games limit σ :
  readable_bets games σ → is_Some (big_bettor_alerts games limit σ).
Proof.
  intros (all_bets & σ1 & H1 & _ & U1)%extract_returns.
  destruct (not_total_returns σ1 all_bets U1) as (nt & H2 & S2).
  unfold big_bettor_alerts.
  eapply bind_returns; [exact H1|]. eapply bind_returns; [exact H2|].
  apply rank_is_Some.
  intros x Hx%S2. rewrite Forall_forall in U1. by apply handle_key_returns, U1.
Qed.

Lemma sharpest_longshot_bets_returns games limit σ :
  readable_bets games σ → is_Some (sharpest_longshot_bets games limit σ).
Proof.
  intros (all_bets & σ1 & H1 & F1 & U1)%extract_returns.
  set (n := length σ) in *. rewrite Forall_forall in F1, U1.
  unfold sharpest_longshot_bets. eapply bind_returns; [exact H1|].
  match goal with
  | |- is_Some (bind (filterM ?f _) _ _) =>
      destruct (filterM_returns f (evolves n) σ1 all_bets) with (σ := σ1)
        as (sharp & σ2 & H2 & E2); [|reflexivity|]
  end.
  { intros x σa Hx Ea.
    destruct (longshot_turn_returns σa x) as (b & σb & Hb);
      [by eapply usable_stable; [apply U1|]|].
    exists b, σb. split; [exact Hb|].
    by apply (longshot_turn n) in Hb as (Eb & _); [|apply F1]. }
  eapply bind_returns; [exact H2|].
  eapply (filterM_spec _ (evolves n)
            (λ l σ, has_score "handle_vs_bets_diff" handle_minus_bets σ l)
            σ1 all_bets) in H2 as (_ & P2 & _); [| | |reflexivity].
  2: { intros; by eapply has_diff_stable. }
  2: { intros x σa b σb Hx _ Hb.
       apply (longshot_turn n) in Hb as (Eb & _ & Hs); [done | by apply F1]. }
  apply rank_is_Some.
  intros x Hx. rewrite Forall_forall in P2. by eapply float_key_returns, P2.
Qed.

Lemma get_rich_quick_scheme_returns games σ :
  readable_bets games σ → is_Some (get_rich_quick_scheme games σ).
Proof.
  intros (all_bets & σ1 & H1 & _ & U1)%extract_returns.
  rewrite Forall_forall in U1.
  unfold get_rich_quick_scheme. eapply bind_returns; [exact H1|].
  match goal with
  | |- is_Some (bind (filterM ?f _) _ _) =>
      destruct (filterM_returns f eq σ1 all_bets) with (σ := σ1)
        as (rq & σ2 & H2 & <-); [|reflexivity|]
  end.
  { intros x σa Hx <-. destruct (U1 x Hx) as (d & Hd & ([o Ho] & [h Hh] & _) & _).
    eexists _, σ1. split; [|done].
    unfold bind at 1. rewrite (getitem_returns _ _ _ _ _ Hd Ho).
    unfold bind at 1. rewrite (getitem_returns _ _ _ _ _ Hd Hh). done. }
  eapply bind_returns; [exact H2|].
  apply rich_reads in H2 as [_ Hrq].
  destruct (mapM_returns handle_key eq σ1 rq) with (σ := σ1) as (keys & σ3 & Hm & <-);
    [|done|].
  { intros x σa Hx <-. destruct (handle_key_returns σ1 x) as [v Hv].
    - apply U1. rewrite Hrq in Hx.
      apply list_elem_of_In, List.filter_In in Hx as [Hx _]. by apply list_elem_of_In.
    - by exists v, σ1. }
  unfold sort_by_key. eapply bind_returns; [exact Hm|]. done.
Qed.

Lemma biggest_square_bets_returns games limit σ :
  readable_bets games σ → is_Some (biggest_square_bets games limit σ).
Proof.
  intros (all_bets & σ1 & H1 & F1 & U1)%extract_returns.
  set (n := length σ) in *. rewrite Forall_forall in F1, U1.
  unfold biggest_square_bets, square_loop. eapply bind_returns; [exact H1|].
  match goal with
  | |- is_Some (bind (filterM ?f _) _ _) =>
      destruct (filterM_returns f (evolves n) σ1 all_bets) with (σ := σ1)
        as (sq & σ2 & H2 & E2); [|reflexivity|]
  end.
  { intros x σa Hx Ea.
    destruct (square_turn_returns σa x) as (b & σb & Hb);
      [by eapply usable_stable; [apply U1|]|].
    exists b, σb. split; [exact Hb|].
    by apply (square_turn n) in Hb as (Eb & _); [|apply F1]. }
  eapply bind_returns; [exact H2|].
  eapply (filterM_spec _ (evolves n)
            (λ l σ, has_score "square_score" bets_minus_handle σ l)
            σ1 all_bets) in H2 as (_ & P2 & _); [| | |reflexivity].
  2: { intros; by eapply has_square_stable. }
  2: { intros x σa b σb Hx _ Hb.
       apply (square_turn n) in Hb as (Eb & _ & Hs); [done | by apply F1]. }
  apply rank_is_Some.
  intros x Hx. rewrite Forall_forall in P2. by eapply float_key_returns, P2.
Qed.

Lemma readable_bets_filter games sport σ :
  readable_bets games σ → readable_bets (filter_games_by_sport games sport) σ.
Proof.
  intros Hr g m bet Hg. apply (Hr g m bet). unfold filter_games_by_sport in Hg.
  destruct (dict_get sport team_lists); [|by apply elem_of_nil in Hg].
  apply list_elem_of_In, List.filter_In in Hg as [Hg _]. by apply list_elem_of_In.
Qed.

Lemma big_bettor_alerts_by_sport_returns games sport limit σ :
  readable_bets games σ → is_Some (big_bettor_alerts_by_sport games sport limit σ).
Proof.
  intros Hr%(readable_bets_filter _ sport). unfold big_bettor_alerts_by_sport.
  destruct (filter_games_by_sport games sport) as [|g gs] eqn:Hsg; [done|].
  rewrite <- Hsg in *. clear Hsg g gs.
  apply extract_returns in Hr as (all_bets & σ1 & H1 & F1 & U1).
  set (n := length σ) in *.
  destruct (not_total_returns σ1 all_bets U1) as (nt & H2 & S2).
  rewrite Forall_forall in F1, U1.
  eapply bind_returns; [exact H1|]. eapply bind_returns; [exact H2|].
  match goal with
  | |- is_Some (bind (mapM ?f _) _ _) =>
      destruct (mapM_returns f (evolves n) σ1 nt) with (σ := σ1)
        as (us & σ3 & H3 & E3); [|reflexivity|]
  end.
  { intros x σa Hx%S2 Ea.
    destruct (diff_turn_returns σa x) as (u & σb & Hb);
      [by eapply usable_stable; [apply U1|]|].
    exists u, σb. split; [exact Hb|].
    by apply (diff_turn n) in Hb as (Eb & _); [|apply F1]. }
  eapply bind_returns; [exact H3|].
  eapply (mapM_spec _ (evolves n)
            (λ l _ σ, has_score "handle_vs_bets_diff" handle_minus_bets σ l)
            σ1 nt) in H3 as (_ & P3); [| | |reflexivity].
  2: { intros; by eapply has_diff_stable. }
  2: { intros x σa u σb Hx%S2 _ Hb. apply (diff_turn n) in Hb; [done | by apply F1]. }
  assert (Forall (has_score "handle_vs_bets_diff" handle_minus_bets σ3) nt) as P3'.
  { clear -P3. induction P3; constructor; auto. }
  apply rank_is_Some.
  intros x Hx. rewrite Forall_forall in P3'. by eapply float_key_returns, P3'.
Qed.

Lemma run_query_returns (q : query) (games : list (Game loc)) (σ : store) :
  readable_bets games σ → is_Some (run_query q games σ).
Proof.
  intros Hr.
  destruct q as [limit|limit| |limit|sport limit|sport limit]; cbn.
  - by apply big_bettor_alerts_returns.
  - by apply sharpest_longshot_bets_returns.
  - by apply get_rich_quick_scheme_returns.
  - by apply biggest_square_bets_returns.
  - by apply big_bettor_alerts_by_sport_returns.
  - rewrite square_by_sport_eq. by apply biggest_square_bets_returns, readable_bets_filter.
Qed.

(** X15.  When every bet of the games is an object of the store with
    the keys odds, handle_pct and bets_pct, each of the six queries
    returns: no key is missing where the code reads one, the fields that
    the sorts read included. *)
Theorem queries_return (q : query) (games : list (Game loc)) (σ : store) :
  readable_bets games σ → ∃ res σ', run_query q games σ = Some (res, σ').
Proof.
  intros [[res σ'] H]%(run_query_returns q). eauto.
Qed.

End ReturnFacts.

Lemma queries_return_witness :
  ∃ res σ', run_query (BiggestSquareBetsBySport "nba" 7) Demo.games Demo.bets =
            Some (res, σ').
Proof.
  apply (queries_return (BiggestSquareBetsBySport "nba" 7) Demo.games Demo.bets).
  apply readable_bets_check. vm_compute. reflexivity.
Defined.

Section InternFacts.

Local Open Scope list_scope.

Lemma parsed_bet_readable d : parsed_bet d → readable d.
Proof.
  intros (team & odds & h & b & -> & _). unfold readable.
  repeat split; rewrite ?lookup_insert_ne by done; rewrite lookup_insert_eq; eauto.
Qed.

Lemma new_dicts_alloc (bets : list pydict) (σ : store) :
  mapM new_dict bets σ = Some (seq (length σ) (length bets), σ ++ bets).
Proof.
  revert σ. induction bets as [|d bets IH]; intros σ; cbn [mapM length seq].
  - by rewrite app_nil_r.
  - apply bind_Some. exists (length σ), (σ ++ [d]). split; [done|].
    apply bind_Some. eexists _, _. split; [apply IH|].
    rewrite length_app, <- app_assoc. cbn. by rewrite Nat.add_1_r.
Qed.

Lemma intern_market_spec (m : string * list pydict) (σ : store) (m' : string * list loc) σ' :
  Forall readable m.2 →
  (let '(ty, bets) := m in do ls <- mapM new_dict bets; ret (ty, ls)) σ = Some (m', σ') →
  σ `prefix_of` σ' ∧ Forall (λ l, ∃ d, σ' !! l = Some d ∧ readable d) m'.2.
Proof.
  destruct m as [ty bets]. cbn. intros Hb (ls & σ1 & Hls & [-> ->]%ret_Some)%bind_Some.
  rewrite new_dicts_alloc in Hls. injection Hls as <- <-. split; [by exists bets|].
  cbn. apply Forall_forall. intros l Hl%list_elem_of_In%in_seq.
  destruct (lookup_lt_is_Some_2 bets (l - length σ)) as [d Hd]; [lia|].
  exists d. rewrite lookup_app_r by lia. split; [done|].
  rewrite Forall_forall in Hb. by eapply Hb, list_elem_of_lookup_2.
Qed.

Lemma stored_readable_stable (σ σ' : store) (ls : list loc) :
  Forall (λ l, ∃ d, σ !! l = Some d ∧ readable d) ls → σ `prefix_of` σ' →
  Forall (λ l, ∃ d, σ' !! l = Some d ∧ readable d) ls.
Proof.
  intros H Hp. eapply Forall_impl; [exact H|]. intros l (d & Hd & Hr).
  exists d. split; [by eapply prefix_lookup_Some | done].
Qed.

Lemma intern_games_readable (games : list (Game pydict)) (σ : store) gs σ' :
  Forall (λ g, Forall (λ m, Forall readable m.2) (markets g)) games →
  intern_games games σ = Some (gs, σ') →
  readable_bets gs σ'.
Proof.
  intros Hg H. unfold intern_games in H. rewrite Forall_forall in Hg.
  eapply (mapM_spec intern_game prefix
            (λ _ g' σ, Forall (λ m' : string * list loc,
                         Forall (λ l, ∃ d, σ !! l = Some d ∧ readable d) m'.2)
                         (markets g'))
            σ games) in H as (_ & P); [| |clear H|reflexivity].
  - intros g' m bet Hg' Hm Hbet.
    assert (Forall (λ g', Forall (λ m' : string * list loc,
                      Forall (λ l, ∃ d, σ' !! l = Some d ∧ readable d) m'.2)
                      (markets g')) gs) as P'.
    { clear -P. induction P; constructor; auto. }
    rewrite Forall_forall in P'. specialize (P' g' Hg').
    rewrite Forall_forall in P'. specialize (P' m Hm).
    rewrite Forall_forall in P'. by apply P'.
  - intros _ g' σa σb Hst Hp. eapply Forall_impl; [exact Hst|].
    intros m' Hm'. cbn beta in *. eapply stored_readable_stable; [exact Hm' | exact Hp].
  - intros g σa g' σb Hin _ Hi. unfold intern_game in Hi.
    apply bind_Some in Hi as (ms & σ1 & Hms & [-> ->]%ret_Some). cbn [markets].
    specialize (Hg g Hin). rewrite Forall_forall in Hg.
    eapply (mapM_spec _ prefix
              (λ _ (m' : string * list loc) σ,
                 Forall (λ l, ∃ d, σ !! l = Some d ∧ readable d) m'.2)
              σa (markets g)) in Hms as (Hp & P); [| |clear Hms|reflexivity].
    + split; [done|]. clear -P. induction P; constructor; auto.
    + intros; by eapply stored_readable_stable.
    + intros m σc m' σd Hm _ Hi. by apply intern_market_spec in Hi; [|apply Hg].
Qed.

Lemma intern_games_returns (games : list (Game pydict)) (σ : store) :
  is_Some (intern_games games σ).
Proof.
  destruct (mapM_returns intern_game prefix σ games) with (σ := σ)
    as (gs & σ' & H & _); [|done|by eexists].
  intros g σa _ _. unfold intern_game.
  match goal with
  | |- ∃ _ _, bind (mapM ?f _) _ _ = _ ∧ _ =>
      destruct (mapM_returns f prefix σa (markets g)) with (σ := σa)
        as (ms & σb & Hms & Hp); [|done|]
  end.
  - intros [ty bets] σc _ _. eexists _, _. split.
    + apply bind_Some. eexists _, _. split; [apply new_dicts_alloc | done].
    + by exists bets.
  - eexists _, σb. split; [|done]. apply bind_Some. eexists _, _. split; [exact Hms | done].
Qed.

(** X16.  On games whose bets were all built by [parse_bet], once
    these bets are placed in a store, each of the six queries returns. *)
Theorem queries_return_on_parsed_bets (games : list (Game pydict)) (q : query)
    (σ : store) :
  (∀ g m d, g ∈ games → m ∈ markets g → d ∈ m.2 →
     ∃ bet_soup, parse_bet bet_soup = Some d) →
  ∃ gs σ1 res σ',
    intern_games games σ = Some (gs, σ1) ∧ run_query q gs σ1 = Some (res, σ').
Proof.
  intros Hp. destruct (intern_games_returns games σ) as [[gs σ1] Hi].
  assert (readable_bets gs σ1) as Hr.
  { eapply intern_games_readable; [|exact Hi].
    apply Forall_forall. intros g Hg. apply Forall_forall. intros m Hm.
    apply Forall_forall. intros d Hd. destruct (Hp g m d Hg Hm Hd) as [soup Hs].
    by eapply parsed_bet_readable, parse_bet_parsed. }
  enough (is_Some (run_query q gs σ1)) as [[res σ'] H] by (by exists gs, σ1, res, σ').
  by apply run_query_returns.
Qed.

End InternFacts.

Lemma queries_return_on_parsed_bets_witness :
  let d := default ∅ (parse_bet (Demo.bet_row "Yankees" "+250" "65%" "20%")) in
  ∃ gs σ1 res σ',
    intern_games [mkGame "Yankees @ Red Sox" "7:05 PM" "Yankees" "Red Sox"
                    [("Moneyline", [d])] None] [] = Some (gs, σ1) ∧
    run_query (SharpestLongshots 7) gs σ1 = Some (res, σ').
Proof.
  intros d. apply queries_return_on_parsed_bets.
  intros g m d' Hg Hm Hd. apply list_elem_of_singleton in Hg as ->. cbn in Hm.
  apply list_elem_of_singleton in Hm as ->. cbn in Hd.
  apply list_elem_of_singleton in Hd as ->.
  exists (Demo.bet_row "Yankees" "+250" "65%" "20%").
  apply default_Some. vm_compute. reflexivity.
Defined.

(** ** Queries in a row *)

Section IndependenceFacts.

Local Open Scope list_scope.

Lemma run_query_evolves q games σ res σ' :
  run_query q games σ = Some (res, σ') → evolves (length σ) σ σ'.
Proof.
  intros H. destruct q; cbn [run_query] in H.
  - by apply big_bettor_alerts_spec in H as (? & _).
  - by apply sharpest_longshot_bets_spec in H as (? & _).
  - by apply get_rich_quick_scheme_spec in H as (? & _).
  - by apply biggest_square_bets_spec in H as (? & _).
  - by apply big_bettor_alerts_by_sport_spec in H as (? & _).
  - by apply biggest_square_bets_by_sport_spec in H as (? & _).
Qed.

Lemma flat_map_ext_in {A B} (f g : A → list B) (l : list A) :
  (∀ a, a ∈ l → f a = g a) → flat_map f l = flat_map g l.
Proof.
  induction l as [|a l IH]; intros H; cbn; [done|].
  rewrite (H a) by left. rewrite IH; [done|]. intros; apply H; by right.
Qed.

Lemma context_copies_agree (σ σ1 : store) (games : list (Game loc)) :
  bets_stored games σ → (∀ l, (l < length σ)%nat → σ1 !! l = σ !! l) →
  context_copies σ1 games = context_copies σ games.
Proof.
  intros Hs F. unfold context_copies.
  apply flat_map_ext_in. intros g Hg. apply flat_map_ext_in. intros m Hm.
  apply List.map_ext_in. intros bet Hb%list_elem_of_In.
  by rewrite (F bet (Hs g m bet Hg Hm Hb)).
Qed.

Lemma insert_desc_relabel {A B} (g : A → B) (x : Z * A) (l : list (Z * A)) :
  insert_desc (x.1, g x.2) (List.map (λ p, (p.1, g p.2)) l) =
  List.map (λ p, (p.1, g p.2)) (insert_desc x l).
Proof.
  induction l as [|y l IH]; cbn; [done|].
  destruct (x.1 <? y.1); cbn; [by rewrite <- IH | done].
Qed.

Lemma sorted_desc_relabel {A B} (g : A → B) (l : list (Z * A)) :
  sorted_desc (List.map (λ p, (p.1, g p.2)) l) =
  List.map (λ p, (p.1, g p.2)) (sorted_desc l).
Proof.
  induction l as [|x l IH]; cbn; [done|].
  fold (sorted_desc l). fold (sorted_desc (List.map (λ p : Z * A, (p.1, g p.2)) l)).
  by rewrite IH, (insert_desc_relabel g x).
Qed.

Lemma ranking_relabel (f : pydict → Z) (σ σ' : store) (g : loc → loc) (l : list loc) :
  (∀ x, x ∈ l → key_at f σ' (g x) = key_at f σ x) →
  ranking f σ' (List.map g l) = List.map g (ranking f σ l).
Proof.
  intros Hk. unfold ranking. rewrite List.map_map.
  assert (List.map (λ x, (key_at f σ' (g x), g x)) l =
          List.map (λ p : Z * loc, (p.1, g p.2)) (List.map (λ x, (key_at f σ x, x)) l))
    as ->.
  { rewrite List.map_map. apply List.map_ext_in. intros x Hx%list_elem_of_In.
    cbn. by rewrite Hk. }
  rewrite sorted_desc_relabel, !List.map_map. done.
Qed.

Lemma filter_relabel {A B} (t : A → bool) (t' : B → bool) (g : A → B) (l : list A) :
  (∀ x, x ∈ l → t' (g x) = t x) →
  List.filter t' (List.map g l) = List.map g (List.filter t l).
Proof.
  induction l as [|x l IH]; intros H; cbn; [done|].
  rewrite (H x) by left. rewrite IH by (intros; apply H; by right).
  by destruct (t x).
Qed.

Lemma cut_relabel (limit : option Z) (g : loc → loc) (l : list loc) :
  cut limit (List.map g l) = List.map g (cut limit l).
Proof.
  destruct limit as [n|]; [|done]. cbn. unfold slice_to.
  rewrite length_map. by destruct (0 <=? n); rewrite firstn_map.
Qed.

Lemma seq_relabel (n s k : nat) :
  seq (n + s) k = List.map (λ l, (l + s)%nat) (seq n k).
Proof.
  revert n. induction k as [|k IH]; intros n; cbn; [done|].
  f_equal. apply (IH (S n)).
Qed.

Lemma same_dict_same_test q (σ σ' : store) (l l' : loc) :
  σ' !! l' = σ !! l →
  query_test q σ' l' = query_test q σ l ∧
  key_at (rank_key q) σ' l' = key_at (rank_key q) σ l.
Proof.
  intros H. destruct q; cbn;
    unfold is_non_total, is_longshot, is_rich, is_square, key_at; by rewrite H.
Qed.

Lemma query_evolve q n (σ σ' : store) (l : loc) :
  evolves n σ σ' → is_Some (σ !! l) →
  query_test q σ' l = query_test q σ l ∧
  key_at (rank_key q) σ' l = key_at (rank_key q) σ l.
Proof.
  intros E Hl. pose proof (tests_evolve n σ σ' l E Hl) as (? & ? & ? & ? & ? & ? & ?).
  by destruct q.
Qed.

Lemma bets_stored_query_games q games σ :
  bets_stored games σ → bets_stored (query_games q games) σ.
Proof.
  intros Hs.
  destruct q; try done; cbn; unfold filter_games_by_sport;
    destruct (dict_get _ team_lists); intros g m bet Hg; try (by apply elem_of_nil in Hg);
    apply list_elem_of_In, List.filter_In in Hg as [Hg%list_elem_of_In _]; by eapply Hs.
Qed.

(** X17.  A query does not see the queries that ran before it on the
    same games ([get_analytics_summary] runs four in a row): run after
    another query, it returns the bets it returns when run first, as
    later copies (the references are shifted by the number of objects
    that the first query created), and the dictionaries returned agree on
    every key except possibly the two derived fields. *)
Theorem queries_do_not_interfere (q1 q2 : query) (games : list (Game loc))
    (σ : store) (res1 : list loc) (σ1 : store)
    (res2 : list loc) (σ2 : store) (res2' : list loc) (σ2' : store) :
  bets_stored games σ →
  run_query q1 games σ = Some (res1, σ1) →
  run_query q2 games σ1 = Some (res2, σ2) →
  run_query q2 games σ = Some (res2', σ2') →
  res2 = List.map (λ l, (l + (length σ1 - length σ))%nat) res2' ∧
  ∀ l, l ∈ res2' →
    ∃ d d',
      σ2 !! (l + (length σ1 - length σ))%nat = Some d ∧ σ2' !! l = Some d' ∧
      ∀ k, k ≠ "handle_vs_bets_diff" → k ≠ "square_score" → d !! k = d' !! k.
Proof.
  intros Hs H1 H2 H2'.
  apply run_query_evolves in H1 as (L & F & _).
  remember (length σ1 - length σ)%nat as s eqn:Hshift.
  apply (bets_stored_query_games q2) in Hs.
  assert (bets_stored (query_games q2 games) σ1) as Hs1.
  { intros g m bet Hg Hm Hb. specialize (Hs g m bet Hg Hm Hb). lia. }
  apply run_query_exact in H2 as (all_a & σa & Ha & Ea & ->).
  apply run_query_exact in H2' as (all_b & σb & Hb & Eb & ->).
  rewrite (extract_all_bets_alloc _ _ Hs1) in Ha. injection Ha as <- <-.
  rewrite (extract_all_bets_alloc _ _ Hs) in Hb. injection Hb as <- <-.
  rewrite (context_copies_agree σ σ1) in * by done.
  set (C := context_copies σ (query_games q2 games)) in *.
  assert (length σ1 = length σ + s)%nat as Hlen by lia.
  rewrite Hlen in Ea |- *. rewrite seq_relabel.
  assert (∀ l, l ∈ seq (length σ) (length C) →
            ∃ c, (σ ++ C) !! l = Some c ∧ (σ1 ++ C) !! (l + s)%nat = Some c) as Hc.
  { intros l Hl%list_elem_of_In%in_seq.
    destruct (lookup_lt_is_Some_2 C (l - length σ)) as [c Hc]; [lia|].
    exists c. rewrite !lookup_app_r by lia. split; [done|].
    replace (l + s - length σ1)%nat with (l - length σ)%nat by lia. done. }
  assert (∀ l, l ∈ seq (length σ) (length C) →
            query_test q2 σ2 (l + s)%nat = query_test q2 σ2' l ∧
            key_at (rank_key q2) σ2 (l + s)%nat = key_at (rank_key q2) σ2' l) as Hq.
  { intros l (c & Hb & Ha)%Hc.
    destruct (query_evolve q2 _ _ _ (l + s)%nat Ea ltac:(eauto)) as [-> ->].
    destruct (query_evolve q2 _ _ _ l Eb ltac:(eauto)) as [-> ->].
    apply same_dict_same_test. congruence. }
  split.
  - rewrite (filter_relabel (query_test q2 σ2') (query_test q2 σ2));
      [|intros; by apply Hq].
    rewrite (ranking_relabel _ σ2' σ2), cut_relabel; [done|].
    intros x [Hx _]%list_elem_of_In%List.filter_In. by apply Hq, list_elem_of_In.
  - intros l Hl.
    assert (l ∈ seq (length σ) (length C)) as Hin.
    { assert (l ∈ ranking (rank_key q2) σ2'
                      (List.filter (query_test q2 σ2') (seq (length σ) (length C)))) as Hr.
      { destruct (query_limit q2) as [n|]; cbn [cut] in Hl; [|done].
        destruct (slice_to_take n (ranking (rank_key q2) σ2'
                     (List.filter (query_test q2 σ2') (seq (length σ) (length C)))))
          as [k Hk]. rewrite Hk in Hl. by apply subseteq_take in Hl. }
      rewrite ranking_perm in Hr.
      apply list_elem_of_In, List.filter_In in Hr as [Hr _]. by apply list_elem_of_In. }
    destruct (Hc l Hin) as (c & Hb & Ha).
    destruct (evolves_lookup _ _ _ _ _ Ea Ha) as (d & Hd & (Kd & _)).
    destruct (evolves_lookup _ _ _ _ _ Eb Hb) as (d' & Hd' & (Kd' & _)).
    exists d, d'. split; [done|]. split; [done|].
    intros k K1 K2. by rewrite Kd, Kd'.
Qed.

End IndependenceFacts.

Lemma queries_do_not_interfere_witness :
  let r1 := Demo.outcome (run_query (BigBettorAlerts 7) Demo.games) in
  let r2 := default ([], []) (run_query (SharpestLongshots 7) Demo.games r1.2) in
  let r2' := Demo.outcome (run_query (SharpestLongshots 7) Demo.games) in
  run_query (SharpestLongshots 7) Demo.games r1.2 = Some (r2.1, r2.2) ∧
  r2'.1 = [8; 5]%nat ∧ r2.1 = [13; 10]%nat ∧
  r2.1 = List.map (λ l, (l + (length r1.2 - length Demo.bets))%nat) r2'.1.
Proof.
  intros r1 r2 r2'.
  assert (run_query (BigBettorAlerts 7) Demo.games Demo.bets = Some (r1.1, r1.2)) as E1
    by (apply (outcome_Some (run_query (BigBettorAlerts 7) Demo.games));
        vm_compute; reflexivity).
  assert (run_query (SharpestLongshots 7) Demo.games Demo.bets = Some (r2'.1, r2'.2))
    as E2' by (apply (outcome_Some (run_query (SharpestLongshots 7) Demo.games));
               vm_compute; reflexivity).
  assert (run_query (SharpestLongshots 7) Demo.games r1.2 = Some r2) as E2
    by (apply default_Some; vm_compute; reflexivity).
  assert (r2 = (r2.1, r2.2)) as Hr2 by (by destruct r2).
  rewrite Hr2 in E2.
  assert (bets_stored Demo.games Demo.bets) as S
    by (apply bets_stored_check; vm_compute; reflexivity).
  destruct (queries_do_not_interfere (BigBettorAlerts 7) (SharpestLongshots 7)
              Demo.games Demo.bets r1.1 r1.2 r2.1 r2.2 r2'.1 r2'.2 S E1 E2 E2')
    as [H _].
  split; [exact E2|]. split; [vm_compute; reflexivity|].
  split; [vm_compute; reflexivity | exact H].
Defined.
